(** * The TensorBoard graph builder ([tf_graph_common/graph.ts])

    A shallow embedding of the graph-construction pipeline of
    [tensorboard/plugins/graph/tf_graph_common/graph.ts]: input
    normalization ([normalizeInputs]), name disambiguation
    ([getStrictName], [getHierarchicalPath], [mapStrictHierarchy]),
    embedding extraction and edge materialization ([build],
    [addEdgeToGraph]) and the merge of run-time statistics
    ([joinStatsInfoWithGraph]).

    Conventions of the embedding.
    - A JavaScript string is a [string]; a character is one code unit, and
      [sort()] orders strings by their code units.
    - A JavaScript object used as a dictionary is a [gmap string _], the map
      of its own properties. An object made by [{}] inherits the members of
      [Object.prototype] ([objectPrototype]), and [mapStrictHierarchy] is
      embedded with them. In [build] a lookup under the name of such a
      member finds the inherited function where there is no own property,
      and [build] throws a [TypeError] or stores the function as a name or
      as a list: [build] is embedded as it runs on a graph description with
      plain names ([plainNames]), where every lookup finds an own property
      or nothing.
    - Node objects are shared and mutated in place, so they live in a store
      (a list in allocation order) and are referred to by their location;
      [inEmbeddings], [outEmbeddings] and the node map hold locations.
    - [build] also writes to the graph description it is given; the
      embedding returns the description as it is left.
    - Numbers are integers of [Z]; the sums and products of the code, on
      IEEE doubles, are those of [Z] as long as they are safe integers
      ([MAX_SAFE_INTEGER]). [undefined] and [null] are [None].
    - The two tasks of [build] run one after the other; the progress
      tracker and what is logged on the console are left out. *)

From Stdlib Require Import Ascii ZArith.
From Stdlib Require String.
From stdpp Require Import base option list gmap strings pretty sorting.

Local Open Scope Z_scope.
Local Open Scope nat_scope.

(** ** Strings *)

Module Str.

(** [s.startsWith(p)] and lodash's [_.startsWith(s, p)]. *)
Definition startsWith (s p : string) : bool := String.prefix p s.

(** [s.substring(n)]. *)
Fixpoint substringFrom (n : nat) (s : string) : string :=
  match n, s with
  | 0, _ => s
  | S n', String _ s' => substringFrom n' s'
  | S _, EmptyString => EmptyString
  end.

(** [s.includes(c)] for a one-character needle. *)
Fixpoint includes (c : ascii) (s : string) : bool :=
  match s with
  | EmptyString => false
  | String a s' => if Ascii.eqb a c then true else includes c s'
  end.

(** [s.charAt(n) === c]; [charAt] past the end is the empty string. *)
Definition charAtIs (s : string) (n : nat) (c : ascii) : bool :=
  match String.get n s with
  | Some a => Ascii.eqb a c
  | None => false
  end.

(** The text before the first occurrence of [c] and the text after it. *)
Fixpoint cut (c : ascii) (s : string) : option (string * string) :=
  match s with
  | EmptyString => None
  | String a s' =>
      if Ascii.eqb a c then Some (EmptyString, s')
      else match cut c s' with
           | Some (l, r) => Some (String a l, r)
           | None => None
           end
  end.

(** [s.split(c)]: never empty, [""] splits to [[""]]. *)
Fixpoint split (c : ascii) (s : string) : list string :=
  match s with
  | EmptyString => [EmptyString]
  | String a s' =>
      if Ascii.eqb a c then EmptyString :: split c s'
      else match split c s' with
           | p :: ps => String a p :: ps
           | [] => [String a EmptyString]
           end
  end.

Fixpoint all (p : ascii → bool) (s : string) : bool :=
  match s with
  | EmptyString => true
  | String a s' => p a && all p s'
  end.

Definition nonEmpty (s : string) : bool :=
  match s with EmptyString => false | _ => true end.

Definition between (lo hi : ascii) (c : ascii) : bool :=
  (N.leb (N_of_ascii lo) (N_of_ascii c)) && (N.leb (N_of_ascii c) (N_of_ascii hi)).

(** The character classes [\d], [[a-zA-Z]] and [\w]. *)
Definition isDigit (c : ascii) : bool := between "0" "9" c.
Definition isLetter (c : ascii) : bool := between "a" "z" c || between "A" "Z" c.
Definition isWord (c : ascii) : bool := isLetter c || isDigit c || Ascii.eqb c "_".

End Str.

(** ** Data model *)

Definition NAMESPACE_DELIM : string := "/".
Definition FUNCTION_LIBRARY_NODE_PREFIX : string := "__function_library__".
Definition OUTPUT_SHAPES_KEY : string := "_output_shapes".
Definition _XLA_CLUSTER_KEY : string := "_XlaCluster".

(** The namespace delimiter as a character. *)
Definition DELIM : ascii := "/".

Record NormalizedInput := {
  input_name : string;
  outputTensorKey : string;
  isControlDependency : bool;
}.

Global Instance NormalizedInput_eq_dec : EqDecision NormalizedInput.
Proof. solve_decision. Defined.

(** ** Input normalization *)

(** [INPUT_NAME_PART_MATCHER = /^([^:]+):((\w+:|)\d+)$/]: the capture
    groups 1 and 2 when the regular expression matches. Group 1 cannot hold
    a colon and is followed by one, so it is the text before the first
    colon; group 2 is the rest, either digits or a word, a colon and
    digits. *)
Definition digits1 (s : string) : bool := Str.nonEmpty s && Str.all Str.isDigit s.

Definition tensorPart (s : string) : bool :=
  digits1 s ||
  match Str.cut ":" s with
  | Some (word, num) => Str.nonEmpty word && Str.all Str.isWord word && digits1 num
  | None => false
  end.

Definition INPUT_NAME_PART_MATCHER (s : string) : option (string * string) :=
  match Str.cut ":" s with
  | Some (name, rest) =>
      if Str.nonEmpty name && tensorPart rest then Some (name, rest) else None
  | None => None
  end.

(** The body of the loop of [normalizeInputs] up to the test on
    [lastName]: the entry one raw input stands for. *)
Definition parseInput (inputName : string) : NormalizedInput :=
  let isControlDependency := Str.startsWith inputName "^" in
  let inputName :=
    if isControlDependency then Str.substringFrom 1 inputName else inputName in
  let matched :=
    if Str.includes ":" inputName then INPUT_NAME_PART_MATCHER inputName else None in
  match matched with
  | Some (name, key) =>
      {| input_name := name; outputTensorKey := key;
         isControlDependency := isControlDependency |}
  | None =>
      {| input_name := inputName; outputTensorKey := "0";
         isControlDependency := isControlDependency |}
  end.

(** The loop of [normalizeInputs]; [lastName] is [None] for [null]. *)
Fixpoint normalizeInputs_from (lastName : option string) (inputs : list string)
  : list NormalizedInput :=
  match inputs with
  | [] => []
  | inputName :: rest =>
      let i := parseInput inputName in
      if decide (lastName = Some (input_name i))
      then normalizeInputs_from lastName rest
      else i :: normalizeInputs_from (Some (input_name i)) rest
  end.

(** [normalizeInputs(inputs)]; [None] is an [undefined] input list. *)
Definition normalizeInputs (inputs : option (list string)) : list NormalizedInput :=
  normalizeInputs_from None (default [] inputs).

(** ** Strict names and hierarchical paths *)

(** [getStrictName(name)]. *)
Definition getStrictName (name : string) : string :=
  let parts := Str.split DELIM name in
  name +:+ NAMESPACE_DELIM +:+ "(" +:+ List.last parts "" +:+ ")".

(** The proper prefixes of [pre ++ s] that end just before a delimiter of
    [s]: what the [indexOf]/[substring] loop of [getHierarchicalPath]
    pushes. *)
Fixpoint parentPaths (pre s : string) : list string :=
  match s with
  | EmptyString => []
  | String a s' =>
      (if Ascii.eqb a DELIM then [pre] else [])
        ++ parentPaths (pre +:+ String a EmptyString) s'
  end.

(** [getHierarchicalPath(name, seriesNames)]; [seriesNames] is optional. *)
Definition getHierarchicalPath (name : string)
    (seriesNames : option (gmap string string)) : list string :=
  let series :=
    match seriesNames with
    | Some names =>
        match names !! name with
        | Some seriesName => if Str.nonEmpty seriesName then [seriesName] else []
        | None => []
        end
    | None => []
    end in
  parentPaths "" name ++ series ++ [name].

(** *** Plain objects

    The members of [Object.prototype] (ECMAScript, with its Annex B). An
    object made by [{}] inherits them: under each of these keys [k in o]
    holds and [o[k]] is defined, whatever the own properties of [o]. *)
Definition objectPrototype : list string :=
  ["constructor"; "__defineGetter__"; "__defineSetter__"; "hasOwnProperty";
   "__lookupGetter__"; "__lookupSetter__"; "isPrototypeOf";
   "propertyIsEnumerable"; "toString"; "valueOf"; "__proto__";
   "toLocaleString"].

Definition inherited (k : string) : bool := bool_decide (k ∈ objectPrototype).

(** [k in o] for an object made by [{}] whose own properties are [m]. *)
Definition hasProperty {A} (m : gmap string A) (k : string) : bool :=
  bool_decide (is_Some (m !! k)) || inherited k.

(** [o[k] = x] for a string or a boolean [x], on such an object. The
    member [__proto__] is an accessor whose setter ignores a value that is
    no object: the assignment makes no own property. *)
Definition assignPrimitive {A} (k : string) (x : A) (m : gmap string A)
  : gmap string A :=
  if decide (k = "__proto__") then m else <[k := x]> m.

(** *** The dictionary of new names

    The inner loop of [mapStrictHierarchy] over the names after [a]:
    whether it reaches the assignment to [newNameDictionary[a]]. *)
Fixpoint hasChildAfter (a : string) (later : list string) : bool :=
  match later with
  | [] => false
  | b :: later' =>
      if Str.startsWith b a then
        if (String.length a <? String.length b)
           && Str.charAtIs b (String.length a) DELIM
        then true
        else hasChildAfter a later'
      else false
  end.

(** The outer loop of [mapStrictHierarchy] over the sorted names, for
    [i < nodeNames.length - 1]: the last name is not visited. *)
Fixpoint strictLoop (names : list string)
    (acc : gmap string string * gmap string bool)
  : gmap string string * gmap string bool :=
  match names with
  | [] => acc
  | a :: later =>
      match later with
      | [] => acc
      | _ :: _ =>
          let namespaceSet :=
            foldl (λ set ns, assignPrimitive ns true set) acc.2
                  (removelast (getHierarchicalPath a None)) in
          let newNameDictionary :=
            if hasChildAfter a later
            then assignPrimitive a (getStrictName a) acc.1 else acc.1 in
          strictLoop later (newNameDictionary, namespaceSet)
      end
  end.

(** The pass of [mapStrictHierarchy] over the embedding names;
    [embeddingName in namespaceSet] finds the inherited members too. *)
Definition renameEmbeddings (namespaceSet : gmap string bool)
    (newNameDictionary : gmap string string) (embeddingNodeNames : list string)
  : gmap string string :=
  foldl (λ dict embeddingName,
           if hasProperty namespaceSet embeddingName
           then assignPrimitive embeddingName (getStrictName embeddingName) dict
           else dict)
        newNameDictionary embeddingNodeNames.

(** [mapStrictHierarchy(nodeNames, embeddingNodeNames)]: the own
    properties of the dictionary it returns. [nodeNames.sort()] orders
    strings by their code units. *)
Definition mapStrictHierarchy (nodeNames embeddingNodeNames : list string)
  : gmap string string :=
  let sorted := merge_sort String.le nodeNames in
  let '(newNameDictionary, namespaceSet) := strictLoop sorted (∅, ∅) in
  renameEmbeddings namespaceSet newNameDictionary embeddingNodeNames.

(** ** Raw graph description ([proto.ts]) *)

(** A shape of the [_output_shapes] attribute: [unknown_rank] and the
    sizes [dim[i].size] ([None] for a size that is absent). *)
Record TensorShapeProto := {
  unknown_rank : bool;
  dim : option (list (option Z));
}.

(** The fields of an attribute value that the builder reads:
    [value.list.shape], [value.s] and [value.type]. The value of an
    [_output_shapes] attribute always has its [list]. *)
Record AttrValue := {
  list_shape : option (list TensorShapeProto);
  attr_s : option string;
  attr_type : option string;
}.

Record Attr := { key : string; value : AttrValue }.

(** [NodeDef]; [raw_input] and [raw_attr] may be [undefined]. *)
Record NodeDef := {
  raw_name : string;
  raw_op : string;
  raw_device : string;
  raw_input : option (list string);
  raw_attr : option (list Attr);
}.

Record ArgDef := { arg_name : string; arg_type : string }.

(** [signature.input_arg] and [signature.output_arg]: absent, a single
    object (whose name is not empty) or an array. *)
Inductive ArgList :=
| NoArgs
| OneArg (arg : ArgDef)
| ArgArray (args : list ArgDef).

Record FunctionDef := {
  signature_name : string;
  input_arg : ArgList;
  output_arg : ArgList;
  node_def : list NodeDef;
}.

(** [GraphDef]; [library] is [graphDef.library.function] when both exist. *)
Record GraphDef := {
  node : list NodeDef;
  library : option (list FunctionDef);
}.

Record BuildParams := {
  enableEmbedding : bool;
  inEmbeddingTypes : list string;
  outEmbeddingTypes : list string;
  refEdges : gmap string bool;
}.

(** ** Graph ([SlimGraph], [OpNode], [BaseEdge]) *)

(** A location of the store of node objects. *)
Abbreviation loc := nat.

(** [NodeStats] is declared in [./common], outside these sources. An object
    of the class is represented by the argument of its constructor and by
    the method calls it received, in order, so that nothing is assumed on
    how the class folds them. *)
Inductive NodeStatsCall :=
| addBytesAllocation (totalBytes : Z)
| addExecutionTime (startTime endTime : option Z).

Record NodeStats := {
  outputSize : option (list (list (option Z)));
  calls : list NodeStatsCall;
}.

(** A tensor shape: the sizes of its dimensions. *)
Abbreviation TensorShape := (list (option Z)).

(** [OpNodeImpl]. The fields every [OpNodeImpl] holds with the same value
    ([type], [isGroupNode], [cardinality], [parentNode], [include],
    [owningSeries], [compatible]) are left out. Embeddings are references
    to node objects. *)
Record OpNode := {
  name : string;
  op : string;
  device : string;
  attr : option (list Attr);
  inputs : list NormalizedInput;
  outputShapes : option (list (option TensorShape));
  xlaCluster : option string;
  inEmbeddings : list loc;
  outEmbeddings : list loc;
  functionInputIndex : option nat;
  functionOutputIndex : option nat;
  stats : option NodeStats;
}.

Record BaseEdge := {
  v : string;
  w : string;
  edge_outputTensorKey : string;
  edge_isControlDependency : bool;
  isReferenceEdge : bool;
}.

Global Instance BaseEdge_eq_dec : EqDecision BaseEdge.
Proof. solve_decision. Defined.

(** [SlimGraph]: [nodes] maps a name to a node object. *)
Record SlimGraph := {
  nodes : gmap string loc;
  edges : list BaseEdge;
}.

(** Field assignments on a node object. *)
Definition set_name (x : string) (n : OpNode) : OpNode :=
  {| name := x; op := op n; device := device n; attr := attr n;
     inputs := inputs n; outputShapes := outputShapes n;
     xlaCluster := xlaCluster n; inEmbeddings := inEmbeddings n;
     outEmbeddings := outEmbeddings n;
     functionInputIndex := functionInputIndex n;
     functionOutputIndex := functionOutputIndex n; stats := stats n |}.

Definition set_device (x : string) (n : OpNode) : OpNode :=
  {| name := name n; op := op n; device := x; attr := attr n;
     inputs := inputs n; outputShapes := outputShapes n;
     xlaCluster := xlaCluster n; inEmbeddings := inEmbeddings n;
     outEmbeddings := outEmbeddings n;
     functionInputIndex := functionInputIndex n;
     functionOutputIndex := functionOutputIndex n; stats := stats n |}.

Definition set_inputs (x : list NormalizedInput) (n : OpNode) : OpNode :=
  {| name := name n; op := op n; device := device n; attr := attr n;
     inputs := x; outputShapes := outputShapes n;
     xlaCluster := xlaCluster n; inEmbeddings := inEmbeddings n;
     outEmbeddings := outEmbeddings n;
     functionInputIndex := functionInputIndex n;
     functionOutputIndex := functionOutputIndex n; stats := stats n |}.

Definition set_inEmbeddings (x : list loc) (n : OpNode) : OpNode :=
  {| name := name n; op := op n; device := device n; attr := attr n;
     inputs := inputs n; outputShapes := outputShapes n;
     xlaCluster := xlaCluster n; inEmbeddings := x;
     outEmbeddings := outEmbeddings n;
     functionInputIndex := functionInputIndex n;
     functionOutputIndex := functionOutputIndex n; stats := stats n |}.

Definition set_outEmbeddings (x : list loc) (n : OpNode) : OpNode :=
  {| name := name n; op := op n; device := device n; attr := attr n;
     inputs := inputs n; outputShapes := outputShapes n;
     xlaCluster := xlaCluster n; inEmbeddings := inEmbeddings n;
     outEmbeddings := x;
     functionInputIndex := functionInputIndex n;
     functionOutputIndex := functionOutputIndex n; stats := stats n |}.

Definition set_functionInputIndex (x : option nat) (n : OpNode) : OpNode :=
  {| name := name n; op := op n; device := device n; attr := attr n;
     inputs := inputs n; outputShapes := outputShapes n;
     xlaCluster := xlaCluster n; inEmbeddings := inEmbeddings n;
     outEmbeddings := outEmbeddings n;
     functionInputIndex := x;
     functionOutputIndex := functionOutputIndex n; stats := stats n |}.

Definition set_functionOutputIndex (x : option nat) (n : OpNode) : OpNode :=
  {| name := name n; op := op n; device := device n; attr := attr n;
     inputs := inputs n; outputShapes := outputShapes n;
     xlaCluster := xlaCluster n; inEmbeddings := inEmbeddings n;
     outEmbeddings := outEmbeddings n;
     functionInputIndex := functionInputIndex n;
     functionOutputIndex := x; stats := stats n |}.

Definition set_stats (x : option NodeStats) (n : OpNode) : OpNode :=
  {| name := name n; op := op n; device := device n; attr := attr n;
     inputs := inputs n; outputShapes := outputShapes n;
     xlaCluster := xlaCluster n; inEmbeddings := inEmbeddings n;
     outEmbeddings := outEmbeddings n;
     functionInputIndex := functionInputIndex n;
     functionOutputIndex := functionOutputIndex n; stats := x |}.

(** ** Construction of a node object *)

(** The shape an entry of [value.list.shape] is mapped to: [None] for an
    unknown rank, [[]] for a scalar. *)
Definition shapeOf (shape : TensorShapeProto) : option TensorShape :=
  if unknown_rank shape then None
  else match dim shape with
       | None => Some []
       | Some [None] => Some []
       | Some sizes => Some sizes
       end.

(** [extractOutputShapes(attr)] on a defined attribute list: the result
    and the list it leaves behind ([attr.splice(i, 1)] removes the entry
    that was read). *)
Fixpoint extractOutputShapes_from (attr : list Attr)
  : option (list (option TensorShape)) * list Attr :=
  match attr with
  | [] => (None, [])
  | a :: rest =>
      if decide (key a = OUTPUT_SHAPES_KEY) then
        match list_shape (value a) with
        | None => (None, a :: rest)
        | Some shapes => (Some (shapeOf <$> shapes), rest)
        end
      else
        let '(result, rest') := extractOutputShapes_from rest in
        (result, a :: rest')
  end.

Definition extractOutputShapes (attr : option (list Attr))
  : option (list (option TensorShape)) * option (list Attr) :=
  match attr with
  | None => (None, None)
  | Some l => let '(result, l') := extractOutputShapes_from l in (result, Some l')
  end.

(** [extractXlaCluster(attr)]. *)
Fixpoint extractXlaCluster_from (attr : list Attr) : option string :=
  match attr with
  | [] => None
  | a :: rest =>
      if decide (key a = _XLA_CLUSTER_KEY) then
        match attr_s (value a) with
        | Some s => if Str.nonEmpty s then Some s else None
        | None => None
        end
      else extractXlaCluster_from rest
  end.

Definition extractXlaCluster (attr : option (list Attr)) : option string :=
  match attr with
  | None => None
  | Some l => extractXlaCluster_from l
  end.

(** [new OpNodeImpl(rawNode)]: the node and the raw node as the
    constructor leaves it. The node shares the attribute array of the raw
    node, so both see the entry removed by [extractOutputShapes]. *)
Definition OpNodeImpl (rawNode : NodeDef) : OpNode * NodeDef :=
  let '(shapes, attr') := extractOutputShapes (raw_attr rawNode) in
  ({| name := raw_name rawNode; op := raw_op rawNode;
      device := raw_device rawNode; attr := attr';
      inputs := normalizeInputs (raw_input rawNode);
      outputShapes := shapes; xlaCluster := extractXlaCluster attr';
      inEmbeddings := []; outEmbeddings := [];
      functionInputIndex := None; functionOutputIndex := None;
      stats := None |},
   {| raw_name := raw_name rawNode; raw_op := raw_op rawNode;
      raw_device := raw_device rawNode; raw_input := raw_input rawNode;
      raw_attr := attr' |}).

(** ** The builder *)

(** The regular expressions of the host: [regExpTest pattern s] is whether
    [s.match(new RegExp(pattern))] finds a match. *)
Class RegExp := regExpTest : string → string → bool.

(** What the first task of [build] accumulates: the store of the node
    objects created so far and the closure variables [inEmbedding],
    [outEmbedding], [outEmbeddings] (here [outEmbeddingsOf]),
    [embeddingNodeNames], [opNodes] and [nodeNames]. The two arrays are
    filled from index 0 and cut at [index], so they are lists that grow at
    their end. *)
Record Builder := {
  store : list OpNode;
  inEmbedding : gmap string loc;
  outEmbedding : gmap string loc;
  outEmbeddingsOf : gmap string (list loc);
  embeddingNodeNames : list string;
  opNodes : list loc;
  nodeNames : list string;
}.

Definition emptyBuilder : Builder :=
  {| store := []; inEmbedding := ∅; outEmbedding := ∅; outEmbeddingsOf := ∅;
     embeddingNodeNames := []; opNodes := []; nodeNames := [] |}.

(** [outEmbeddings[inputName] = outEmbeddings[inputName] || [];
    outEmbeddings[inputName].push(opNode)], for an [inputName] that is no
    member of [Object.prototype]. (Under the name of a member the lookup
    finds the inherited function, and [push] throws a [TypeError].) *)
Definition pushOutEmbedding (l : loc) (m : gmap string (list loc))
    (input : NormalizedInput) : gmap string (list loc) :=
  <[input_name input := default [] (m !! input_name input) ++ [l]]> m.

Section Build.
Context `{!RegExp}.

(** [getEmbedPredicate(types)]. *)
Definition getEmbedPredicate (types : list string) (node : OpNode) : bool :=
  existsb (λ type, regExpTest type (op node)) types.

Variable params : BuildParams.

Definition isInEmbeddedPred : OpNode → bool :=
  getEmbedPredicate (inEmbeddingTypes params).
Definition isOutEmbeddedPred : OpNode → bool :=
  getEmbedPredicate (outEmbeddingTypes params).

(** [processRawNode(rawNode)]: the new state, the raw node as it is left
    and the location of the node object that is returned. *)
Definition processRawNode (rawNode : NodeDef) (st : Builder)
  : Builder * NodeDef * loc :=
  let '(opNode, rawNode') := OpNodeImpl rawNode in
  let l := length (store st) in
  let store' := store st ++ [opNode] in
  if isInEmbeddedPred opNode then
    ({| store := store';
        inEmbedding := <[name opNode := l]> (inEmbedding st);
        outEmbedding := outEmbedding st;
        outEmbeddingsOf := outEmbeddingsOf st;
        embeddingNodeNames := embeddingNodeNames st ++ [name opNode];
        opNodes := opNodes st; nodeNames := nodeNames st |}, rawNode', l)
  else if isOutEmbeddedPred opNode then
    ({| store := store';
        inEmbedding := inEmbedding st;
        outEmbedding := <[name opNode := l]> (outEmbedding st);
        outEmbeddingsOf :=
          foldl (pushOutEmbedding l) (outEmbeddingsOf st) (inputs opNode);
        embeddingNodeNames := embeddingNodeNames st ++ [name opNode];
        opNodes := opNodes st; nodeNames := nodeNames st |}, rawNode', l)
  else
    ({| store := store';
        inEmbedding := inEmbedding st;
        outEmbedding := outEmbedding st;
        outEmbeddingsOf := outEmbeddingsOf st;
        embeddingNodeNames := embeddingNodeNames st;
        opNodes := opNodes st ++ [l];
        nodeNames := nodeNames st ++ [name opNode] |}, rawNode', l).

(** [_.each(rawNodes, processRawNode)]: the state and the raw nodes as
    they are left. *)
Fixpoint processRawNodes (rawNodes : list NodeDef) (st : Builder)
  : Builder * list NodeDef :=
  match rawNodes with
  | [] => (st, [])
  | rawNode :: rest =>
      let '(st1, rawNode', _) := processRawNode rawNode st in
      let '(st2, rest') := processRawNodes rest st1 in
      (st2, rawNode' :: rest')
  end.

(** An assignment to a field of the node object at [l]. *)
Definition update (f : OpNode → OpNode) (l : loc) (st : Builder) : Builder :=
  {| store := alter f l (store st);
     inEmbedding := inEmbedding st; outEmbedding := outEmbedding st;
     outEmbeddingsOf := outEmbeddingsOf st;
     embeddingNodeNames := embeddingNodeNames st;
     opNodes := opNodes st; nodeNames := nodeNames st |}.

(** The arguments of an [ArgList] in the order they are visited. *)
Definition argsOf (args : ArgList) : list ArgDef :=
  match args with
  | NoArgs => []
  | OneArg arg => [arg]
  | ArgArray l => l
  end.

(** [processInput(arg)] of [processFunction], with the counter
    [currentInputIndex]. *)
Definition processInput (functionNodeName : string)
    (acc : Builder * nat) (arg : ArgDef) : Builder * nat :=
  let '(st, currentInputIndex) := acc in
  let '(st1, _, l) :=
    processRawNode
      {| raw_name := functionNodeName +:+ NAMESPACE_DELIM +:+ arg_name arg;
         raw_input := Some []; raw_device := ""; raw_op := "input_arg";
         raw_attr := Some [ {| key := "T";
                               value := {| list_shape := None; attr_s := None;
                                           attr_type := Some (arg_type arg) |} |} ] |}
      st in
  (update (set_functionInputIndex (Some currentInputIndex)) l st1,
   S currentInputIndex).

(** [processOutput(arg)] of [processFunction], with the counter
    [currentOutputIndex]. *)
Definition processOutput (functionNodeName : string)
    (acc : gmap string nat * nat) (arg : ArgDef) : gmap string nat * nat :=
  let '(outputArgNames, currentOutputIndex) := acc in
  (<[functionNodeName +:+ NAMESPACE_DELIM +:+ arg_name arg := currentOutputIndex]>
     outputArgNames,
   S currentOutputIndex).

(** The prefix a body node's inputs receive. *)
Definition prefixInput (functionNodeName : string) (i : NormalizedInput)
  : NormalizedInput :=
  {| input_name := functionNodeName +:+ NAMESPACE_DELIM +:+ input_name i;
     outputTensorKey := outputTensorKey i;
     isControlDependency := isControlDependency i |}.

(** The callback of [_.each(func.node_def, ...)]: a body node is renamed
    in place and processed, and the inputs of its node object are
    prefixed afterwards. A [raw_input] is a list already: an input that is
    a single string, which the callback replaces by the list of that
    string, is outside the type [NodeDef]. *)
Definition processBodyNode (functionNodeName : string)
    (outputArgNames : gmap string nat) (rawNode : NodeDef) (st : Builder)
  : Builder * NodeDef :=
  let renamed :=
    {| raw_name := functionNodeName +:+ "/" +:+ raw_name rawNode;
       raw_op := raw_op rawNode; raw_device := raw_device rawNode;
       raw_input := raw_input rawNode; raw_attr := raw_attr rawNode |} in
  let '(st1, rawNode', l) := processRawNode renamed st in
  let st2 :=
    match outputArgNames !! raw_name renamed with
    | Some index => update (set_functionOutputIndex (Some index)) l st1
    | None => st1
    end in
  (update (λ n, set_inputs (prefixInput functionNodeName <$> inputs n) n) l st2,
   rawNode').

Fixpoint processBodyNodes (functionNodeName : string)
    (outputArgNames : gmap string nat) (rawNodes : list NodeDef) (st : Builder)
  : Builder * list NodeDef :=
  match rawNodes with
  | [] => (st, [])
  | rawNode :: rest =>
      let '(st1, rawNode') :=
        processBodyNode functionNodeName outputArgNames rawNode st in
      let '(st2, rest') :=
        processBodyNodes functionNodeName outputArgNames rest st1 in
      (st2, rawNode' :: rest')
  end.

(** [processFunction(func)]: the state and the function as it is left. *)
Definition processFunction (func : FunctionDef) (st : Builder)
  : Builder * FunctionDef :=
  let functionNodeName := FUNCTION_LIBRARY_NODE_PREFIX +:+ signature_name func in
  let '(st1, _, _) :=
    processRawNode
      {| raw_name := functionNodeName; raw_input := Some []; raw_device := "";
         raw_op := ""; raw_attr := Some [] |} st in
  let st2 :=
    (foldl (processInput functionNodeName) (st1, 0) (argsOf (input_arg func))).1 in
  let outputArgNames :=
    (foldl (processOutput functionNodeName) (∅, 0) (argsOf (output_arg func))).1 in
  let '(st3, body) :=
    processBodyNodes functionNodeName outputArgNames (node_def func) st2 in
  (st3, {| signature_name := signature_name func; input_arg := input_arg func;
           output_arg := output_arg func; node_def := body |}).

Fixpoint processFunctions (funcs : list FunctionDef) (st : Builder)
  : Builder * list FunctionDef :=
  match funcs with
  | [] => (st, [])
  | func :: rest =>
      let '(st1, func') := processFunction func st in
      let '(st2, rest') := processFunctions rest st1 in
      (st2, func' :: rest')
  end.

(** The first task of [build], "Normalizing names": the state it leaves
    and the graph description as it is left. *)
Definition normalizeNames (graphDef : GraphDef) : Builder * GraphDef :=
  let '(st1, rawNodes) := processRawNodes (node graphDef) emptyBuilder in
  match library graphDef with
  | Some funcs =>
      let '(st2, funcs') := processFunctions funcs st1 in
      (st2, {| node := rawNodes; library := Some funcs' |})
  | None => (st1, {| node := rawNodes; library := None |})
  end.
End Build.

(** [normalizedNameDict[x] || x], for an [x] that is an own property of
    the dictionary or no member of [Object.prototype]. *)
Definition normalizedName (dict : gmap string string) (x : string) : string :=
  match dict !! x with
  | Some y => if Str.nonEmpty y then y else x
  | None => x
  end.

(** [addEdgeToGraph(graph, inputName, outputNode, input, params, index)]. *)
Definition addEdgeToGraph (graph : SlimGraph) (inputName : string)
    (outputNode : OpNode) (input : NormalizedInput) (params : BuildParams)
    (index : nat) : SlimGraph :=
  if decide (inputName = name outputNode) then graph
  else
    let isRefEdge :=
      bool_decide (refEdges params !! (op outputNode +:+ " " +:+ pretty index)
                   = Some true) in
    {| nodes := nodes graph;
       edges := edges graph ++
         [ {| v := inputName; w := name outputNode;
              edge_outputTensorKey := outputTensorKey input;
              edge_isControlDependency := isControlDependency input;
              isReferenceEdge := isRefEdge |} ] |}.

Section Materialize.
Variable params : BuildParams.
Variable st : Builder.
Variable normalizedNameDict : gmap string string.

(** [node.name = normalizedNameDict[node.name] || node.name]. *)
Definition renameNode (n : OpNode) : OpNode :=
  set_name (normalizedName normalizedNameDict (name n)) n.

(** The first loop over [opNodes], "Add the nodes to the graph", for the
    node object at [l]. The test [opNode.name in outEmbeddings] is the test
    on the own properties, as it is for a name that is no member of
    [Object.prototype]. *)
Definition addNode (acc : SlimGraph * list OpNode) (l : loc)
  : SlimGraph * list OpNode :=
  let '(graph, h) := acc in
  match h !! l with
  | None => acc
  | Some opNode =>
      let normalized := normalizedName normalizedNameDict (name opNode) in
      let graph' := {| nodes := <[normalized := l]> (nodes graph);
                       edges := edges graph |} in
      let h1 :=
        match outEmbeddingsOf st !! name opNode with
        | Some embeddings =>
            foldl (λ h l', alter renameNode l' h)
                  (alter (set_outEmbeddings embeddings) l h) embeddings
        | None => h
        end in
      (graph', alter (set_name normalized) l h1)
  end.

(** The edges one input of the node object at [l] gives rise to; [i] is
    the index of [input] among the inputs of the node. The tests
    [inputName in inEmbedding] and [inputName in outEmbedding] are the
    tests on the own properties, as they are for an [inputName] that is no
    member of [Object.prototype]. (Under the name of a member that is no
    own property the first test holds by inheritance, and reading
    [inEmbedNode.inputs] throws a [TypeError].) *)
Definition addInput (l : loc) (acc : SlimGraph * list OpNode)
    (indexed : nat * NormalizedInput) : SlimGraph * list OpNode :=
  let '(graph, h) := acc in
  let '(i, input) := indexed in
  let inputName := input_name input in
  match inEmbedding st !! inputName with
  | Some le =>
      let h1 := alter (λ n, set_inEmbeddings (inEmbeddings n ++ [le]) n) l h in
      match h1 !! l, h1 !! le with
      | Some opNode, Some inEmbedNode =>
          (foldl (λ g embedInput,
                    addEdgeToGraph g
                      (normalizedName normalizedNameDict (input_name embedInput))
                      opNode embedInput params i)
                 graph (inputs inEmbedNode), h1)
      | _, _ => (graph, h1)
      end
  | None =>
      match h !! l with
      | None => acc
      | Some opNode =>
          match outEmbedding st !! inputName with
          | Some lo =>
              match h !! lo with
              | Some outEmbedNode =>
                  (foldl (λ g embedInput,
                            addEdgeToGraph g
                              (normalizedName normalizedNameDict
                                 (input_name embedInput))
                              opNode input params i)
                         graph (inputs outEmbedNode), h)
              | None => acc
              end
          | None =>
              (addEdgeToGraph graph
                 (normalizedName normalizedNameDict inputName)
                 opNode input params i, h)
          end
      end
  end.

(** The second loop over [opNodes], for the node object at [l]. *)
Definition addInputs (acc : SlimGraph * list OpNode) (l : loc)
  : SlimGraph * list OpNode :=
  match acc.2 !! l with
  | None => acc
  | Some opNode => foldl (addInput l) acc (imap (λ i input, (i, input)) (inputs opNode))
  end.

(** [_.each(inEmbedding, ...)], "Normalize the names of in-embeddings". *)
Definition renameInEmbeddings (h : list OpNode) : list OpNode :=
  map_fold (λ _ l h, alter renameNode l h) h (inEmbedding st).
End Materialize.

(** The second task of [build], "Building the data structure": the graph
    and the store of the node objects. *)
Definition buildSlimGraph (params : BuildParams) (st : Builder)
  : SlimGraph * list OpNode :=
  let normalizedNameDict :=
    mapStrictHierarchy (nodeNames st) (embeddingNodeNames st) in
  let acc1 :=
    foldl (addNode st normalizedNameDict)
          ({| nodes := ∅; edges := [] |}, store st) (opNodes st) in
  let acc2 := foldl (addInputs params st normalizedNameDict) acc1 (opNodes st) in
  (acc2.1, renameInEmbeddings st normalizedNameDict acc2.2).

(** [build(graphDef, params, tracker)]: the two tasks run one after the
    other; the result is the graph the promise resolves to, with the store
    of its node objects, and the graph description as [build] leaves it. *)
Definition build `{!RegExp} (graphDef : GraphDef) (params : BuildParams)
  : SlimGraph * list OpNode * GraphDef :=
  let '(st, graphDef') := normalizeNames params graphDef in
  (buildSlimGraph params st, graphDef').

(** [DefaultBuildParams]. *)
Definition DefaultBuildParams : BuildParams :=
  {| enableEmbedding := true;
     inEmbeddingTypes := ["Const"];
     outEmbeddingTypes := ["^[a-zA-Z]+Summary$"];
     refEdges :=
       list_to_map
         ((λ k : string, (k, true)) <$>
            ["Assign 0"; "AssignAdd 0"; "AssignSub 0"; "assign 0";
             "assign_add 0"; "assign_sub 0"; "count_up_to 0"; "ScatterAdd 0";
             "ScatterSub 0"; "ScatterUpdate 0"; "scatter_add 0";
             "scatter_sub 0"; "scatter_update 0"]) |}.

(** An engine for the two patterns of [DefaultBuildParams], to run the
    builder on examples: [Const] finds a match in the strings that contain
    it, [^[a-zA-Z]+Summary$] in the strings made of one letter or more
    followed by [Summary]. It is used with no other pattern. *)
Definition isSummaryOp (s : string) : bool :=
  let n := String.length s in
  (7 <? n)
  && Str.all Str.isLetter (String.substring 0 (n - 7) s)
  && bool_decide (String.substring (n - 7) 7 s = "Summary").

Definition defaultRegExp : RegExp := λ pattern s,
  if decide (pattern = "Const") then bool_decide (is_Some (String.index 0 "Const" s))
  else if decide (pattern = "^[a-zA-Z]+Summary$") then isSummaryOp s
  else false.

(** ** Run-time statistics ([StepStats] of [proto.ts]) *)

Record AllocatorMemoryUsed := { total_bytes : option Z }.

(** An output of a node: the sizes [Number(dim.size)] of
    [tensor_description.shape.dim], [None] where the size is not a
    number. *)
Record NodeOutput := { shape_dim_sizes : list (option Z) }.

Record NodeExecStats := {
  node_name : string;
  all_start_micros : option Z;
  all_end_rel_micros : option Z;
  memory : option (list AllocatorMemoryUsed);
  output : option (list NodeOutput);
}.

Record DevStat := {
  stat_device : string;
  node_stats : list NodeExecStats;
}.

Record StepStats := { dev_stats : list DevStat }.

(** The local [totalBytes] after [_.each(nodeStats.memory, ...)]; a
    negative allocation is logged on the console and not added. The sum is
    that of the code as long as it is a safe integer. *)
Definition addAlloc (totalBytes : Z) (alloc : AllocatorMemoryUsed) : Z :=
  match total_bytes alloc with
  | Some bytes =>
      if Z.eqb bytes 0 then totalBytes
      else if Z.ltb 0 bytes then (totalBytes + bytes)%Z
      else totalBytes
  | None => totalBytes
  end.

Definition totalBytesOf (nodeStats : NodeExecStats) : Z :=
  match memory nodeStats with
  | Some allocs => foldl addAlloc 0%Z allocs
  | None => 0%Z
  end.

(** The local [outputSize]. *)
Definition outputSizeOf (nodeStats : NodeExecStats)
  : option (list (list (option Z))) :=
  match output nodeStats with
  | Some outputs => Some (shape_dim_sizes <$> outputs)
  | None => None
  end.

(** A method call on the [stats] of a node. *)
Definition callStats (c : NodeStatsCall) (n : OpNode) : OpNode :=
  match stats n with
  | Some s => set_stats (Some {| outputSize := outputSize s; calls := calls s ++ [c] |}) n
  | None => n
  end.

(** [if (node.stats == null) node.stats = new NodeStats(outputSize)]. *)
Definition ensureStats (size : option (list (list (option Z)))) (n : OpNode) : OpNode :=
  match stats n with
  | Some _ => n
  | None => set_stats (Some {| outputSize := size; calls := [] |}) n
  end.

(** The name a trace entry is looked up by: its own if the graph has it,
    its strict name otherwise. *)
Definition lookupName (graph : SlimGraph) (nodeStats : NodeExecStats) : string :=
  if decide (is_Some (nodes graph !! node_name nodeStats))
  then node_name nodeStats
  else getStrictName (node_name nodeStats).

(** The callback of [_.each(devStats.node_stats, ...)]. *)
Definition joinNodeStats (device : string) (acc : SlimGraph * list OpNode)
    (nodeStats : NodeExecStats) : SlimGraph * list OpNode :=
  let '(graph, h) := acc in
  let nodeName := lookupName graph nodeStats in
  match nodes graph !! nodeName with
  | None => acc
  | Some l =>
      let totalBytes := totalBytesOf nodeStats in
      let outputSize := outputSizeOf nodeStats in
      let h1 := alter (set_device device) l h in
      let h2 := alter (ensureStats outputSize) l h1 in
      let h3 := alter (callStats (addBytesAllocation totalBytes)) l h2 in
      let h4 :=
        match all_end_rel_micros nodeStats with
        | Some rel =>
            if Z.eqb rel 0 then h3
            else if Z.ltb 0 rel then
              alter (callStats
                       (addExecutionTime (all_start_micros nodeStats)
                          ((λ start, (start + rel)%Z) <$> all_start_micros nodeStats)))
                    l h3
            else h3
        | None => h3
        end in
      (graph, h4)
  end.

(** Whether the entries of a device are read: [devicesForStats] is
    optional, and a device it does not map to [true] is ignored. *)
Definition deviceSelected (devicesForStats : option (gmap string bool))
    (device : string) : bool :=
  match devicesForStats with
  | Some selected => bool_decide (selected !! device = Some true)
  | None => true
  end.

(** The callback of [_.each(stats.dev_stats, ...)]. *)
Definition joinDevStats (devicesForStats : option (gmap string bool))
    (acc : SlimGraph * list OpNode) (devStats : DevStat) : SlimGraph * list OpNode :=
  if deviceSelected devicesForStats (stat_device devStats)
  then foldl (joinNodeStats (stat_device devStats)) acc (node_stats devStats)
  else acc.

(** "Reset stats for each node". *)
Definition resetStats (graph : SlimGraph) (h : list OpNode) : list OpNode :=
  map_fold (λ _ l h, alter (set_stats None) l h) h (nodes graph).

(** [joinStatsInfoWithGraph(graph, stats, devicesForStats)] on a graph
    whose node objects are in the store [h]. *)
Definition joinStatsInfoWithGraph (graph : SlimGraph) (h : list OpNode)
    (stats : StepStats) (devicesForStats : option (gmap string bool))
  : SlimGraph * list OpNode :=
  foldl (joinDevStats devicesForStats) (graph, resetStats graph h) (dev_stats stats).

(** ** Statements of the specification *)

(** No two neighbours of a list of inputs have the same source name. *)
Definition noAdjacentSameSource (l : list NormalizedInput) : Prop :=
  ∀ i a b, l !! i = Some a → l !! S i = Some b → input_name a ≠ input_name b.

(** Following the specification of the input normalizer: of a run of
    consecutive references to one source name only the first is retained.
    An entry is the first of its run when it has no predecessor or when
    its predecessor names another source. *)
Definition firstOfRuns (l : list NormalizedInput) : list NormalizedInput :=
  match l with
  | [] => []
  | a :: rest =>
      a :: (snd <$> filter (λ p, input_name p.1 ≠ input_name p.2) (zip l rest))
  end.

(** No edge of the graph is a loop. *)
Definition loopFree (graph : SlimGraph) : Prop :=
  Forall (λ e, v e ≠ w e) (edges graph).





(** The three kinds of raw nodes [processRawNode] tells apart. *)
Inductive NodeKind := MainNode | InEmbeddingNode | OutEmbeddingNode.

Definition kindOf `{!RegExp} (params : BuildParams) (n : OpNode) : NodeKind :=
  if isInEmbeddedPred params n then InEmbeddingNode
  else if isOutEmbeddedPred params n then OutEmbeddingNode
  else MainNode.

Definition rawKind `{!RegExp} (params : BuildParams) (rawNode : NodeDef) : NodeKind :=
  kindOf params (OpNodeImpl rawNode).1.

(** The dictionary of new names the second task of [build] computes, and
    the name a node named [x] in the description bears in the built
    graph. *)
Definition nameDictionary `{!RegExp} (params : BuildParams) (graphDef : GraphDef)
  : gmap string string :=
  let st := (normalizeNames params graphDef).1 in
  mapStrictHierarchy (nodeNames st) (embeddingNodeNames st).

Definition finalName `{!RegExp} (params : BuildParams) (graphDef : GraphDef)
    (x : string) : string :=
  normalizedName (nameDictionary params graphDef) x.

(** Whether the input at [index] of a node of operation [op] is a
    reference edge: [params.refEdges[op + ' ' + index] === true]. *)
Definition isRefEdge (params : BuildParams) (op : string) (index : nat) : bool :=
  bool_decide (refEdges params !! (op +:+ " " +:+ pretty index) = Some true).

(** The keys under which [build] reads and writes its dictionaries are
    the names of the raw nodes and of their inputs; the names made up for
    the library start with [__function_library__] or hold a delimiter. A
    graph description has plain names when no raw node and no input of a
    raw node or of a body node is named as a member of [Object.prototype]:
    every lookup of [build] then finds an own property or nothing, as the
    embedding has it. *)
Definition plainInputs (rawNode : NodeDef) : bool :=
  forallb (λ input, negb (inherited (input_name input)))
          (normalizeInputs (raw_input rawNode)).

Definition plainNames (graphDef : GraphDef) : bool :=
  forallb (λ rawNode, negb (inherited (raw_name rawNode)) && plainInputs rawNode)
          (node graphDef)
  && forallb (λ func, forallb plainInputs (node_def func))
             (default [] (library graphDef)).

(** ** Notions for the proofs on the builder *)

(** [processRawNode] followed by assignments [f] to fields of the node
    object it returns, as [processInput] and the callback on body nodes do. *)
Definition rawStep `{!RegExp} (params : BuildParams) (rawNode : NodeDef)
    (f : OpNode → OpNode) (st : Builder) : Builder :=
  let '(st1, _, l) := processRawNode params rawNode st in update f l st1.

(** The states the first task goes through from [st] on, when the raw
    nodes it processes have names in [fresh] and the assignments leave
    [op] and [name] as they are. *)
Inductive reach `{!RegExp} (params : BuildParams) (fresh : string → Prop)
    (st : Builder) : Builder → Prop :=
| reach_refl : reach params fresh st st
| reach_step st' rawNode f :
    reach params fresh st st' →
    fresh (raw_name rawNode) →
    (∀ n, op (f n) = op n) →
    (∀ n, name (f n) = name n) →
    reach params fresh st (rawStep params rawNode f st').

(** The node objects are filed by kind: [opNodes] holds main nodes, each
    once, [inEmbedding] in-embeddings and the lists of [outEmbeddings]
    out-embeddings. *)
Definition classified `{!RegExp} (params : BuildParams) (st : Builder) : Prop :=
  NoDup (opNodes st)
  ∧ (∀ l, l ∈ opNodes st →
       ∃ n, store st !! l = Some n ∧ kindOf params n = MainNode)
  ∧ (∀ k l, inEmbedding st !! k = Some l →
       ∃ n, store st !! l = Some n ∧ kindOf params n = InEmbeddingNode)
  ∧ (∀ k embs l, outEmbeddingsOf st !! k = Some embs → l ∈ embs →
       ∃ n, store st !! l = Some n ∧ kindOf params n = OutEmbeddingNode).

(** Two stores hold, location by location, nodes with the same [π]. *)
Definition agreeOn {T} (π : OpNode → T) (h h' : list OpNode) : Prop :=
  π <$> h = π <$> h'.

(** The fields the second task never writes: [op] and [inputs]. *)
Definition frame (n : OpNode) : string * list NormalizedInput := (op n, inputs n).

(** The fields the loop over the inputs never writes. *)
Definition named (n : OpNode) : string * string * list NormalizedInput * list loc :=
  (name n, op n, inputs n, outEmbeddings n).

(** The node a main node object becomes in the first loop over
    [opNodes]. *)
Definition added (st : Builder) (dict : gmap string string) (n : OpNode) : OpNode :=
  set_name (normalizedName dict (name n))
    match outEmbeddingsOf st !! name n with
    | Some embeddings => set_outEmbeddings embeddings n
    | None => n
    end.

(** ** Series nodes *)

(** [getSeriesNodeName(prefix, suffix, parent, startId, endId)]; the two
    identifiers are optional, and a parent that is [null] or empty gives no
    prefix. *)
Definition getSeriesNodeName (prefix suffix : string) (parent : option string)
    (startId endId : option Z) : string :=
  let numRepresentation :=
    match startId, endId with
    | Some s, Some e => "[" +:+ pretty s +:+ "-" +:+ pretty e +:+ "]"
    | _, _ => "#"
    end in
  let pattern := prefix +:+ numRepresentation +:+ suffix in
  match parent with
  | Some p => if Str.nonEmpty p then p +:+ "/" else ""
  | None => ""
  end +:+ pattern.

(** ** Metaedges ([MetaedgeImpl]) *)

(** The part of the class [Hierarchy] (of [./hierarchy], outside these
    sources) that [MetaedgeImpl] uses: [h.node(name)], the node of that
    name when there is one, and the fields [maxMetaEdgeSize] and
    [hasShapeInfo]. A size is a number; [None] is [NaN]. *)
Record Hierarchy := {
  hierarchy_node : string → option OpNode;
  maxMetaEdgeSize : option Z;
  hasShapeInfo : bool;
}.

Record Metaedge := {
  metaedge_v : string;
  metaedge_w : string;
  baseEdgeList : list BaseEdge;
  inbound : option bool;
  numRegularEdges : nat;
  numControlEdges : nat;
  numRefEdges : nat;
  totalSize : option Z;
}.

(** [createMetaedge(v, w)], that is [new MetaedgeImpl(v, w)]. *)
Definition createMetaedge (v w : string) : Metaedge :=
  {| metaedge_v := v; metaedge_w := w; baseEdgeList := []; inbound := None;
     numRegularEdges := 0; numControlEdges := 0; numRefEdges := 0;
     totalSize := Some 0%Z |}.

(** Sums, products and [Math.max] of numbers that may be [NaN]. *)
Definition numOp (f : Z → Z → Z) (a b : option Z) : option Z :=
  match a, b with
  | Some x, Some y => Some (f x y)
  | _, _ => None
  end.

(** The callback of [shape.reduce]: a dimension of size [-1] counts as 1,
    a size that is absent gives [NaN]. The product is that of the code as
    long as it is a safe integer. *)
Definition timesDim (accumulated : option Z) (currSize : option Z) : option Z :=
  numOp Z.mul accumulated
    (if decide (currSize = Some (-1)%Z) then Some 1%Z else currSize).

(** The size one entry of [outputShapes] stands for: 1 for a shape that is
    [null], the product of the dimensions otherwise. *)
Definition sizeOfShape (shape : option TensorShape) : option Z :=
  match shape with
  | None => Some 1%Z
  | Some dims => foldl timesDim (Some 1%Z) dims
  end.

(** [MetaedgeImpl.computeSizeOfEdge(edge, h)]: the size and the hierarchy
    as it is left; [None] when [h.node(edge.v)] is [undefined] and reading
    its [outputShapes] throws. [_.sum] of no value is 0. *)
Definition computeSizeOfEdge (edge : BaseEdge) (h : Hierarchy)
  : option (option Z * Hierarchy) :=
  match hierarchy_node h (v edge) with
  | None => None
  | Some opNode =>
      match outputShapes opNode with
      | None => Some (Some 1%Z, h)
      | Some shapes =>
          Some (foldl (numOp Z.add) (Some 0%Z) (sizeOfShape <$> shapes),
                {| hierarchy_node := hierarchy_node h;
                   maxMetaEdgeSize := maxMetaEdgeSize h;
                   hasShapeInfo := true |})
      end
  end.

(** [addBaseEdge(edge, h)] on the metaedge [m]: the metaedge and the
    hierarchy as they are left. *)
Definition addBaseEdge (edge : BaseEdge) (m : Metaedge) (h : Hierarchy)
  : option (Metaedge * Hierarchy) :=
  match computeSizeOfEdge edge h with
  | None => None
  | Some (size, h1) =>
      let total := numOp Z.add (totalSize m) size in
      Some ({| metaedge_v := metaedge_v m; metaedge_w := metaedge_w m;
               baseEdgeList := baseEdgeList m ++ [edge];
               inbound := inbound m;
               numRegularEdges :=
                 if edge_isControlDependency edge then numRegularEdges m
                 else S (numRegularEdges m);
               numControlEdges :=
                 if edge_isControlDependency edge then S (numControlEdges m)
                 else numControlEdges m;
               numRefEdges :=
                 if isReferenceEdge edge then S (numRefEdges m) else numRefEdges m;
               totalSize := total |},
            {| hierarchy_node := hierarchy_node h1;
               maxMetaEdgeSize := numOp Z.max (maxMetaEdgeSize h1) total;
               hasShapeInfo := hasShapeInfo h1 |})
  end.

(** Successive calls of [addBaseEdge] on one metaedge, for the edges of a
    list in order. *)
Fixpoint addBaseEdges (edges : list BaseEdge) (m : Metaedge) (h : Hierarchy)
  : option (Metaedge * Hierarchy) :=
  match edges with
  | [] => Some (m, h)
  | edge :: rest =>
      match addBaseEdge edge m h with
      | None => None
      | Some (m1, h1) => addBaseEdges rest m1 h1
      end
  end.

(** The number of entries of a list that satisfy a test. *)
Definition count {A} (p : A → bool) (l : list A) : nat := length (List.filter p l).


(** ** Degree sequences ([degreeSequence]) *)

(** The part of a [graphlib.Graph] (of the package [dagre]) that
    [degreeSequence] reads: the names [graph.nodes()] lists, in that order,
    and [graph.neighbors(name)]. *)
Record Graph := {
  graph_nodes : list string;
  neighbors : string → list string;
}.

(** The order of [Array.prototype.sort] without a comparator: numbers are
    compared by their decimal representation, as strings. *)
Definition byText (a b : nat) : Prop := String.le (pretty a) (pretty b).

Global Instance byText_dec : RelDecision byText.
Proof. intros a b. unfold byText. apply _. Defined.

(** [degreeSequence(graph)]. *)
Definition degreeSequence (graph : Graph) : list nat :=
  merge_sort byText ((λ name, length (neighbors graph name)) <$> graph_nodes graph).

(** The loop of [hasSimilarDegreeSequence] over [dg1]; an index past the
    end of [dg2] reads [undefined], which differs from every number. *)
Fixpoint sameDegrees (dg1 dg2 : list nat) : bool :=
  match dg1 with
  | [] => true
  | d1 :: rest1 =>
      match dg2 with
      | [] => false
      | d2 :: rest2 => if decide (d1 = d2) then sameDegrees rest1 rest2 else false
      end
  end.

(** [hasSimilarDegreeSequence(graph1, graph2)]. *)
Definition hasSimilarDegreeSequence (graph1 graph2 : Graph) : bool :=
  sameDegrees (degreeSequence graph1) (degreeSequence graph2).

(** ** Further notions for the proofs *)

(** The test of the inner loop of [mapStrictHierarchy] on a later name
    [b], for the name [a]. *)
Definition childTest (a b : string) : bool :=
  Str.startsWith b a
  && ((String.length a <? String.length b)
      && Str.charAtIs b (String.length a) DELIM).

(** [Number.MAX_SAFE_INTEGER], that is 2^53 - 1. The numbers of the code
    are IEEE doubles: every integer up to this one is a double, and a sum
    or a product of two of them that does not exceed it is computed
    exactly, as in [Z]. *)
Definition MAX_SAFE_INTEGER : Z := 9007199254740991%Z.

(** The fields of a node object that the merge of the statistics never
    writes: all but [device] and [stats]. *)
Definition structure (n : OpNode) :=
  (name n, op n, attr n, inputs n, outputShapes n, xlaCluster n,
   inEmbeddings n, outEmbeddings n, functionInputIndex n, functionOutputIndex n).


(** The fields of a node object that the second task of [build] never
    writes: all but [name], [inEmbeddings] and [outEmbeddings]. *)
Definition content (n : OpNode) :=
  (op n, device n, attr n, inputs n, outputShapes n, xlaCluster n,
   functionInputIndex n, functionOutputIndex n, stats n).

(** The fields of a node object that do not depend on the attribute
    [_output_shapes] of its raw node: all but [attr] and [outputShapes]. *)
Definition skeleton (n : OpNode) :=
  (name n, op n, device n, inputs n, xlaCluster n, inEmbeddings n,
   outEmbeddings n, functionInputIndex n, functionOutputIndex n, stats n).

(** A node object with these two fields cleared, and a state of the first
    task whose node objects have them cleared. *)
Definition withoutShapes (n : OpNode) : OpNode :=
  {| name := name n; op := op n; device := device n; attr := None;
     inputs := inputs n; outputShapes := None;
     xlaCluster := xlaCluster n; inEmbeddings := inEmbeddings n;
     outEmbeddings := outEmbeddings n;
     functionInputIndex := functionInputIndex n;
     functionOutputIndex := functionOutputIndex n; stats := stats n |}.


(** A body node of a library function under the name it is given. *)
Definition renamedBodyNode (func : FunctionDef) (rawNode : NodeDef) : NodeDef :=
  {| raw_name := (FUNCTION_LIBRARY_NODE_PREFIX +:+ signature_name func)
                   +:+ "/" +:+ raw_name rawNode;
     raw_op := raw_op rawNode; raw_device := raw_device rawNode;
     raw_input := raw_input rawNode; raw_attr := raw_attr rawNode |}.

(** A library function as [build] leaves it: its body nodes are renamed,
    and read by the constructor of the node objects. *)
Definition leftFunction (func : FunctionDef) : FunctionDef :=
  {| signature_name := signature_name func; input_arg := input_arg func;
     output_arg := output_arg func;
     node_def := (λ rawNode, (OpNodeImpl (renamedBodyNode func rawNode)).2)
                   <$> node_def func |}.


(** The first task has filed no embedding. *)
Definition noEmbedding (st : Builder) : Prop :=
  inEmbedding st = ∅ ∧ outEmbedding st = ∅ ∧ outEmbeddingsOf st = ∅.

(** ** The node objects of a library function *)

(** The raw nodes [processFunction] makes up for a function and for one of
    its input arguments. *)
Definition functionRawNode (func : FunctionDef) : NodeDef :=
  {| raw_name := FUNCTION_LIBRARY_NODE_PREFIX +:+ signature_name func;
     raw_input := Some []; raw_device := ""; raw_op := ""; raw_attr := Some [] |}.

Definition inputArgRawNode (func : FunctionDef) (arg : ArgDef) : NodeDef :=
  {| raw_name := (FUNCTION_LIBRARY_NODE_PREFIX +:+ signature_name func)
                   +:+ NAMESPACE_DELIM +:+ arg_name arg;
     raw_input := Some []; raw_device := ""; raw_op := "input_arg";
     raw_attr := Some [ {| key := "T";
                           value := {| list_shape := None; attr_s := None;
                                       attr_type := Some (arg_type arg) |} |} ] |}.

(** The dictionary [outputArgNames] of a function. *)
Definition outputArgNamesOf (func : FunctionDef) : gmap string nat :=
  (foldl (processOutput (FUNCTION_LIBRARY_NODE_PREFIX +:+ signature_name func))
         (∅, 0) (argsOf (output_arg func))).1.

(** The node object of a body node when [processFunction] is done with
    it: it has its output index, if its new name is that of an output
    argument, and its inputs are prefixed. *)
Definition bodyNodeObject (func : FunctionDef) (rawNode : NodeDef) : OpNode :=
  let opNode := (OpNodeImpl (renamedBodyNode func rawNode)).1 in
  let opNode :=
    match outputArgNamesOf func !! raw_name (renamedBodyNode func rawNode) with
    | Some index => set_functionOutputIndex (Some index) opNode
    | None => opNode
    end in
  set_inputs
    (prefixInput (FUNCTION_LIBRARY_NODE_PREFIX +:+ signature_name func)
       <$> inputs opNode)
    opNode.

(** The node objects of a function, in the order they are made: the
    function node, the input arguments with their indices, the body
    nodes. *)
Definition functionNodeObjects (func : FunctionDef) : list OpNode :=
  (OpNodeImpl (functionRawNode func)).1
    :: imap (λ index arg,
               set_functionInputIndex (Some index)
                 (OpNodeImpl (inputArgRawNode func arg)).1)
            (argsOf (input_arg func))
    ++ (bodyNodeObject func <$> node_def func).

(** ** Examples *)

(** A raw node without device and attributes. *)
Definition rawNode (name op : string) (input : list string) : NodeDef :=
  {| raw_name := name; raw_op := op; raw_device := ""; raw_input := Some input;
     raw_attr := None |}.

(** The node object [new OpNodeImpl] makes of such a raw node. *)
Definition opNodeOf (name op : string) (input : list string) : OpNode :=
  (OpNodeImpl (rawNode name op input)).1.

(** A graph of one node ["A"], and a trace entry for a node ["B"] whose
    only allocation reports [-5] bytes. *)
Definition oneNodeGraph : SlimGraph := {| nodes := {["A" := 0]}; edges := [] |}.
Definition oneNodeStore : list OpNode := [opNodeOf "A" "Add" []].
Definition negativeEntry (name : string) : NodeExecStats :=
  {| node_name := name; all_start_micros := Some 10%Z;
     all_end_rel_micros := Some 5%Z;
     memory := Some [ {| total_bytes := Some (-5)%Z |} ]; output := None |}.

(** A graph of two nodes; ["B"] carries the statistics of an earlier
    merge. The trace has one entry, for ["A"]. *)
Definition twoNodeGraph : SlimGraph :=
  {| nodes := {["A" := 0; "B" := 1]}; edges := [] |}.
Definition earlierStats : NodeStats :=
  {| outputSize := None; calls := [addBytesAllocation 64%Z] |}.
Definition twoNodeStore : list OpNode :=
  [opNodeOf "A" "Add" []; set_stats (Some earlierStats) (opNodeOf "B" "Add" ["A"])].
Definition traceOfA : StepStats :=
  {| dev_stats :=
       [ {| stat_device := "cpu";
            node_stats :=
              [ {| node_name := "A"; all_start_micros := Some 10%Z;
                   all_end_rel_micros := Some 5%Z;
                   memory := Some [ {| total_bytes := Some 32%Z |} ];
                   output := None |} ] |} ] |}.

(** A main node ["M"], a summary ["S"] that reads it as a control
    dependency, and a main node ["N"] that reads slot 1 of the summary. *)
Definition summaryGraph : GraphDef :=
  {| node := [ rawNode "M" "Add" []; rawNode "S" "ScalarSummary" ["^M"];
               rawNode "N" "Add" ["S:1"] ];
     library := None |}.

(** A main node ["M"], a summary ["S"] that reads its data, and an
    [Assign] node ["N"] whose input 0, a reference input by
    [DefaultBuildParams], is a control dependency on the summary. *)
Definition assignGraph : GraphDef :=
  {| node := [ rawNode "M" "Add" []; rawNode "S" "ScalarSummary" ["M"];
               rawNode "N" "Assign" ["^S"] ];
     library := None |}.

(** A main node ["X"], a constant ["C"] that has a control dependency on
    it, and a main node ["N"] that reads the constant. *)
Definition constGraph : GraphDef :=
  {| node := [ rawNode "X" "Add" []; rawNode "C" "Const" ["^X"];
               rawNode "N" "Add" ["C:0"] ];
     library := None |}.


(** A node ["M"] with two outputs, of shape [[4, -1]] and of unknown rank,
    and a node ["X"] without shapes. *)
Definition shapedNode : OpNode :=
  {| name := "M"; op := "Add"; device := ""; attr := None; inputs := [];
     outputShapes := Some [Some [Some 4%Z; Some (-1)%Z]; None];
     xlaCluster := None; inEmbeddings := []; outEmbeddings := [];
     functionInputIndex := None; functionOutputIndex := None; stats := None |}.

Definition exampleHierarchy : Hierarchy :=
  {| hierarchy_node := λ x,
       if decide (x = "M") then Some shapedNode
       else if decide (x = "X") then Some (opNodeOf "X" "Add" [])
       else None;
     maxMetaEdgeSize := Some 1%Z;
     hasShapeInfo := false |}.

Definition controlEdge : BaseEdge :=
  {| v := "X"; w := "N"; edge_outputTensorKey := "0";
     edge_isControlDependency := true; isReferenceEdge := false |}.
Definition referenceEdge : BaseEdge :=
  {| v := "M"; w := "N"; edge_outputTensorKey := "1";
     edge_isControlDependency := false; isReferenceEdge := true |}.
Definition exampleEdges : list BaseEdge := [controlEdge; referenceEdge].

(** A path of three nodes, and a star of three nodes that lists its centre
    first. *)
Definition pathGraph : Graph :=
  {| graph_nodes := ["a"; "b"; "c"];
     neighbors := λ name, if decide (name = "b") then ["a"; "c"] else ["b"] |}.
Definition starGraph : Graph :=
  {| graph_nodes := ["m"; "x"; "y"];
     neighbors := λ name, if decide (name = "m") then ["x"; "y"] else ["m"] |}.

(** A main node ["M"], and an [Assign] node ["N"] that reads slot 1 of it
    and has a control dependency on a node the description does not
    hold. *)
Definition chainGraph : GraphDef :=
  {| node := [ rawNode "M" "Add" []; rawNode "N" "Assign" ["M:1"; "^ghost"] ];
     library := None |}.


(** Parameters without embedding types. *)
Definition plainParams : BuildParams :=
  {| enableEmbedding := false; inEmbeddingTypes := []; outEmbeddingTypes := [];
     refEdges := refEdges DefaultBuildParams |}.

(** * Properties *)

(** ** Strict names *)

(** The strict name of ["a/b"], and the strict name of that. *)
Lemma getStrictName_a_b : getStrictName "a/b" = "a/b/(b)".
Proof. reflexivity. Qed.

Lemma getStrictName_twice_a_b :
  getStrictName (getStrictName "a/b") = "a/b/(b)/((b))".
Proof. reflexivity. Qed.

(** C3, as stated: the second application of [getStrictName] to ["a/b"]
    does not yield the string ["a/b/(b)/(( b))"], which has a space. *)
Lemma C3_counterexample :
  getStrictName (getStrictName "a/b") ≠ "a/b/(b)/(( b))".
Proof. rewrite getStrictName_twice_a_b. discriminate. Qed.

(** C3, amended: [getStrictName "a/b"] is ["a/b/(b)"], and [getStrictName]
    is not idempotent: a second application yields ["a/b/(b)/((b))"],
    which differs from ["a/b/(b)"]. *)
Theorem C3_getStrictName_not_idempotent :
  getStrictName "a/b" = "a/b/(b)"
  ∧ getStrictName (getStrictName "a/b") = "a/b/(b)/((b))"
  ∧ getStrictName (getStrictName "a/b") ≠ getStrictName "a/b".
Proof.
  split; [reflexivity|]. split; [reflexivity|].
  rewrite getStrictName_twice_a_b, getStrictName_a_b. discriminate.
Qed.

(** ** Input normalization *)

(** C4: the raw inputs [["^Y"; "Z:2"; "Z:2"]] normalize to the control
    dependency on [Y] at slot ["0"] followed by the data input from [Z] at
    slot ["2"]; the second ["Z:2"] gives no entry. *)
Theorem C4_normalizeInputs_example :
  normalizeInputs (Some ["^Y"; "Z:2"; "Z:2"])
  = [ {| input_name := "Y"; outputTensorKey := "0"; isControlDependency := true |};
      {| input_name := "Z"; outputTensorKey := "2"; isControlDependency := false |} ].
Proof. reflexivity. Qed.

(** A slot may be a word and a number; what does not match the pattern is
    a name. *)
Example normalizeInputs_function_slot :
  normalizeInputs (Some ["f:out:3"; "f:out"; "^g"; "g:1"])
  = [ {| input_name := "f"; outputTensorKey := "out:3"; isControlDependency := false |};
      {| input_name := "f:out"; outputTensorKey := "0"; isControlDependency := false |};
      {| input_name := "g"; outputTensorKey := "0"; isControlDependency := true |} ].
Proof. reflexivity. Qed.

Example normalizeInputs_undefined : normalizeInputs None = [].
Proof. reflexivity. Qed.

Lemma normalizeInputs_from_head last inputs a r :
  normalizeInputs_from last inputs = a :: r → last ≠ Some (input_name a).
Proof.
  revert last. induction inputs as [|x inputs IH]; intros last; simpl; [done|].
  case_decide as Hlast.
  - apply IH.
  - intros [= <- _]. exact Hlast.
Qed.

Lemma normalizeInputs_from_noAdjacent last inputs :
  noAdjacentSameSource (normalizeInputs_from last inputs).
Proof.
  revert last. induction inputs as [|x inputs IH]; intros last; simpl.
  - intros i a b Ha; by rewrite lookup_nil in Ha.
  - case_decide as Hlast; [apply IH|].
    intros [|i] a b Ha Hb.
    + simpl in Ha, Hb. injection Ha as <-.
      destruct (normalizeInputs_from _ inputs) as [|c r] eqn:Hr; [done|].
      simpl in Hb. injection Hb as <-.
      apply normalizeInputs_from_head in Hr. congruence.
    + simpl in Ha, Hb. by eapply IH.
Qed.

Lemma normalizeInputs_from_runs a inputs :
  normalizeInputs_from (Some (input_name a)) inputs
  = (snd <$> filter (λ p, input_name p.1 ≠ input_name p.2)
               (zip (a :: (parseInput <$> inputs)) (parseInput <$> inputs))).
Proof.
  revert a. induction inputs as [|x inputs IH]; intros a; simpl; [done|].
  rewrite filter_cons. simpl.
  case_decide as Hlast; case_decide as Hne; try congruence.
  - injection Hlast as Hlast. rewrite Hlast. apply IH.
  - simpl. f_equal. apply IH.
Qed.

(** C5: the normalized inputs of any raw input list have no two adjacent
    entries with the same source name; they are the parsed inputs with
    every run of consecutive references to one source collapsed to its
    first entry, whose slot and control flag are kept. *)
Theorem C5_normalizeInputs_no_adjacent_duplicate (inputs : option (list string)) :
  noAdjacentSameSource (normalizeInputs inputs)
  ∧ normalizeInputs inputs = firstOfRuns (parseInput <$> default [] inputs).
Proof.
  split; [apply normalizeInputs_from_noAdjacent|].
  unfold normalizeInputs. destruct (default [] inputs) as [|x l]; simpl; [done|].
  f_equal. apply normalizeInputs_from_runs.
Qed.

(** ** Name disambiguation *)

(** An assignment makes an own property under every key but
    [__proto__]; under that key the object has the inherited member. *)
Lemma lookup_assignPrimitive {A} (k k' : string) (x : A) (m : gmap string A) :
  assignPrimitive k x m !! k'
  = if decide (k = k' ∧ k ≠ "__proto__") then Some x else m !! k'.
Proof.
  unfold assignPrimitive. destruct (decide (k = "__proto__")) as [Hk|Hk].
  - rewrite decide_False; [done|]. by intros [_ ?].
  - destruct (decide (k = k')) as [->|Hne].
    + rewrite lookup_insert_eq. by rewrite decide_True.
    + rewrite lookup_insert_ne by done. rewrite decide_False; [done|]. by intros [? _].
Qed.

Lemma hasProperty_assignPrimitive {A} (k k' : string) (x : A) (m : gmap string A) :
  hasProperty (assignPrimitive k x m) k' = true
  ↔ k = k' ∨ hasProperty m k' = true.
Proof.
  unfold hasProperty. rewrite !orb_true_iff, !bool_decide_eq_true.
  rewrite lookup_assignPrimitive. destruct (decide (k = k')) as [<-|Hne].
  - destruct (decide (k = "__proto__")) as [->|Hk].
    + split; [intros _; by left|]. intros _. by right.
    + rewrite decide_True by done. split; [intros _; by left|]. intros _. left. eauto.
  - rewrite decide_False by (by intros [? _]). split; [by right|]. by intros [?|?].
Qed.

Lemma strictLoop_cons a b later dict set :
  strictLoop (a :: b :: later) (dict, set)
  = strictLoop (b :: later)
      (if hasChildAfter a (b :: later)
       then assignPrimitive a (getStrictName a) dict else dict,
       foldl (λ set ns, assignPrimitive ns true set) set
             (removelast (getHierarchicalPath a None))).
Proof. reflexivity. Qed.

(** The embedding pass renames exactly the embedding names that are in the
    namespace set, own or inherited, but for [__proto__]. *)
Lemma renameEmbeddings_lookup namespaceSet dict embeddingNodeNames k :
  renameEmbeddings namespaceSet dict embeddingNodeNames !! k
  = if decide (k ∈ embeddingNodeNames ∧ hasProperty namespaceSet k = true
               ∧ k ≠ "__proto__")
    then Some (getStrictName k) else dict !! k.
Proof.
  unfold renameEmbeddings. revert dict.
  induction embeddingNodeNames as [|e l IH]; intros dict.
  - rewrite decide_False; [done|]. intros [H _]. by apply elem_of_nil in H.
  - cbn [foldl]. rewrite IH.
    destruct (decide (k ∈ l ∧ hasProperty namespaceSet k = true ∧ k ≠ "__proto__"))
      as [(Hk & Hns & Hproto)|Hn].
    + rewrite decide_True; [done|]. split; [by right|done].
    + destruct (decide (e = k)) as [->|Hne].
      * destruct (hasProperty namespaceSet k) eqn:Hns.
        -- rewrite lookup_assignPrimitive.
           destruct (decide (k = "__proto__")) as [Hproto|Hproto].
           ++ rewrite !decide_False; [done|by intros (_ & _ & ?)|by intros [_ ?]].
           ++ rewrite !decide_True; [done|by split; [left|]|done].
        -- rewrite decide_False; [done|]. by intros (_ & ? & _).
      * assert (¬ (k ∈ e :: l ∧ hasProperty namespaceSet k = true ∧ k ≠ "__proto__"))
          as Hn'.
        { intros ([->|Hin]%elem_of_cons & Hns & Hproto); tauto. }
        rewrite (decide_False _ _ Hn').
        destruct (hasProperty namespaceSet e); [|done].
        rewrite lookup_assignPrimitive. rewrite decide_False; [done|]. by intros [? _].
Qed.

Example getHierarchicalPath_a_b_c :
  getHierarchicalPath "a/b/c" None = ["a"; "a/b"; "a/b/c"].
Proof. reflexivity. Qed.

(** The embedding ["C"] is the namespace of a main name that is not the
    last in sorted order, the embedding ["Z"] of the last one. *)
Example mapStrictHierarchy_example :
  map_to_list (mapStrictHierarchy ["Z/Y"; "A/B"; "C/D"; "A"] ["C"; "Z"])
  = [("C", "C/(C)"); ("A", "A/(A)")].
Proof. vm_compute. reflexivity. Qed.

(** C2 at the main names [["A/B"]] and the embedding name ["A"]: the
    dictionary is empty, although ["A"] is the namespace of ["A/B"]. The
    loop that collects the namespaces stops before the last sorted name. *)
Theorem C2_last_namespace_missed :
  mapStrictHierarchy ["A/B"] ["A"] = ∅
  ∧ Str.startsWith "A/B" "A" = true
  ∧ Str.charAtIs "A/B" (String.length "A") DELIM = true.
Proof. split; [|split]; reflexivity. Qed.

(** *** What the namespace set holds *)

Lemma app_nil_r_string (a : string) : a +:+ "" = a.
Proof.
  induction a as [|x a IH]; [done|].
  change (String x (a +:+ "") = String x a). by rewrite IH.
Qed.

Lemma app_assoc_char (a : string) (x : ascii) (b : string) :
  (a +:+ String x "") +:+ b = a +:+ String x b.
Proof.
  induction a as [|y a IH]; [done|].
  change (String y ((a +:+ String x "") +:+ b) = String y (a +:+ String x b)).
  by rewrite IH.
Qed.

(** A name followed by a delimiter has that name among its parent paths. *)
Lemma parentPaths_elem (pre E rest : string) :
  pre +:+ E ∈ parentPaths pre (E +:+ String DELIM rest).
Proof.
  revert pre. induction E as [|a E IH]; intros pre.
  - rewrite app_nil_r_string. change (pre ∈ pre :: parentPaths (pre +:+ "/") rest).
    by left.
  - change (pre +:+ String a E
            ∈ (if Ascii.eqb a DELIM then [pre] else [])
                ++ parentPaths (pre +:+ String a "") (E +:+ String DELIM rest)).
    apply elem_of_app. right. rewrite <- app_assoc_char. apply IH.
Qed.

Lemma removelast_getHierarchicalPath (a : string) :
  removelast (getHierarchicalPath a None) = parentPaths "" a.
Proof. unfold getHierarchicalPath. simpl. apply removelast_last. Qed.

Lemma namespaces_hasProperty (set : gmap string bool) (l : list string) (p : string) :
  hasProperty (foldl (λ set ns, assignPrimitive ns true set) set l) p = true
  ↔ p ∈ l ∨ hasProperty set p = true.
Proof.
  revert set. induction l as [|x l IH]; intros set; simpl.
  - split; [by right|]. intros [Hp|Hp]; [by apply elem_of_nil in Hp|done].
  - rewrite IH, elem_of_cons, hasProperty_assignPrimitive. intuition congruence.
Qed.

(** The own properties of the namespace set are among the keys that were
    assigned. *)
Lemma namespaces_is_Some (set : gmap string bool) (l : list string) (p : string) :
  is_Some (foldl (λ set ns, assignPrimitive ns true set) set l !! p) →
  p ∈ l ∨ is_Some (set !! p).
Proof.
  revert set. induction l as [|x l IH]; intros set; simpl; [by right|].
  intros [Hp|Hp]%IH; [left; by right|].
  rewrite lookup_assignPrimitive in Hp. case_decide as Hx; [|by right].
  destruct Hx as [-> _]. left. by left.
Qed.

Lemma strictLoop_namespaces_mono names dict set p :
  hasProperty set p = true → hasProperty (strictLoop names (dict, set)).2 p = true.
Proof.
  revert dict set. induction names as [|a [|b later] IH]; intros dict set Hp; [done..|].
  rewrite strictLoop_cons. apply IH. apply namespaces_hasProperty. by right.
Qed.

(** The namespace set holds the parent paths of every sorted name but the
    last. *)
Lemma strictLoop_namespaces names dict set a p :
  a ∈ removelast names → p ∈ parentPaths "" a →
  hasProperty (strictLoop names (dict, set)).2 p = true.
Proof.
  revert dict set. induction names as [|a0 [|b later] IH]; intros dict set Ha Hp.
  - by apply elem_of_nil in Ha.
  - by apply elem_of_nil in Ha.
  - rewrite strictLoop_cons.
    change (removelast (a0 :: b :: later)) with (a0 :: removelast (b :: later)) in Ha.
    apply elem_of_cons in Ha as [->|Ha]; [|by apply IH].
    apply strictLoop_namespaces_mono, namespaces_hasProperty. left.
    by rewrite removelast_getHierarchicalPath.
Qed.

(** An embedding whose name is a strict path prefix of a main name other
    than the last in sorted order is renamed to its strict name, unless it
    is named [__proto__]. *)
Lemma mapStrictHierarchy_embedding nodeNames embeddingNodeNames E rest :
  E ∈ embeddingNodeNames → E ≠ "__proto__" →
  E +:+ String DELIM rest ∈ removelast (merge_sort String.le nodeNames) →
  mapStrictHierarchy nodeNames embeddingNodeNames !! E = Some (getStrictName E).
Proof.
  intros HE Hproto Hmain. unfold mapStrictHierarchy.
  pose proof (strictLoop_namespaces (merge_sort String.le nodeNames) ∅ ∅
                (E +:+ String DELIM rest) E Hmain (parentPaths_elem "" E rest)) as Hset.
  destruct (strictLoop _ (∅, ∅)) as [dict set]. simpl in Hset.
  rewrite renameEmbeddings_lookup. by rewrite decide_True.
Qed.

(** Every entry of the dictionary maps a name to its strict name. *)
Lemma strictLoop_values names dict set k y :
  (∀ k y, dict !! k = Some y → y = getStrictName k) →
  (strictLoop names (dict, set)).1 !! k = Some y → y = getStrictName k.
Proof.
  revert dict set. induction names as [|a [|b later] IH]; intros dict set Hdict;
    [by apply Hdict..|].
  rewrite strictLoop_cons. apply IH. intros k' y'.
  destruct (hasChildAfter a (b :: later)); [|by apply Hdict].
  rewrite lookup_assignPrimitive. case_decide as Ha; [|by apply Hdict].
  destruct Ha as [-> _]. by intros [= <-].
Qed.

Lemma mapStrictHierarchy_values nodeNames embeddingNodeNames k y :
  mapStrictHierarchy nodeNames embeddingNodeNames !! k = Some y →
  y = getStrictName k.
Proof.
  unfold mapStrictHierarchy.
  pose proof (strictLoop_values (merge_sort String.le nodeNames) ∅ ∅ k y) as Hloop.
  destruct (strictLoop _ (∅, ∅)) as [dict set]. simpl in Hloop.
  rewrite renameEmbeddings_lookup. case_decide; [by intros [= <-]|].
  apply Hloop. intros k' y'. by rewrite lookup_empty.
Qed.

Section TwoNames.
Local Abbreviation A := "A".
Local Abbreviation AB := "A/B".

Lemma hasChildAfter_AB_run m : hasChildAfter AB (replicate m AB) = false.
Proof. induction m as [|m IH]; [done|]. simpl. exact IH. Qed.

Lemma hasChildAfter_A_run n m :
  hasChildAfter A (replicate n A ++ replicate (S m) AB) = true.
Proof. induction n as [|n IH]; [done|]. simpl. exact IH. Qed.

Lemma strictLoop_AB_run m dict set :
  (strictLoop (replicate m AB) (dict, set)).1 = dict
  ∧ ∀ k, is_Some ((strictLoop (replicate m AB) (dict, set)).2 !! k)
         → is_Some (set !! k) ∨ k = A.
Proof.
  revert set. induction m as [|[|m] IH]; intros set; [by auto..|].
  change (replicate (S (S m)) AB) with (AB :: AB :: replicate m AB).
  rewrite strictLoop_cons.
  change (AB :: replicate m AB) with (replicate (S m) AB).
  rewrite hasChildAfter_AB_run. cbv iota.
  destruct (IH (foldl (λ set ns, assignPrimitive ns true set) set
                  (removelast (getHierarchicalPath AB None)))) as [-> Hset].
  split; [done|]. intros k Hk. apply Hset in Hk as [Hk| ->]; [|by right].
  apply namespaces_is_Some in Hk as [Hk|Hk]; [|by left].
  right. by apply list_elem_of_singleton in Hk.
Qed.

Lemma strictLoop_A_run n m dict set :
  (strictLoop (replicate (S n) A ++ replicate (S m) AB) (dict, set)).1
  = <[A := getStrictName A]> dict
  ∧ ∀ k, is_Some ((strictLoop (replicate (S n) A ++ replicate (S m) AB)
                     (dict, set)).2 !! k)
         → is_Some (set !! k) ∨ k = A.
Proof.
  revert dict. induction n as [|n IH]; intros dict.
  - change (replicate 1 A ++ replicate (S m) AB)
      with (A :: AB :: replicate m AB).
    rewrite strictLoop_cons.
    change (AB :: replicate m AB) with (replicate (S m) AB).
    apply (strictLoop_AB_run (S m)).
  - change (replicate (S (S n)) A ++ replicate (S m) AB)
      with (A :: A :: (replicate n A ++ replicate (S m) AB)).
    rewrite strictLoop_cons.
    change (A :: (replicate n A ++ replicate (S m) AB))
      with (replicate (S n) A ++ replicate (S m) AB).
    rewrite hasChildAfter_A_run. cbv iota.
    change (foldl _ set (removelast (getHierarchicalPath A None))) with set.
    change (assignPrimitive A (getStrictName A) dict)
      with (<[A := getStrictName A]> dict).
    destruct (IH (<[A := getStrictName A]> dict)) as [-> Hset].
    split; [by rewrite insert_insert_eq|]. exact Hset.
Qed.

(** A sorted list of the two names is a run of ["A"] followed by a run of
    ["A/B"]. *)
Lemma sorted_two_names l :
  StronglySorted String.le l →
  (∀ x, x ∈ l → x = A ∨ x = AB) →
  ∃ n m, l = replicate n A ++ replicate m AB.
Proof.
  induction 1 as [|x l Hsorted IH Hle]; intros Hnames.
  - by exists 0, 0.
  - destruct IH as (n & m & ->); [intros y Hy; apply Hnames; by right|].
    destruct (Hnames x) as [->| ->]; [by left| |].
    + by exists (S n), m.
    + destruct n as [|n]; [by exists 0, (S m)|].
      apply Forall_cons_1 in Hle as [Hle _]. by vm_compute in Hle.
Qed.

End TwoNames.

(** C6: when the main node names are exactly ["A"] and ["A/B"], in any
    order and any number of times, the dictionary of the name
    disambiguator maps ["A"] to ["A/(A)"] and has no entry for ["A/B"],
    whatever the embedding names are. *)
Theorem C6_A_renamed_AB_kept (nodeNames embeddingNodeNames : list string) :
  (∀ x, x ∈ nodeNames ↔ x = "A" ∨ x = "A/B") →
  mapStrictHierarchy nodeNames embeddingNodeNames !! "A" = Some "A/(A)"
  ∧ mapStrictHierarchy nodeNames embeddingNodeNames !! "A/B" = None.
Proof.
  intros Hnames. unfold mapStrictHierarchy.
  pose proof (merge_sort_Permutation String.le nodeNames) as Hperm.
  destruct (sorted_two_names (merge_sort String.le nodeNames)) as (n & m & Hsorted).
  { apply StronglySorted_merge_sort; apply _. }
  { intros x Hx. apply Hnames. by rewrite <- Hperm. }
  rewrite Hsorted in *.
  assert ("A" ∈ replicate n "A" ++ replicate m "A/B") as HA
    by (rewrite Hperm; apply Hnames; by left).
  assert ("A/B" ∈ replicate n "A" ++ replicate m "A/B") as HAB
    by (rewrite Hperm; apply Hnames; by right).
  destruct n as [|n].
  { simpl in HA. by apply elem_of_replicate in HA as [? _]. }
  destruct m as [|m].
  { rewrite app_nil_r in HAB. by apply elem_of_replicate in HAB as [? _]. }
  destruct (strictLoop (replicate (S n) "A" ++ replicate (S m) "A/B") (∅, ∅))
    as [dict set] eqn:Hloop.
  destruct (strictLoop_A_run n m ∅ ∅) as [Hdict Hset].
  rewrite Hloop in Hdict, Hset. simpl in Hdict, Hset. subst dict.
  rewrite !renameEmbeddings_lookup. split.
  - case_decide; [done|]. by rewrite lookup_insert_eq.
  - rewrite decide_False; [done|]. intros (_ & Hk & _).
    unfold hasProperty in Hk. change (inherited "A/B") with false in Hk.
    rewrite orb_false_r in Hk. apply bool_decide_eq_true in Hk.
    apply Hset in Hk as [Hk|Hk]; [|done]. rewrite lookup_empty in Hk.
    by destruct Hk.
Qed.

Lemma C6_witness :
  mapStrictHierarchy ["A/B"; "A"] ["A"; "A/B"] !! "A" = Some "A/(A)"
  ∧ mapStrictHierarchy ["A/B"; "A"] ["A"; "A/B"] !! "A/B" = None.
Proof.
  apply (C6_A_renamed_AB_kept ["A/B"; "A"] ["A"; "A/B"]).
  intros x. rewrite !elem_of_cons, elem_of_nil. tauto.
Defined.

(** ** Run-time statistics *)

(** An allocation that is not positive adds nothing to [totalBytes]. *)
Lemma addAlloc_not_positive totalBytes bytes :
  (bytes <= 0)%Z → addAlloc totalBytes {| total_bytes := Some bytes |} = totalBytes.
Proof.
  intros Hle. unfold addAlloc. simpl.
  destruct (Z.eqb_spec bytes 0); [done|].
  destruct (Z.ltb_spec 0 bytes); [lia|done].
Qed.

Lemma totalBytesOf_drop_negative name start rel out m1 m2 :
  totalBytesOf {| node_name := name; all_start_micros := start;
                  all_end_rel_micros := rel;
                  memory := Some (m1 ++ {| total_bytes := Some (-5)%Z |} :: m2);
                  output := out |}
  = totalBytesOf {| node_name := name; all_start_micros := start;
                    all_end_rel_micros := rel; memory := Some (m1 ++ m2);
                    output := out |}.
Proof.
  unfold totalBytesOf. simpl. rewrite !foldl_app. simpl.
  by rewrite addAlloc_not_positive by lia.
Qed.

(** A trace entry leaves the graph as it is and writes to one node object
    at most, the one its name is looked up to. *)
Lemma joinNodeStats_graph device graph h nodeStats :
  (joinNodeStats device (graph, h) nodeStats).1 = graph.
Proof. unfold joinNodeStats. by destruct (nodes graph !! _). Qed.

Lemma joinNodeStats_other device graph h nodeStats l :
  nodes graph !! lookupName graph nodeStats ≠ Some l →
  (joinNodeStats device (graph, h) nodeStats).2 !! l = h !! l.
Proof.
  intros Hl. unfold joinNodeStats.
  destruct (nodes graph !! lookupName graph nodeStats) as [l'|]; [|done].
  assert (l' ≠ l) as Hne by congruence. simpl.
  destruct (all_end_rel_micros nodeStats) as [rel|];
    [destruct (Z.eqb rel 0); [|destruct (Z.ltb 0 rel)]|];
    by rewrite !list_lookup_alter_ne.
Qed.

Lemma joinNodeStats_unmatched device graph h nodeStats :
  nodes graph !! node_name nodeStats = None →
  nodes graph !! getStrictName (node_name nodeStats) = None →
  joinNodeStats device (graph, h) nodeStats = (graph, h).
Proof.
  intros Hname Hstrict. unfold joinNodeStats, lookupName.
  rewrite Hname. rewrite decide_False by (by intros [? ?]). by rewrite Hstrict.
Qed.

Lemma foldl_joinNodeStats_graph device graph h entries :
  (foldl (joinNodeStats device) (graph, h) entries).1 = graph.
Proof.
  revert h. induction entries as [|e entries IH]; intros h; [done|].
  cbn [foldl]. pose proof (joinNodeStats_graph device graph h e) as Hg.
  destruct (joinNodeStats device (graph, h) e) as [g h']. simpl in Hg. subst g.
  apply IH.
Qed.

Lemma joinDevStats_graph devicesForStats graph h devStats :
  (joinDevStats devicesForStats (graph, h) devStats).1 = graph.
Proof.
  unfold joinDevStats. destruct (deviceSelected _ _); [|done].
  apply foldl_joinNodeStats_graph.
Qed.

Lemma foldl_joinDevStats_graph devicesForStats graph h devs :
  (foldl (joinDevStats devicesForStats) (graph, h) devs).1 = graph.
Proof.
  revert h. induction devs as [|d devs IH]; intros h; [done|].
  cbn [foldl]. pose proof (joinDevStats_graph devicesForStats graph h d) as Hg.
  destruct (joinDevStats devicesForStats (graph, h) d) as [g h']. simpl in Hg.
  subst g. apply IH.
Qed.

(** The merge never writes to the node map. *)
Lemma joinStatsInfoWithGraph_graph graph h stats devicesForStats :
  (joinStatsInfoWithGraph graph h stats devicesForStats).1 = graph.
Proof. apply foldl_joinDevStats_graph. Qed.

(** C8: a memory allocation that reports [total_bytes = -5] does not
    reach the byte count of the matched node: an entry with no other
    allocation passes 0 bytes to [addBytesAllocation], and any trace entry
    has the effect of the same entry without that allocation. A trace entry whose
    name is found in the graph neither as it is nor as its strict name
    leaves the node map and every node object as they are; and the node
    map after a merge is the node map before it. *)
Theorem C8_negative_bytes_and_unknown_node
    (device : string) (graph : SlimGraph) (h : list OpNode) :
  totalBytesOf (negativeEntry "A") = 0%Z
  ∧ (∀ name start rel out m1 m2,
     joinNodeStats device (graph, h)
       {| node_name := name; all_start_micros := start; all_end_rel_micros := rel;
          memory := Some (m1 ++ {| total_bytes := Some (-5)%Z |} :: m2);
          output := out |}
     = joinNodeStats device (graph, h)
         {| node_name := name; all_start_micros := start; all_end_rel_micros := rel;
            memory := Some (m1 ++ m2); output := out |})
  ∧ (∀ nodeStats,
       nodes graph !! node_name nodeStats = None →
       nodes graph !! getStrictName (node_name nodeStats) = None →
       joinNodeStats device (graph, h) nodeStats = (graph, h))
  ∧ (∀ stats devicesForStats,
       nodes (joinStatsInfoWithGraph graph h stats devicesForStats).1 = nodes graph).
Proof.
  split; [reflexivity|]. split; [|split].
  - intros name start rel out m1 m2. unfold joinNodeStats.
    change (lookupName graph {| node_name := name; all_start_micros := start;
              all_end_rel_micros := rel;
              memory := Some (m1 ++ {| total_bytes := Some (-5)%Z |} :: m2);
              output := out |})
      with (lookupName graph {| node_name := name; all_start_micros := start;
              all_end_rel_micros := rel; memory := Some (m1 ++ m2);
              output := out |}).
    destruct (nodes graph !! _) as [l|]; [|done].
    by rewrite totalBytesOf_drop_negative.
  - intros nodeStats. apply joinNodeStats_unmatched.
  - intros stats devicesForStats. by rewrite joinStatsInfoWithGraph_graph.
Qed.

Lemma C8_witness :
  joinNodeStats "cpu" (oneNodeGraph, oneNodeStore) (negativeEntry "B")
  = (oneNodeGraph, oneNodeStore).
Proof.
  apply (proj1 (proj2 (proj2
           (C8_negative_bytes_and_unknown_node "cpu" oneNodeGraph oneNodeStore))));
    vm_compute; reflexivity.
Defined.

(** The merge of [traceOfA]: the node ["A"] receives the device and fresh
    statistics, the node ["B"] loses the statistics it had. *)
Example joinStatsInfoWithGraph_example :
  (joinStatsInfoWithGraph twoNodeGraph twoNodeStore traceOfA None).2
  = [ set_stats
        (Some {| outputSize := None;
                 calls := [addBytesAllocation 32%Z;
                           addExecutionTime (Some 10%Z) (Some 15%Z)] |})
        (set_device "cpu" (opNodeOf "A" "Add" []));
      opNodeOf "B" "Add" ["A"] ].
Proof. vm_compute. reflexivity. Qed.

Lemma set_stats_idemp x n : set_stats x (set_stats x n) = set_stats x n.
Proof. reflexivity. Qed.

(** The reset clears the statistics of the node objects the node map
    refers to, and of no other. *)
Lemma clearStats_lookup (m : gmap string loc) (h : list OpNode) (l : loc) :
  map_fold (λ _ l h, alter (set_stats None) l h) h m !! l
  = if decide (l ∈ (map_img m : gset loc))
    then set_stats None <$> h !! l else h !! l.
Proof.
  induction m as [|k l' m Hfresh Hfold IH] using map_first_key_ind.
  - rewrite map_fold_empty, map_img_empty_L. by rewrite decide_False by set_solver.
  - rewrite map_fold_insert_first_key by done.
    rewrite map_img_insert_notin_L by done.
    set (r := map_fold _ h m) in *.
    destruct (decide (l' = l)) as [->|Hne].
    + rewrite list_lookup_alter_eq. rewrite IH.
      rewrite (decide_True (P := l ∈ {[l]} ∪ _)) by set_solver.
      case_decide; [|done]. destruct (h !! l); [|done]. simpl.
      by rewrite set_stats_idemp.
    + rewrite list_lookup_alter_ne by done. rewrite IH.
      destruct (decide (l ∈ (map_img m : gset loc))).
      * by rewrite decide_True by set_solver.
      * rewrite decide_False; [done|].
        intros [Hl|Hl]%elem_of_union; [|done].
        by apply elem_of_singleton in Hl.
Qed.

Lemma resetStats_lookup graph h l :
  resetStats graph h !! l
  = if decide (l ∈ (map_img (nodes graph) : gset loc))
    then set_stats None <$> h !! l else h !! l.
Proof. apply clearStats_lookup. Qed.

Lemma resetStats_idemp graph h :
  resetStats graph (resetStats graph h) = resetStats graph h.
Proof.
  apply list_eq. intros l. rewrite (resetStats_lookup graph (resetStats graph h)).
  case_decide as Hl; [|done]. rewrite resetStats_lookup.
  rewrite decide_True by done. destruct (h !! l); [|done]. simpl.
  by rewrite set_stats_idemp.
Qed.

Lemma foldl_joinNodeStats_other device graph h entries l :
  (∀ e, e ∈ entries → nodes graph !! lookupName graph e ≠ Some l) →
  (foldl (joinNodeStats device) (graph, h) entries).2 !! l = h !! l.
Proof.
  revert h. induction entries as [|e entries IH]; intros h Hother; [done|].
  cbn [foldl].
  pose proof (joinNodeStats_graph device graph h e) as Hg.
  pose proof (joinNodeStats_other device graph h e l) as Hl.
  destruct (joinNodeStats device (graph, h) e) as [g h']. simpl in Hg, Hl.
  subst g. rewrite IH.
  - apply Hl, Hother. by left.
  - intros e' He'. apply Hother. by right.
Qed.

Lemma foldl_joinDevStats_other devicesForStats graph h devs l :
  (∀ devStats e,
     devStats ∈ devs →
     deviceSelected devicesForStats (stat_device devStats) = true →
     e ∈ node_stats devStats →
     nodes graph !! lookupName graph e ≠ Some l) →
  (foldl (joinDevStats devicesForStats) (graph, h) devs).2 !! l = h !! l.
Proof.
  revert h. induction devs as [|d devs IH]; intros h Hother; [done|].
  cbn [foldl].
  pose proof (joinDevStats_graph devicesForStats graph h d) as Hg.
  assert ((joinDevStats devicesForStats (graph, h) d).2 !! l = h !! l) as Hl.
  { unfold joinDevStats.
    destruct (deviceSelected devicesForStats (stat_device d)) eqn:Hsel; [|done].
    apply foldl_joinNodeStats_other. intros e He.
    apply (Hother d e); [by left|done|done]. }
  destruct (joinDevStats devicesForStats (graph, h) d) as [g h']. simpl in Hg, Hl.
  subst g. rewrite IH; [done|].
  intros d' e Hd'. apply Hother. by right.
Qed.




(** ** Edges *)

(** A property of the accumulator that every step keeps holds at the end
    of a loop. *)
Lemma foldl_invariant {A B} (P : A → Prop) (f : A → B → A) (l : list B) (a : A) :
  P a → (∀ a b, P a → P (f a b)) → P (foldl f a l).
Proof.
  intros Ha Hstep. revert a Ha. induction l as [|b l IH]; intros a Ha; [done|].
  simpl. apply IH, Hstep, Ha.
Qed.

Lemma addEdgeToGraph_loopFree graph inputName outputNode input params index :
  loopFree graph →
  loopFree (addEdgeToGraph graph inputName outputNode input params index).
Proof.
  intros Hfree. unfold addEdgeToGraph. case_decide as Hloop; [done|].
  unfold loopFree. simpl. apply Forall_app. split; [done|].
  by apply Forall_singleton.
Qed.

Lemma addEdgeToGraph_nodes graph inputName outputNode input params index :
  nodes (addEdgeToGraph graph inputName outputNode input params index) = nodes graph.
Proof. unfold addEdgeToGraph. by case_decide. Qed.

Lemma addInput_loopFree params st dict l acc indexed :
  loopFree acc.1 → loopFree (addInput params st dict l acc indexed).1.
Proof.
  destruct acc as [graph h], indexed as [i input]. simpl. intros Hfree.
  unfold addInput.
  destruct (inEmbedding st !! input_name input) as [le|].
  - destruct (alter _ l h !! l) as [opNode|]; [|done].
    destruct (alter _ l h !! le) as [inEmbedNode|]; [|done]. simpl.
    apply foldl_invariant; [done|]. intros. by apply addEdgeToGraph_loopFree.
  - destruct (h !! l) as [opNode|]; [|done].
    destruct (outEmbedding st !! input_name input) as [lo|].
    + destruct (h !! lo) as [outEmbedNode|]; [|done]. simpl.
      apply foldl_invariant; [done|]. intros. by apply addEdgeToGraph_loopFree.
    + simpl. by apply addEdgeToGraph_loopFree.
Qed.

Lemma addInputs_loopFree params st dict acc l :
  loopFree acc.1 → loopFree (addInputs params st dict acc l).1.
Proof.
  intros Hfree. unfold addInputs. destruct (acc.2 !! l) as [opNode|]; [|done].
  apply (foldl_invariant (λ acc, loopFree acc.1)); [done|].
  intros. by apply addInput_loopFree.
Qed.

Lemma addNode_edges st dict acc l :
  edges (addNode st dict acc l).1 = edges acc.1.
Proof.
  destruct acc as [graph h]. unfold addNode. by destruct (h !! l).
Qed.

Lemma buildSlimGraph_loopFree params st : loopFree (buildSlimGraph params st).1.
Proof.
  unfold buildSlimGraph. simpl.
  apply (foldl_invariant (λ acc, loopFree acc.1)).
  - apply (foldl_invariant (λ acc, loopFree acc.1)).
    + by apply Forall_nil.
    + intros acc l Hfree. unfold loopFree. by rewrite addNode_edges.
  - intros. by apply addInputs_loopFree.
Qed.

(** C7: whatever the graph description and the parameters, every edge of
    the built graph has a source that differs from its destination;
    [addEdgeToGraph] returns the graph as it is when the source it is given
    is the name of the destination node. *)
Theorem C7_no_self_loop `{!RegExp} (graphDef : GraphDef) (params : BuildParams) :
  Forall (λ e, v e ≠ w e) (edges (build graphDef params).1.1)
  ∧ ∀ graph outputNode input index,
      addEdgeToGraph graph (name outputNode) outputNode input params index = graph.
Proof.
  split.
  - unfold build. destruct (normalizeNames params graphDef) as [st graphDef'].
    apply buildSlimGraph_loopFree.
  - intros graph outputNode input index. unfold addEdgeToGraph.
    by rewrite decide_True.
Qed.

(** ** Graph descriptions that [build] leaves as they are *)



Lemma processRawNode_rawNode `{!RegExp} params rawNode st :
  (processRawNode params rawNode st).1.2 = (OpNodeImpl rawNode).2.
Proof.
  unfold processRawNode. destruct (OpNodeImpl rawNode) as [opNode rawNode'].
  by repeat case_match.
Qed.





(** ** Out-embeddings *)

(** The graph built from [summaryGraph]: the summary is not in the node
    map, and the edge from ["M"] to ["N"] has the slot and the control
    flag of the input of ["N"]. *)
Example build_summaryGraph :
  let g := (@build defaultRegExp summaryGraph DefaultBuildParams).1.1 in
  map_to_list (nodes g) = [("M", 0); ("N", 2)]
  ∧ edges g = [ {| v := "M"; w := "N"; edge_outputTensorKey := "1";
                   edge_isControlDependency := false; isReferenceEdge := false |} ].
Proof. vm_compute. by split. Qed.

(** The in-embedding branch, for comparison: the edge from ["X"] to ["N"]
    has the control flag of the input of the constant. *)
Example build_constGraph :
  edges (@build defaultRegExp constGraph DefaultBuildParams).1.1
  = [ {| v := "X"; w := "N"; edge_outputTensorKey := "0";
         edge_isControlDependency := true; isReferenceEdge := false |} ].
Proof. vm_compute. reflexivity. Qed.

(** C1, as stated: in the graph built from [assignGraph] the summary
    ["S"] reads ["M"] by a data input, and input 0 of a [ScalarSummary] is
    no reference input; yet the edge from ["M"] to ["N"] is a control
    dependency and a reference edge, as the input of ["N"] that refers to
    ["S"] and the table entry of [Assign] at index 0 have it. No edge from
    ["M"] to ["N"] carries the flags of the input of ["S"]. *)
Lemma C1_counterexample :
  normalizeInputs (Some ["M"])
  = [ {| input_name := "M"; outputTensorKey := "0"; isControlDependency := false |} ]
  ∧ isRefEdge DefaultBuildParams "ScalarSummary" 0 = false
  ∧ ∀ e, e ∈ edges (@build defaultRegExp assignGraph DefaultBuildParams).1.1 →
      v e = "M" → w e = "N" →
      edge_isControlDependency e = true ∧ isReferenceEdge e = true.
Proof.
  split; [reflexivity|]. split; [reflexivity|]. intros e He _ _.
  vm_compute in He. apply list_elem_of_singleton in He as ->. by split.
Qed.

Section FirstTask.
Context `{!RegExp} (params : BuildParams).

Lemma kindOf_op n n' : op n = op n' → kindOf params n = kindOf params n'.
Proof.
  intros Hop. unfold kindOf, isInEmbeddedPred, isOutEmbeddedPred, getEmbedPredicate.
  by rewrite Hop.
Qed.

Lemma OpNodeImpl_name rawNode : name (OpNodeImpl rawNode).1 = raw_name rawNode.
Proof. unfold OpNodeImpl. by destruct (extractOutputShapes _). Qed.

Lemma OpNodeImpl_op rawNode : op (OpNodeImpl rawNode).1 = raw_op rawNode.
Proof. unfold OpNodeImpl. by destruct (extractOutputShapes _). Qed.

Lemma OpNodeImpl_inputs rawNode :
  inputs (OpNodeImpl rawNode).1 = normalizeInputs (raw_input rawNode).
Proof. unfold OpNodeImpl. by destruct (extractOutputShapes _). Qed.

Lemma alter_last {A} (f : A → A) (l : list A) (x : A) :
  alter f (length l) (l ++ [x]) = l ++ [f x].
Proof. induction l as [|y l IH]; [done|]. simpl. by f_equal. Qed.

(** What [rawStep] does, by the kind of the node. *)
Lemma rawStep_unfold rawNode f st :
  rawStep params rawNode f st
  = let n := (OpNodeImpl rawNode).1 in
    let l := length (store st) in
    match kindOf params n with
    | InEmbeddingNode =>
        {| store := store st ++ [f n];
           inEmbedding := <[name n := l]> (inEmbedding st);
           outEmbedding := outEmbedding st;
           outEmbeddingsOf := outEmbeddingsOf st;
           embeddingNodeNames := embeddingNodeNames st ++ [name n];
           opNodes := opNodes st; nodeNames := nodeNames st |}
    | OutEmbeddingNode =>
        {| store := store st ++ [f n];
           inEmbedding := inEmbedding st;
           outEmbedding := <[name n := l]> (outEmbedding st);
           outEmbeddingsOf :=
             foldl (pushOutEmbedding l) (outEmbeddingsOf st) (inputs n);
           embeddingNodeNames := embeddingNodeNames st ++ [name n];
           opNodes := opNodes st; nodeNames := nodeNames st |}
    | MainNode =>
        {| store := store st ++ [f n];
           inEmbedding := inEmbedding st;
           outEmbedding := outEmbedding st;
           outEmbeddingsOf := outEmbeddingsOf st;
           embeddingNodeNames := embeddingNodeNames st;
           opNodes := opNodes st ++ [l];
           nodeNames := nodeNames st ++ [name n] |}
    end.
Proof.
  unfold rawStep, processRawNode, kindOf.
  destruct (OpNodeImpl rawNode) as [n rawNode']. simpl.
  destruct (isInEmbeddedPred params n); [|destruct (isOutEmbeddedPred params n)];
    unfold update; simpl; by rewrite alter_last.
Qed.

Lemma update_id st l : update id l st = st.
Proof.
  unfold update. rewrite (list_alter_id id) by done. by destruct st.
Qed.

Lemma update_update f g l st :
  update g l (update f l st) = update (g ∘ f) l st.
Proof. unfold update. simpl. by rewrite list_alter_alter_eq. Qed.

Lemma processRawNode_rawStep rawNode st :
  (processRawNode params rawNode st).1.1 = rawStep params rawNode id st.
Proof.
  unfold rawStep. destruct (processRawNode params rawNode st) as [[st1 r] l].
  by rewrite update_id.
Qed.

Lemma rawStep_store rawNode f st :
  store (rawStep params rawNode f st) = store st ++ [f (OpNodeImpl rawNode).1].
Proof. rewrite rawStep_unfold. simpl. by destruct (kindOf _ _). Qed.

Lemma reach_trans fresh st1 st2 st3 :
  reach params fresh st1 st2 → reach params fresh st2 st3 →
  reach params fresh st1 st3.
Proof. intros H12 H23. induction H23; [done|]. by apply reach_step. Qed.

Lemma reach_weaken (fresh fresh' : string → Prop) st st' :
  (∀ k, fresh k → fresh' k) →
  reach params fresh st st' → reach params fresh' st st'.
Proof. intros Hsub Hreach. induction Hreach; [apply reach_refl|]. apply reach_step; auto. Qed.

(** The store only grows, and what it holds stays. *)
Lemma reach_store fresh st st' :
  reach params fresh st st' → store st `prefix_of` store st'.
Proof.
  induction 1 as [|st' r f _ IH _ _ _]; [done|].
  rewrite rawStep_store. by apply prefix_app_r.
Qed.

Lemma reach_lookup fresh st st' l n :
  reach params fresh st st' → store st !! l = Some n → store st' !! l = Some n.
Proof. intros Hreach Hl. eapply prefix_lookup_Some; [done|]. by eapply reach_store. Qed.

Lemma reach_opNodes fresh st st' l :
  reach params fresh st st' → l ∈ opNodes st → l ∈ opNodes st'.
Proof.
  induction 1 as [|st' r f _ IH _ _ _]; [done|]. intros Hl.
  rewrite rawStep_unfold. simpl. destruct (kindOf _ _); simpl; auto.
  apply elem_of_app. left. auto.
Qed.

(** A name that no processed raw node bears keeps its entries. *)
Lemma reach_inEmbedding fresh st st' k :
  reach params fresh st st' → ¬ fresh k →
  inEmbedding st' !! k = inEmbedding st !! k.
Proof.
  induction 1 as [|st' r f _ IH Hfresh _ _]; [done|]. intros Hk.
  rewrite rawStep_unfold. simpl. rewrite OpNodeImpl_name.
  destruct (kindOf _ _); simpl; auto.
  rewrite lookup_insert_ne; [auto|]. by intros <-.
Qed.

Lemma reach_outEmbedding fresh st st' k :
  reach params fresh st st' → ¬ fresh k →
  outEmbedding st' !! k = outEmbedding st !! k.
Proof.
  induction 1 as [|st' r f _ IH Hfresh _ _]; [done|]. intros Hk.
  rewrite rawStep_unfold. simpl. rewrite OpNodeImpl_name.
  destruct (kindOf _ _); simpl; auto.
  rewrite lookup_insert_ne; [auto|]. by intros <-.
Qed.
(** The lists of out-embeddings only grow, by the location that is
    pushed. *)
Lemma pushOutEmbeddings_mono l m ins k embs :
  m !! k = Some embs →
  ∃ embs', foldl (pushOutEmbedding l) m ins !! k = Some embs' ∧ embs ⊆ embs'.
Proof.
  revert m embs. induction ins as [|i ins IH]; intros m embs Hk; simpl.
  - by exists embs.
  - destruct (decide (input_name i = k)) as [<-|Hne].
    + destruct (IH (pushOutEmbedding l m i) (embs ++ [l])) as (embs' & Hk' & Hsub).
      { unfold pushOutEmbedding. by rewrite lookup_insert_eq, Hk. }
      exists embs'. split; [done|]. set_solver.
    + apply IH. unfold pushOutEmbedding. by rewrite lookup_insert_ne.
Qed.

Lemma pushOutEmbeddings_elem l m ins e :
  e ∈ ins →
  ∃ embs, foldl (pushOutEmbedding l) m ins !! input_name e = Some embs ∧ l ∈ embs.
Proof.
  revert m. induction ins as [|i ins IH]; intros m He; [by apply elem_of_nil in He|].
  apply elem_of_cons in He as [->|He]; [|by apply IH]. simpl.
  destruct (pushOutEmbeddings_mono l (pushOutEmbedding l m i) ins (input_name i)
              (default [] (m !! input_name i) ++ [l])) as (embs' & Hk & Hsub).
  { unfold pushOutEmbedding. by rewrite lookup_insert_eq. }
  exists embs'. split; [done|]. set_solver.
Qed.

Lemma pushOutEmbeddings_origin l m ins k embs x :
  foldl (pushOutEmbedding l) m ins !! k = Some embs → x ∈ embs →
  x = l ∨ ∃ embs0, m !! k = Some embs0 ∧ x ∈ embs0.
Proof.
  revert m. induction ins as [|i ins IH]; intros m Hk Hx; simpl in Hk.
  - right. eauto.
  - destruct (IH _ Hk Hx) as [->|(embs0 & Hk0 & Hx0)]; [by left|].
    unfold pushOutEmbedding in Hk0.
    destruct (decide (input_name i = k)) as [<-|Hne].
    + rewrite lookup_insert_eq in Hk0. injection Hk0 as <-.
      apply elem_of_app in Hx0 as [Hx0|Hx0];
        [|left; by apply list_elem_of_singleton in Hx0].
      right. destruct (m !! input_name i) as [embs1|]; [eauto|].
      by apply elem_of_nil in Hx0.
    + rewrite lookup_insert_ne in Hk0 by done. right. eauto.
Qed.

Lemma reach_outEmbeddingsOf fresh st st' k embs :
  reach params fresh st st' → outEmbeddingsOf st !! k = Some embs →
  ∃ embs', outEmbeddingsOf st' !! k = Some embs' ∧ embs ⊆ embs'.
Proof.
  induction 1 as [|st' r f _ IH _ _ _]; [by exists embs|]. intros Hk.
  destruct (IH Hk) as (embs1 & Hk1 & Hsub1).
  rewrite rawStep_unfold. simpl. destruct (kindOf _ _); simpl; [by eauto..|].
  destruct (pushOutEmbeddings_mono (length (store st')) (outEmbeddingsOf st')
              (inputs (OpNodeImpl r).1) k embs1 Hk1) as (embs2 & Hk2 & Hsub2).
  exists embs2. split; [done|]. by etrans.
Qed.

(** The filing by kind is kept. *)
Lemma rawStep_classified rawNode f st :
  (∀ n, op (f n) = op n) →
  classified params st → classified params (rawStep params rawNode f st).
Proof.
  intros Hop (Hnodup & Hmain & Hin & Hout).
  assert (∀ l n, store st !! l = Some n →
            (store st ++ [f (OpNodeImpl rawNode).1]) !! l = Some n) as Hold.
  { intros l n Hl. by apply lookup_app_l_Some. }
  assert ((store st ++ [f (OpNodeImpl rawNode).1]) !! length (store st)
          = Some (f (OpNodeImpl rawNode).1)) as Hnew.
  { by rewrite lookup_app_r, Nat.sub_diag. }
  assert (kindOf params (f (OpNodeImpl rawNode).1)
          = kindOf params (OpNodeImpl rawNode).1) as Hkind.
  { apply kindOf_op, Hop. }
  rewrite rawStep_unfold. cbv zeta.
  destruct (kindOf params (OpNodeImpl rawNode).1) eqn:Hk; unfold classified; simpl.
  - split; [|split; [|split]].
    + apply NoDup_app. split; [done|]. split; [|apply NoDup_singleton].
      intros l Hl ->%list_elem_of_singleton.
      destruct (Hmain _ Hl) as (n & Hn & _).
      apply lookup_lt_Some in Hn. lia.
    + intros l [Hl| ->%list_elem_of_singleton]%elem_of_app.
      * destruct (Hmain _ Hl) as (n & Hn & Hkn). eauto.
      * exists (f (OpNodeImpl rawNode).1). by rewrite Hkind.
    + intros k l Hl. destruct (Hin _ _ Hl) as (n & Hn & Hkn). eauto.
    + intros k embs l Hembs Hl. destruct (Hout _ _ _ Hembs Hl) as (n & Hn & Hkn). eauto.
  - split; [done|]. split; [|split].
    + intros l Hl. destruct (Hmain _ Hl) as (n & Hn & Hkn). eauto.
    + intros k l Hl. destruct (decide (name (OpNodeImpl rawNode).1 = k)) as [<-|Hne].
      * rewrite lookup_insert_eq in Hl. injection Hl as <-.
        exists (f (OpNodeImpl rawNode).1). by rewrite Hkind.
      * rewrite lookup_insert_ne in Hl by done.
        destruct (Hin _ _ Hl) as (n & Hn & Hkn). eauto.
    + intros k embs l Hembs Hl. destruct (Hout _ _ _ Hembs Hl) as (n & Hn & Hkn). eauto.
  - split; [done|]. split; [|split].
    + intros l Hl. destruct (Hmain _ Hl) as (n & Hn & Hkn). eauto.
    + intros k l Hl. destruct (Hin _ _ Hl) as (n & Hn & Hkn). eauto.
    + intros k embs l Hembs Hl.
      destruct (pushOutEmbeddings_origin _ _ _ _ _ _ Hembs Hl)
        as [->|(embs0 & Hembs0 & Hl0)].
      * exists (f (OpNodeImpl rawNode).1). by rewrite Hkind.
      * destruct (Hout _ _ _ Hembs0 Hl0) as (n & Hn & Hkn). eauto.
Qed.

Lemma reach_classified fresh st st' :
  reach params fresh st st' → classified params st → classified params st'.
Proof.
  induction 1 as [|st' r f _ IH _ Hop _]; [done|]. intros Hst.
  by apply rawStep_classified, IH.
Qed.

Lemma classified_empty : classified params emptyBuilder.
Proof.
  unfold classified. simpl. split; [apply NoDup_nil_2|].
  split; [intros l Hl; by apply elem_of_nil in Hl|].
  split; intros *; by rewrite lookup_empty.
Qed.
End FirstTask.

Section Reached.
Context `{!RegExp} (params : BuildParams).

Lemma app_assoc_string (a b c : string) : (a +:+ b) +:+ c = a +:+ (b +:+ c).
Proof.
  induction a as [|x a IH]; [done|].
  change (String x ((a +:+ b) +:+ c) = String x (a +:+ (b +:+ c))).
  by rewrite IH.
Qed.

Lemma startsWith_app (p x : string) : Str.startsWith (p +:+ x) p = true.
Proof.
  unfold Str.startsWith. induction p as [|a p IH]; [by destruct x|].
  change (String.prefix (String a p) (String a (p +:+ x)) = true).
  simpl. destruct (ascii_dec a a); [exact IH|done].
Qed.

Section Fresh.
Variable fresh : string → Prop.

Lemma processRawNodes_cons rawNode rawNodes st :
  (processRawNodes params (rawNode :: rawNodes) st).1
  = (processRawNodes params rawNodes (rawStep params rawNode id st)).1.
Proof.
  simpl. rewrite <- processRawNode_rawStep.
  destruct (processRawNode params rawNode st) as [[st1 r'] l]. simpl.
  by destruct (processRawNodes params rawNodes st1).
Qed.

Lemma processRawNodes_app l1 l2 st :
  (processRawNodes params (l1 ++ l2) st).1
  = (processRawNodes params l2 (processRawNodes params l1 st).1).1.
Proof.
  revert st. induction l1 as [|r l1 IH]; intros st; [done|].
  rewrite <- app_comm_cons, !processRawNodes_cons. apply IH.
Qed.

Lemma processRawNodes_reach rawNodes st :
  Forall (λ r, fresh (raw_name r)) rawNodes →
  reach params fresh st (processRawNodes params rawNodes st).1.
Proof.
  revert st. induction rawNodes as [|r rawNodes IH]; intros st Hfresh.
  - apply reach_refl.
  - apply Forall_cons in Hfresh as [Hr Hrest].
    rewrite processRawNodes_cons.
    eapply reach_trans; [|by apply IH].
    apply reach_step; [apply reach_refl|done|done|done].
Qed.

Lemma processRawNodes_length rawNodes st :
  length (store (processRawNodes params rawNodes st).1)
  = length (store st) + length rawNodes.
Proof.
  revert st. induction rawNodes as [|r rawNodes IH]; intros st; simpl; [lia|].
  change (length (store (processRawNodes params (r :: rawNodes) st).1)
          = length (store st) + S (length rawNodes)).
  rewrite processRawNodes_cons, IH, rawStep_store, length_app. simpl. lia.
Qed.

Hypothesis fresh_library : ∀ x, fresh (FUNCTION_LIBRARY_NODE_PREFIX +:+ x).

Lemma processInput_reach sig acc arg :
  reach params fresh acc.1
    (processInput params (FUNCTION_LIBRARY_NODE_PREFIX +:+ sig) acc arg).1.
Proof.
  destruct acc as [st i]. unfold processInput.
  set (r := {| raw_name := _ |}).
  pose proof (reach_step params fresh st st r
                (set_functionInputIndex (Some i)) (reach_refl _ _ _)) as Hstep.
  unfold rawStep in Hstep. destruct (processRawNode params r st) as [[st1 r'] l].
  apply Hstep; [|done|done]. subst r. simpl. rewrite app_assoc_string. apply fresh_library.
Qed.

Lemma processInputs_reach sig acc args :
  reach params fresh acc.1
    (foldl (processInput params (FUNCTION_LIBRARY_NODE_PREFIX +:+ sig)) acc args).1.
Proof.
  revert acc. induction args as [|arg args IH]; intros acc; [apply reach_refl|].
  simpl. eapply reach_trans; [apply processInput_reach|apply IH].
Qed.

Lemma processBodyNode_reach sig outputArgNames rawNode st :
  reach params fresh st
    (processBodyNode params (FUNCTION_LIBRARY_NODE_PREFIX +:+ sig)
       outputArgNames rawNode st).1.
Proof.
  unfold processBodyNode. set (r := {| raw_name := _ |}).
  set (g := λ n, set_inputs _ n).
  destruct (outputArgNames !! raw_name r) as [index|].
  - pose proof (reach_step params fresh st st r
                  (g ∘ set_functionOutputIndex (Some index)) (reach_refl _ _ _)) as Hstep.
    unfold rawStep in Hstep. destruct (processRawNode params r st) as [[st1 r'] l].
    simpl. rewrite update_update. apply Hstep; [|done|done].
    subst r. simpl. rewrite app_assoc_string. apply fresh_library.
  - pose proof (reach_step params fresh st st r g (reach_refl _ _ _)) as Hstep.
    unfold rawStep in Hstep. destruct (processRawNode params r st) as [[st1 r'] l].
    simpl. apply Hstep; [|done|done].
    subst r. simpl. rewrite app_assoc_string. apply fresh_library.
Qed.

Lemma processBodyNodes_reach sig outputArgNames rawNodes st :
  reach params fresh st
    (processBodyNodes params (FUNCTION_LIBRARY_NODE_PREFIX +:+ sig)
       outputArgNames rawNodes st).1.
Proof.
  revert st. induction rawNodes as [|r rawNodes IH]; intros st; [apply reach_refl|].
  simpl. pose proof (processBodyNode_reach sig outputArgNames r st) as Hr.
  destruct (processBodyNode _ _ _ r st) as [st1 r']. simpl in Hr.
  specialize (IH st1). destruct (processBodyNodes _ _ _ rawNodes st1) as [st2 rest'].
  simpl in *. by eapply reach_trans.
Qed.

Lemma processFunction_reach func st :
  reach params fresh st (processFunction params func st).1.
Proof.
  unfold processFunction. set (r := {| raw_name := _ |}).
  pose proof (reach_step params fresh st st r id (reach_refl _ _ _)) as Hstep.
  rewrite <- processRawNode_rawStep in Hstep.
  destruct (processRawNode params r st) as [[st1 r'] l]. simpl in Hstep.
  pose proof (processInputs_reach (signature_name func) (st1, 0)
                (argsOf (input_arg func))) as Hins. simpl in Hins.
  pose proof (processBodyNodes_reach (signature_name func)
                (foldl (processOutput (FUNCTION_LIBRARY_NODE_PREFIX +:+ signature_name func))
                       (∅, 0) (argsOf (output_arg func))).1
                (node_def func)
                (foldl (processInput params (FUNCTION_LIBRARY_NODE_PREFIX +:+ signature_name func))
                       (st1, 0) (argsOf (input_arg func))).1) as Hbody.
  destruct (processBodyNodes _ _ _ _ _) as [st3 body]. simpl in *.
  eapply reach_trans; [|exact Hbody]. eapply reach_trans; [|exact Hins].
  apply Hstep; [|done|done]. subst r. simpl. apply fresh_library.
Qed.

Lemma processFunctions_reach funcs st :
  reach params fresh st (processFunctions params funcs st).1.
Proof.
  revert st. induction funcs as [|func funcs IH]; intros st; [apply reach_refl|].
  simpl. pose proof (processFunction_reach func st) as Hf.
  destruct (processFunction params func st) as [st1 func']. simpl in Hf.
  specialize (IH st1). destruct (processFunctions params funcs st1) as [st2 rest'].
  simpl in *. by eapply reach_trans.
Qed.

(** The first task processes the nodes of the description, then the
    library. *)
Lemma normalizeNames_reach graphDef :
  reach params fresh (processRawNodes params (node graphDef) emptyBuilder).1
    (normalizeNames params graphDef).1.
Proof.
  unfold normalizeNames.
  destruct (processRawNodes params (node graphDef) emptyBuilder) as [st1 rawNodes].
  destruct (library graphDef) as [funcs|]; [|apply reach_refl].
  pose proof (processFunctions_reach funcs st1) as Hf.
  by destruct (processFunctions params funcs st1).
Qed.
End Fresh.
End Reached.

Section TopLevel.
Context `{!RegExp} (params : BuildParams).

(** The first task seen from the raw node [X] at index [p] of the
    description: the nodes before it, [X] itself, and the rest. *)
Lemma normalizeNames_split (fresh : string → Prop) graphDef p X :
  node graphDef !! p = Some X →
  (∀ q Y, node graphDef !! q = Some Y → q ≠ p → fresh (raw_name Y)) →
  (∀ x, fresh (FUNCTION_LIBRARY_NODE_PREFIX +:+ x)) →
  ∃ st_pre,
    reach params fresh emptyBuilder st_pre
    ∧ length (store st_pre) = p
    ∧ reach params fresh (rawStep params X id st_pre) (normalizeNames params graphDef).1.
Proof.
  intros HX Hothers Hlibrary.
  pose proof (take_drop_middle _ _ _ HX) as Hsplit.
  assert (p < length (node graphDef)) as Hp by by eapply lookup_lt_Some.
  exists (processRawNodes params (take p (node graphDef)) emptyBuilder).1.
  split; [|split].
  - apply processRawNodes_reach. apply Forall_lookup. intros q Y HY.
    apply lookup_take_Some in HY as [HY Hq]. apply (Hothers q Y HY). lia.
  - rewrite processRawNodes_length, length_take. simpl. lia.
  - eapply reach_trans; [|by apply normalizeNames_reach].
    rewrite <- Hsplit at 2. rewrite processRawNodes_app, processRawNodes_cons.
    apply processRawNodes_reach. apply Forall_lookup. intros q Y HY.
    rewrite lookup_drop in HY. apply (Hothers _ Y HY). lia.
Qed.

Lemma normalizeNames_classified graphDef :
  classified params (normalizeNames params graphDef).1.
Proof.
  apply (reach_classified params (λ _, True) emptyBuilder); [|apply classified_empty].
  eapply reach_trans; [|by apply normalizeNames_reach].
  apply processRawNodes_reach. by apply Forall_true.
Qed.

(** The raw node at index [p] has its node object at location [p], as the
    constructor made it; a main node is listed in [opNodes]. *)
Lemma normalizeNames_store graphDef p X :
  node graphDef !! p = Some X →
  store (normalizeNames params graphDef).1 !! p = Some (OpNodeImpl X).1.
Proof.
  intros HX.
  destruct (normalizeNames_split (λ _, True) graphDef p X HX)
    as (st_pre & _ & Hlen & Hreach); [done..|].
  eapply reach_lookup; [exact Hreach|].
  rewrite rawStep_store, <- Hlen. by rewrite lookup_app_r, Nat.sub_diag.
Qed.

Lemma normalizeNames_opNodes graphDef p X :
  node graphDef !! p = Some X → rawKind params X = MainNode →
  p ∈ opNodes (normalizeNames params graphDef).1.
Proof.
  intros HX Hkind.
  destruct (normalizeNames_split (λ _, True) graphDef p X HX)
    as (st_pre & _ & Hlen & Hreach); [done..|].
  eapply reach_opNodes; [exact Hreach|].
  rewrite rawStep_unfold. cbv zeta. unfold rawKind in Hkind. rewrite Hkind. simpl.
  rewrite Hlen. apply elem_of_app. right. by apply list_elem_of_singleton.
Qed.

(** An out-embedding whose name no other raw node bears, and which is not
    in the name space of the library, is found by its name in
    [outEmbedding] and not in [inEmbedding], and is pushed on the list of
    every source it reads. *)
Lemma normalizeNames_outEmbedding graphDef p S :
  node graphDef !! p = Some S →
  rawKind params S = OutEmbeddingNode →
  (∀ q Y, node graphDef !! q = Some Y → raw_name Y = raw_name S → q = p) →
  Str.startsWith (raw_name S) FUNCTION_LIBRARY_NODE_PREFIX = false →
  let st := (normalizeNames params graphDef).1 in
  inEmbedding st !! raw_name S = None
  ∧ outEmbedding st !! raw_name S = Some p
  ∧ ∀ e, e ∈ normalizeInputs (raw_input S) →
      ∃ embs, outEmbeddingsOf st !! input_name e = Some embs ∧ p ∈ embs.
Proof.
  intros HS Hkind Hunique Hprefix st.
  destruct (normalizeNames_split (λ k, k ≠ raw_name S) graphDef p S HS)
    as (st_pre & Hpre & Hlen & Hreach).
  { intros q Y HY Hq Hname. by apply Hq, (Hunique q Y). }
  { intros x Hx. rewrite <- Hx, startsWith_app in Hprefix. done. }
  assert (¬ (raw_name S ≠ raw_name S)) as Hs by (intros Hs; by apply Hs).
  pose proof (rawStep_unfold params S id st_pre) as Hstep. cbv zeta in Hstep.
  unfold rawKind in Hkind. rewrite Hkind, Hlen, OpNodeImpl_name in Hstep.
  split; [|split].
  - unfold st. rewrite (reach_inEmbedding params _ _ _ _ Hreach Hs), Hstep. simpl.
    by rewrite (reach_inEmbedding params _ _ _ _ Hpre Hs).
  - unfold st. rewrite (reach_outEmbedding params _ _ _ _ Hreach Hs), Hstep. simpl.
    by rewrite lookup_insert_eq.
  - intros e He. rewrite <- OpNodeImpl_inputs in He.
    destruct (pushOutEmbeddings_elem p (outEmbeddingsOf st_pre) _ e He)
      as (embs & Hembs & Hp).
    destruct (reach_outEmbeddingsOf params _ _ _ (input_name e) embs Hreach)
      as (embs' & Hembs' & Hsub).
    { by rewrite Hstep. }
    exists embs'. split; [done|]. by apply Hsub.
Qed.
(** Main nodes keep names in [fresh]. *)
Lemma rawStep_main_names (P : string → Prop) rawNode f st :
  (∀ n, name (f n) = name n) →
  (rawKind params rawNode = MainNode → P (raw_name rawNode)) →
  (∀ l, l ∈ opNodes st → ∃ n, store st !! l = Some n ∧ P (name n)) →
  ∀ l, l ∈ opNodes (rawStep params rawNode f st) →
    ∃ n, store (rawStep params rawNode f st) !! l = Some n ∧ P (name n).
Proof.
  intros Hname HP Hold l. rewrite rawStep_store, rawStep_unfold. cbv zeta.
  unfold rawKind in HP.
  destruct (kindOf params (OpNodeImpl rawNode).1); simpl.
  - intros [Hl| ->%list_elem_of_singleton]%elem_of_app.
    + destruct (Hold l Hl) as (n & Hn & HPn). exists n. split; [|done].
      by apply lookup_app_l_Some.
    + exists (f (OpNodeImpl rawNode).1). split.
      * by rewrite lookup_app_r, Nat.sub_diag.
      * rewrite Hname, OpNodeImpl_name. by apply HP.
  - intros Hl. destruct (Hold l Hl) as (n & Hn & HPn). exists n. split; [|done].
    by apply lookup_app_l_Some.
  - intros Hl. destruct (Hold l Hl) as (n & Hn & HPn). exists n. split; [|done].
    by apply lookup_app_l_Some.
Qed.

Lemma reach_main_names (P : string → Prop) st st' :
  reach params P st st' →
  (∀ l, l ∈ opNodes st → ∃ n, store st !! l = Some n ∧ P (name n)) →
  ∀ l, l ∈ opNodes st' → ∃ n, store st' !! l = Some n ∧ P (name n).
Proof.
  induction 1 as [|st' r f _ IH Hfresh _ Hname]; [done|]. intros Hst.
  apply rawStep_main_names; [done|done|]. by apply IH.
Qed.

(** Beside an out-embedding [S], every main node has a name in [P] when
    the other raw nodes and the names of the library have. *)
Lemma normalizeNames_main_names (P : string → Prop) graphDef p S :
  node graphDef !! p = Some S →
  rawKind params S = OutEmbeddingNode →
  (∀ q Y, node graphDef !! q = Some Y → q ≠ p → P (raw_name Y)) →
  (∀ x, P (FUNCTION_LIBRARY_NODE_PREFIX +:+ x)) →
  ∀ l, l ∈ opNodes (normalizeNames params graphDef).1 →
    ∃ n, store (normalizeNames params graphDef).1 !! l = Some n ∧ P (name n).
Proof.
  intros HS Hkind Hothers Hlibrary.
  destruct (normalizeNames_split P graphDef p S HS Hothers Hlibrary)
    as (st_pre & Hpre & _ & Hreach).
  apply (reach_main_names P _ _ Hreach).
  apply rawStep_main_names; [done|congruence|].
  apply (reach_main_names P _ _ Hpre). intros l Hl. by apply elem_of_nil in Hl.
Qed.
End TopLevel.

(** ** Stores that agree on some fields *)

Lemma agreeOn_alter {T} (π : OpNode → T) f (l : loc) (h : list OpNode) :
  (∀ n, π (f n) = π n) → π <$> alter f l h = π <$> h.
Proof.
  intros Hπ. apply list_eq. intros i. rewrite !list_lookup_fmap.
  destruct (decide (l = i)) as [->|Hne].
  - rewrite list_lookup_alter_eq. destruct (h !! i); [|done]. simpl. by rewrite Hπ.
  - by rewrite list_lookup_alter_ne.
Qed.

Lemma agreeOn_lookup {T} (π : OpNode → T) (h h' : list OpNode) (l : loc) n :
  agreeOn π h h' → h !! l = Some n → ∃ n', h' !! l = Some n' ∧ π n' = π n.
Proof.
  intros Hagree Hl. apply (f_equal (λ k, k !! l)) in Hagree.
  rewrite !list_lookup_fmap, Hl in Hagree. destruct (h' !! l) as [n'|]; [|done].
  injection Hagree as Hπ. eauto.
Qed.

Lemma agreeOn_alters {T} (π : OpNode → T) f (ls : list loc) (h : list OpNode) :
  (∀ n, π (f n) = π n) → π <$> foldl (λ h l, alter f l h) h ls = π <$> h.
Proof.
  intros Hπ. revert h. induction ls as [|l ls IH]; intros h; [done|].
  simpl. by rewrite IH, agreeOn_alter.
Qed.

Lemma alters_other (f : OpNode → OpNode) (ls : list loc) (h : list OpNode) (l : loc) :
  l ∉ ls → foldl (λ h l, alter f l h) h ls !! l = h !! l.
Proof.
  revert h. induction ls as [|l' ls IH]; intros h Hl; [done|].
  apply not_elem_of_cons in Hl as [Hne Hl]. simpl.
  rewrite IH by done. by rewrite list_lookup_alter_ne.
Qed.

Lemma agreeOn_map_alters {T} (π : OpNode → T) f (m : gmap string loc)
    (h : list OpNode) :
  (∀ n, π (f n) = π n) →
  π <$> map_fold (λ _ l h, alter f l h) h m = π <$> h.
Proof.
  intros Hπ. induction m as [|k l m Hfresh Hfirst IH] using map_first_key_ind.
  - by rewrite map_fold_empty.
  - rewrite map_fold_insert_first_key by done. by rewrite agreeOn_alter.
Qed.

Lemma map_alters_other (f : OpNode → OpNode) (m : gmap string loc)
    (h : list OpNode) (l : loc) :
  (∀ k, m !! k ≠ Some l) →
  map_fold (λ _ l h, alter f l h) h m !! l = h !! l.
Proof.
  induction m as [|k l' m Hfresh Hfirst IH] using map_first_key_ind; intros Hl.
  - by rewrite map_fold_empty.
  - rewrite map_fold_insert_first_key by done.
    assert (l' ≠ l) as Hne.
    { intros ->. apply (Hl k). by rewrite lookup_insert_eq. }
    rewrite list_lookup_alter_ne by done. apply IH. intros k' Hk'.
    apply (Hl k'). rewrite lookup_insert_ne; [done|]. intros ->. congruence.
Qed.

Section SecondTask.
Context `{!RegExp} (params : BuildParams) (st : Builder) (dict : gmap string string).
Hypothesis Hclassified : classified params st.

Lemma frame_kind (h : list OpNode) (l : loc) n n0 :
  agreeOn frame (store st) h → store st !! l = Some n0 → h !! l = Some n →
  kindOf params n = kindOf params n0.
Proof.
  intros Hagree Hl0 Hl. destruct (agreeOn_lookup _ _ _ _ _ Hagree Hl0) as (n' & Hl' & Hframe).
  rewrite Hl in Hl'. injection Hl' as <-. apply kindOf_op. by injection Hframe.
Qed.

(** A main node is on no list of out-embeddings and is no in-embedding. *)
Lemma main_not_outEmbedding (h : list OpNode) (l : loc) n k embs :
  agreeOn frame (store st) h → h !! l = Some n → kindOf params n = MainNode →
  outEmbeddingsOf st !! k = Some embs → l ∉ embs.
Proof.
  intros Hagree Hl Hmain Hembs Hin.
  destruct Hclassified as (_ & _ & _ & Hout).
  destruct (Hout _ _ _ Hembs Hin) as (n0 & Hl0 & Hkind).
  rewrite (frame_kind h l n n0) in Hmain by done. congruence.
Qed.

Lemma main_not_inEmbedding (h : list OpNode) (l : loc) n k :
  agreeOn frame (store st) h → h !! l = Some n → kindOf params n = MainNode →
  inEmbedding st !! k ≠ Some l.
Proof.
  intros Hagree Hl Hmain Hk.
  destruct Hclassified as (_ & _ & Hin & _).
  destruct (Hin _ _ Hk) as (n0 & Hl0 & Hkind).
  rewrite (frame_kind h l n n0) in Hmain by done. congruence.
Qed.

Lemma addNode_step g (h : list OpNode) (l : loc) n :
  agreeOn frame (store st) h → h !! l = Some n → kindOf params n = MainNode →
  ∃ h',
    addNode st dict (g, h) l
    = ({| nodes := <[normalizedName dict (name n) := l]> (nodes g);
          edges := edges g |}, h')
    ∧ agreeOn frame (store st) h'
    ∧ h' !! l = Some (added st dict n)
    ∧ ∀ l0 n0, l0 ≠ l → h !! l0 = Some n0 → kindOf params n0 = MainNode →
        h' !! l0 = Some n0.
Proof.
  intros Hagree Hl Hmain. unfold addNode, added. rewrite Hl.
  destruct (outEmbeddingsOf st !! name n) as [embs|] eqn:Hembs.
  - eexists. split; [reflexivity|]. split; [|split].
    + unfold agreeOn. rewrite agreeOn_alter by done.
      rewrite (agreeOn_alters frame (renameNode dict)) by done.
      by rewrite agreeOn_alter.
    + rewrite list_lookup_alter_eq, alters_other
        by (by eapply main_not_outEmbedding).
      by rewrite list_lookup_alter_eq, Hl.
    + intros l0 n0 Hne Hl0 Hmain0.
      rewrite list_lookup_alter_ne by done.
      rewrite alters_other by (by eapply main_not_outEmbedding).
      by rewrite list_lookup_alter_ne.
  - eexists. split; [reflexivity|]. split; [|split].
    + unfold agreeOn. by rewrite agreeOn_alter.
    + by rewrite list_lookup_alter_eq, Hl.
    + intros l0 n0 Hne Hl0 Hmain0. by rewrite list_lookup_alter_ne.
Qed.
Lemma added_op n : op (added st dict n) = op n.
Proof. unfold added. by destruct (outEmbeddingsOf st !! name n). Qed.

(** The first loop over [opNodes]: every listed node object becomes
    [added], the other main node objects are not written to, no edge is
    made and the node map refers to listed node objects only. *)
Lemma addNode_fold (ls : list loc) g (h : list OpNode) :
  NoDup ls →
  agreeOn frame (store st) h →
  (∀ l, l ∈ ls → ∃ n, h !! l = Some n ∧ kindOf params n = MainNode) →
  agreeOn frame (store st) (foldl (addNode st dict) (g, h) ls).2
  ∧ edges (foldl (addNode st dict) (g, h) ls).1 = edges g
  ∧ (∀ k l, nodes (foldl (addNode st dict) (g, h) ls).1 !! k = Some l →
       nodes g !! k = Some l ∨ l ∈ ls)
  ∧ (∀ l n, l ∈ ls → h !! l = Some n →
       (foldl (addNode st dict) (g, h) ls).2 !! l = Some (added st dict n))
  ∧ (∀ l n, l ∉ ls → h !! l = Some n → kindOf params n = MainNode →
       (foldl (addNode st dict) (g, h) ls).2 !! l = Some n).
Proof.
  revert g h. induction ls as [|l ls IH]; intros g h Hnodup Hagree Hmains.
  - simpl. repeat split; try done.
    + intros k l Hk. by left.
    + intros l n Hl. by apply elem_of_nil in Hl.
  - apply NoDup_cons in Hnodup as [Hl Hnodup].
    destruct (Hmains l) as (n & Hn & Hmain); [by left|].
    destruct (addNode_step g h l n Hagree Hn Hmain)
      as (h1 & Hstep & Hagree1 & Hl1 & Hother1).
    cbn [foldl]. rewrite Hstep.
    destruct (IH {| nodes := <[normalizedName dict (name n) := l]> (nodes g);
                    edges := edges g |} h1 Hnodup Hagree1)
      as (Hagree' & Hedges & Hnodes & Hin & Hout).
    { intros l' Hl'. destruct (Hmains l') as (n' & Hn' & Hmain'); [by right|].
      exists n'. split; [|done]. apply Hother1; [|done..]. by intros ->. }
    split; [done|]. split; [done|]. split; [|split].
    + intros k x Hk. destruct (Hnodes k x Hk) as [Hg|Hx]; [|right; by right].
      simpl in Hg. destruct (decide (normalizedName dict (name n) = k)) as [<-|Hne].
      * rewrite lookup_insert_eq in Hg. injection Hg as <-. right. by left.
      * rewrite lookup_insert_ne in Hg by done. by left.
    + intros l0 n0 [->|Hl0]%elem_of_cons Hn0.
      * rewrite Hn in Hn0. injection Hn0 as <-.
        apply Hout; [done..|]. rewrite <- Hmain. apply kindOf_op, added_op.
      * apply Hin; [done|].
        destruct (Hmains l0) as (n' & Hn' & Hmain'); [by right|].
        rewrite Hn0 in Hn'. injection Hn' as <-.
        apply Hother1; [|done..]. by intros ->.
    + intros l0 n0 [Hne Hl0]%not_elem_of_cons Hn0 Hmain0.
      apply Hout; [done| |done]. by apply Hother1.
Qed.

(** The keys of the node map are the new names of the listed node
    objects. *)
Lemma addNode_fold_keys (ls : list loc) g (h : list OpNode) :
  NoDup ls →
  agreeOn frame (store st) h →
  (∀ l, l ∈ ls → ∃ n, h !! l = Some n ∧ kindOf params n = MainNode) →
  ∀ k l, nodes (foldl (addNode st dict) (g, h) ls).1 !! k = Some l →
    nodes g !! k = Some l
    ∨ ∃ n, l ∈ ls ∧ h !! l = Some n ∧ k = normalizedName dict (name n).
Proof.
  revert g h. induction ls as [|l ls IH]; intros g h Hnodup Hagree Hmains k x Hk.
  - by left.
  - apply NoDup_cons in Hnodup as [Hl Hnodup].
    destruct (Hmains l) as (n & Hn & Hmain); [by left|].
    destruct (addNode_step g h l n Hagree Hn Hmain)
      as (h1 & Hstep & Hagree1 & Hl1 & Hother1).
    cbn [foldl] in Hk. rewrite Hstep in Hk.
    assert (∀ l', l' ∈ ls → ∃ n', h1 !! l' = Some n' ∧ kindOf params n' = MainNode)
      as Hmains1.
    { intros l' Hl'. destruct (Hmains l') as (n' & Hn' & Hmain'); [by right|].
      exists n'. split; [|done]. apply Hother1; [|done..]. by intros ->. }
    destruct (IH _ h1 Hnodup Hagree1 Hmains1 k x Hk) as [Hg|(n' & Hx & Hn' & Hkey)].
    + simpl in Hg. destruct (decide (normalizedName dict (name n) = k)) as [<-|Hne].
      * rewrite lookup_insert_eq in Hg. injection Hg as <-. right. exists n.
        split; [by left|done].
      * rewrite lookup_insert_ne in Hg by done. by left.
    + right. destruct (Hmains x) as (n'' & Hn'' & Hmain''); [by right|].
      exists n''. split; [by right|]. split; [done|].
      rewrite (Hother1 x n'') in Hn'; [by injection Hn' as <-| |done..].
      by intros ->.
Qed.

(** *** The loop over the inputs *)

Lemma foldl_establish {A B} (I Q : A → Prop) (f : A → B → A) (l : list B) a x :
  x ∈ l → I a →
  (∀ a b, I a → I (f a b)) →
  (∀ a, I a → Q (f a x)) →
  (∀ a b, Q a → Q (f a b)) →
  Q (foldl f a l).
Proof.
  intros Hx Ha HI Hx' HQ. revert a Ha.
  induction l as [|b l IH]; intros a Ha; [by apply elem_of_nil in Hx|].
  simpl. apply elem_of_cons in Hx as [->|Hx].
  - apply foldl_invariant; [by apply Hx'|done].
  - apply IH; [done|]. by apply HI.
Qed.

Lemma addEdgeToGraph_mono graph inputName outputNode input index e :
  e ∈ edges graph →
  e ∈ edges (addEdgeToGraph graph inputName outputNode input params index).
Proof.
  intros He. unfold addEdgeToGraph. case_decide; [done|]. simpl.
  apply elem_of_app. by left.
Qed.

Lemma addEdgeToGraph_adds graph inputName outputNode input index :
  inputName ≠ name outputNode →
  {| v := inputName; w := name outputNode;
     edge_outputTensorKey := outputTensorKey input;
     edge_isControlDependency := isControlDependency input;
     isReferenceEdge := isRefEdge params (op outputNode) index |}
  ∈ edges (addEdgeToGraph graph inputName outputNode input params index).
Proof.
  intros Hne. unfold addEdgeToGraph. rewrite decide_False by done. simpl.
  apply elem_of_app. right. by apply list_elem_of_singleton.
Qed.

Lemma addEdges_mono graph (source : NormalizedInput → string)
    (flags : NormalizedInput → NormalizedInput) outputNode index ins e :
  e ∈ edges graph →
  e ∈ edges (foldl (λ g embedInput,
                      addEdgeToGraph g (source embedInput) outputNode
                        (flags embedInput) params index) graph ins).
Proof.
  intros He. apply (foldl_invariant (λ g, e ∈ edges g)); [done|].
  intros. by apply addEdgeToGraph_mono.
Qed.

Lemma addEdges_nodes graph (source : NormalizedInput → string)
    (flags : NormalizedInput → NormalizedInput) outputNode index ins :
  nodes (foldl (λ g embedInput,
                  addEdgeToGraph g (source embedInput) outputNode
                    (flags embedInput) params index) graph ins)
  = nodes graph.
Proof.
  apply (foldl_invariant (λ g, nodes g = nodes graph)); [done|].
  intros g b Hg. by rewrite addEdgeToGraph_nodes.
Qed.

Lemma addInput_mono l acc indexed e :
  e ∈ edges acc.1 → e ∈ edges (addInput params st dict l acc indexed).1.
Proof.
  destruct acc as [graph h], indexed as [i input]. simpl. intros He.
  unfold addInput.
  destruct (inEmbedding st !! input_name input) as [le|].
  - destruct (alter _ l h !! l) as [opNode|]; [|done].
    destruct (alter _ l h !! le) as [inEmbedNode|]; [|done]. simpl.
    by apply (addEdges_mono _ _ (λ x, x)).
  - destruct (h !! l) as [opNode|]; [|done].
    destruct (outEmbedding st !! input_name input) as [lo|].
    + destruct (h !! lo) as [outEmbedNode|]; [|done]. simpl.
      by apply (addEdges_mono _ _ (λ _, input)).
    + simpl. by apply addEdgeToGraph_mono.
Qed.

Lemma addInput_nodes l acc indexed :
  nodes (addInput params st dict l acc indexed).1 = nodes acc.1.
Proof.
  destruct acc as [graph h], indexed as [i input]. simpl.
  unfold addInput.
  destruct (inEmbedding st !! input_name input) as [le|].
  - destruct (alter _ l h !! l) as [opNode|]; [|done].
    destruct (alter _ l h !! le) as [inEmbedNode|]; [|done]. simpl.
    by apply (addEdges_nodes _ _ (λ x, x)).
  - destruct (h !! l) as [opNode|]; [|done].
    destruct (outEmbedding st !! input_name input) as [lo|].
    + destruct (h !! lo) as [outEmbedNode|]; [|done]. simpl.
      by apply (addEdges_nodes _ _ (λ _, input)).
    + simpl. by apply addEdgeToGraph_nodes.
Qed.

Lemma addInput_named l acc indexed :
  named <$> (addInput params st dict l acc indexed).2 = named <$> acc.2.
Proof.
  destruct acc as [graph h], indexed as [i input]. simpl.
  unfold addInput.
  destruct (inEmbedding st !! input_name input) as [le|].
  - destruct (alter _ l h !! l) as [opNode|];
      [destruct (alter _ l h !! le) as [inEmbedNode|]|];
      simpl; by rewrite agreeOn_alter.
  - destruct (h !! l) as [opNode|]; [|done].
    destruct (outEmbedding st !! input_name input) as [lo|]; [|done].
    by destruct (h !! lo).
Qed.

Lemma addInputs_mono acc l e :
  e ∈ edges acc.1 → e ∈ edges (addInputs params st dict acc l).1.
Proof.
  intros He. unfold addInputs. destruct (acc.2 !! l) as [opNode|]; [|done].
  apply (foldl_invariant (λ acc, e ∈ edges acc.1)); [done|].
  intros. by apply addInput_mono.
Qed.

Lemma addInputs_nodes acc l :
  nodes (addInputs params st dict acc l).1 = nodes acc.1.
Proof.
  unfold addInputs. destruct (acc.2 !! l) as [opNode|]; [|done].
  apply (foldl_invariant (λ acc', nodes acc'.1 = nodes acc.1)); [done|].
  intros a b Ha. by rewrite addInput_nodes.
Qed.

Lemma addInputs_named acc l :
  named <$> (addInputs params st dict acc l).2 = named <$> acc.2.
Proof.
  unfold addInputs. destruct (acc.2 !! l) as [opNode|]; [|done].
  apply (foldl_invariant (λ acc', named <$> acc'.2 = named <$> acc.2)); [done|].
  intros a b Ha. by rewrite addInput_named.
Qed.
(** The input [inp] at index [i] of the node object at [pN] names an
    out-embedding at [pS]: every input [e] of the out-embedding gives an
    edge from its source to the node, with the slot and the control flag of
    [inp] and the reference flag of the index [i]. *)
Lemma addInput_establish g (h : list OpNode) (pN pS : loc) nN nS i inp e :
  h !! pN = Some nN → h !! pS = Some nS →
  inEmbedding st !! input_name inp = None →
  outEmbedding st !! input_name inp = Some pS →
  e ∈ inputs nS →
  normalizedName dict (input_name e) ≠ name nN →
  {| v := normalizedName dict (input_name e); w := name nN;
     edge_outputTensorKey := outputTensorKey inp;
     edge_isControlDependency := isControlDependency inp;
     isReferenceEdge := isRefEdge params (op nN) i |}
  ∈ edges (addInput params st dict pN (g, h) (i, inp)).1.
Proof.
  intros HN HS Hin Hout He Hne. unfold addInput. rewrite Hin, HN, Hout, HS. simpl.
  apply (foldl_establish (λ _, True) (λ g', _ ∈ edges g')) with (x := e);
    [done|done|done| |].
  - intros g' _. by apply addEdgeToGraph_adds.
  - intros g' b Hg'. by apply addEdgeToGraph_mono.
Qed.

Lemma addInputs_establish g (h : list OpNode) (pN pS : loc) nN nS i inp e :
  h !! pN = Some nN → h !! pS = Some nS →
  inputs nN !! i = Some inp →
  inEmbedding st !! input_name inp = None →
  outEmbedding st !! input_name inp = Some pS →
  e ∈ inputs nS →
  normalizedName dict (input_name e) ≠ name nN →
  {| v := normalizedName dict (input_name e); w := name nN;
     edge_outputTensorKey := outputTensorKey inp;
     edge_isControlDependency := isControlDependency inp;
     isReferenceEdge := isRefEdge params (op nN) i |}
  ∈ edges (addInputs params st dict (g, h) pN).1.
Proof.
  intros HN HS Hi Hin Hout He Hne. unfold addInputs. simpl. rewrite HN.
  apply (foldl_establish (λ acc, agreeOn named h acc.2) (λ acc, _ ∈ edges acc.1))
    with (x := (i, inp)).
  - apply elem_of_lookup_imap. eauto.
  - done.
  - intros acc b Hacc. unfold agreeOn. by rewrite addInput_named.
  - intros [g' h'] Hacc. simpl in Hacc.
    destruct (agreeOn_lookup _ _ _ _ _ Hacc HN) as (nN' & HN' & HnamedN).
    destruct (agreeOn_lookup _ _ _ _ _ Hacc HS) as (nS' & HS' & HnamedS).
    injection HnamedN as HnameN HopN HinsN HoutN.
    injection HnamedS as HnameS HopS HinsS HoutS.
    rewrite <- HnameN, <- HopN. apply addInput_establish with (pS := pS) (nS := nS');
      try done; [by rewrite HinsS|by rewrite HnameN].
  - intros acc b Hacc. by apply addInput_mono.
Qed.

Lemma addInputs_fold_establish (ls : list loc) g (h : list OpNode)
    (pN pS : loc) nN nS i inp e :
  pN ∈ ls →
  h !! pN = Some nN → h !! pS = Some nS →
  inputs nN !! i = Some inp →
  inEmbedding st !! input_name inp = None →
  outEmbedding st !! input_name inp = Some pS →
  e ∈ inputs nS →
  normalizedName dict (input_name e) ≠ name nN →
  {| v := normalizedName dict (input_name e); w := name nN;
     edge_outputTensorKey := outputTensorKey inp;
     edge_isControlDependency := isControlDependency inp;
     isReferenceEdge := isRefEdge params (op nN) i |}
  ∈ edges (foldl (addInputs params st dict) (g, h) ls).1.
Proof.
  intros HpN HN HS Hi Hin Hout He Hne.
  apply (foldl_establish (λ acc, agreeOn named h acc.2) (λ acc, _ ∈ edges acc.1))
    with (x := pN); [done|done| | |].
  - intros acc b Hacc. unfold agreeOn. by rewrite addInputs_named.
  - intros [g' h'] Hacc. simpl in Hacc.
    destruct (agreeOn_lookup _ _ _ _ _ Hacc HN) as (nN' & HN' & HnamedN).
    destruct (agreeOn_lookup _ _ _ _ _ Hacc HS) as (nS' & HS' & HnamedS).
    injection HnamedN as HnameN HopN HinsN HoutN.
    injection HnamedS as HnameS HopS HinsS HoutS.
    rewrite <- HnameN, <- HopN.
    apply addInputs_establish with (pS := pS) (nS := nS'); try done;
      [by rewrite HinsN|by rewrite HinsS|by rewrite HnameN].
  - intros acc b Hacc. by apply addInputs_mono.
Qed.
End SecondTask.

Lemma added_inputs st dict n : inputs (added st dict n) = inputs n.
Proof. unfold added. by destruct (outEmbeddingsOf st !! name n). Qed.

Lemma added_name st dict n :
  name (added st dict n) = normalizedName dict (name n).
Proof. reflexivity. Qed.

Lemma added_outEmbeddings st dict n embs :
  outEmbeddingsOf st !! name n = Some embs →
  outEmbeddings (added st dict n) = embs.
Proof. intros Hembs. unfold added. by rewrite Hembs. Qed.

Lemma named_frame (h h' : list OpNode) : agreeOn named h h' → agreeOn frame h h'.
Proof.
  unfold agreeOn. intros Hnamed.
  change frame with ((λ x : string * string * list NormalizedInput * list loc,
                        (x.1.1.2, x.1.2)) ∘ named).
  by rewrite !list_fmap_compose, Hnamed.
Qed.

(** Let [S] be an out-embedding of the description whose name no other
    raw node bears and which is outside the name space of the library, let
    [S] read the main node [M], and let the main node [N] read [S] by its
    input [inp] at index [i]; let the final names of [M] and [N] differ.
    Then the built graph has an edge from [M] to [N] whose slot and control
    flag are those of [inp] and whose reference flag is that of the
    operation of [N] at index [i]; no key of the node map refers to the
    node object of [S], and the name of [S] is no key of the node map when
    it is not the strict name of a raw node either; and the node object of
    [S] is on the out-embedding list of the node object of [M]. *)
Lemma out_embedding_rerouted `{!RegExp}
    (params : BuildParams) (graphDef : GraphDef)
    (pS pM pN : loc) (S M N : NodeDef) (e inp : NormalizedInput) (i : nat) :
  node graphDef !! pS = Some S →
  node graphDef !! pM = Some M →
  node graphDef !! pN = Some N →
  rawKind params S = OutEmbeddingNode →
  rawKind params M = MainNode →
  rawKind params N = MainNode →
  (∀ q Y, node graphDef !! q = Some Y → raw_name Y = raw_name S → q = pS) →
  Str.startsWith (raw_name S) FUNCTION_LIBRARY_NODE_PREFIX = false →
  e ∈ normalizeInputs (raw_input S) → input_name e = raw_name M →
  normalizeInputs (raw_input N) !! i = Some inp → input_name inp = raw_name S →
  finalName params graphDef (raw_name M) ≠ finalName params graphDef (raw_name N) →
  {| v := finalName params graphDef (raw_name M);
     w := finalName params graphDef (raw_name N);
     edge_outputTensorKey := outputTensorKey inp;
     edge_isControlDependency := isControlDependency inp;
     isReferenceEdge := isRefEdge params (raw_op N) i |}
  ∈ edges (build graphDef params).1.1
  ∧ (∀ k, nodes (build graphDef params).1.1 !! k ≠ Some pS)
  ∧ ((∀ q Y, node graphDef !! q = Some Y → getStrictName (raw_name Y) ≠ raw_name S) →
     nodes (build graphDef params).1.1 !! raw_name S = None)
  ∧ ∃ nodeS nodeM,
      (build graphDef params).1.2 !! pS = Some nodeS
      ∧ op nodeS = raw_op S
      ∧ inputs nodeS = normalizeInputs (raw_input S)
      ∧ (build graphDef params).1.2 !! pM = Some nodeM
      ∧ op nodeM = raw_op M
      ∧ name nodeM = finalName params graphDef (raw_name M)
      ∧ pS ∈ outEmbeddings nodeM.
Proof.
  intros HS HM HN HkS HkM HkN Hunique Hprefix He Hem Hinp Hinps Hne.
  unfold finalName, nameDictionary in *. unfold build.
  pose proof (normalizeNames_classified params graphDef) as Hclass.
  pose proof (normalizeNames_store params graphDef pS S HS) as HstS.
  pose proof (normalizeNames_store params graphDef pM M HM) as HstM.
  pose proof (normalizeNames_store params graphDef pN N HN) as HstN.
  pose proof (normalizeNames_opNodes params graphDef pM M HM HkM) as HopM.
  pose proof (normalizeNames_opNodes params graphDef pN N HN HkN) as HopN.
  destruct (normalizeNames_outEmbedding params graphDef pS S HS HkS Hunique Hprefix)
    as (HinS & HoutS & Hpushed).
  destruct (Hpushed e He) as (embs & Hembs & HpS).
  assert ((∀ q Y, node graphDef !! q = Some Y →
             getStrictName (raw_name Y) ≠ raw_name S) →
          ∀ l, l ∈ opNodes (normalizeNames params graphDef).1 →
            ∃ n, store (normalizeNames params graphDef).1 !! l = Some n
                 ∧ name n ≠ raw_name S ∧ getStrictName (name n) ≠ raw_name S)
    as Hnames.
  { intros Hstrict.
    apply (normalizeNames_main_names params
             (λ k, k ≠ raw_name S ∧ getStrictName k ≠ raw_name S) graphDef pS S HS HkS).
    - intros q Y HY Hq. split; [|by apply (Hstrict q Y)].
      intros Hname. by apply Hq, (Hunique q Y).
    - intros x. split.
      + intros Hx. by rewrite <- Hx, startsWith_app in Hprefix.
      + unfold getStrictName. cbv zeta. rewrite app_assoc_string. intros Hx.
        by rewrite <- Hx, startsWith_app in Hprefix. }
  destruct (normalizeNames params graphDef) as [st graphDef']. simpl in *.
  set (dict := mapStrictHierarchy (nodeNames st) (embeddingNodeNames st)) in *.
  set (nS := (OpNodeImpl S).1) in *. set (nM := (OpNodeImpl M).1) in *.
  set (nN := (OpNodeImpl N).1) in *.
  unfold buildSlimGraph. fold dict. simpl.
  (* the first loop *)
  destruct Hclass as (Hnodup & Hmains & Hins & Houts).
  destruct (addNode_fold params st dict (conj Hnodup (conj Hmains (conj Hins Houts)))
              (opNodes st) {| nodes := ∅; edges := [] |} (store st) Hnodup)
    as (Hframe1 & Hedges1 & Hnodes1 & Hadded & _); [done|done|].
  pose proof (addNode_fold_keys params st dict
                (conj Hnodup (conj Hmains (conj Hins Houts)))
                (opNodes st) {| nodes := ∅; edges := [] |} (store st) Hnodup
                (eq_refl _) Hmains) as Hkeys.
  set (acc1 := foldl (addNode st dict) _ (opNodes st)) in *.
  pose proof (Hadded pM nM HopM HstM) as HM1.
  pose proof (Hadded pN nN HopN HstN) as HN1.
  destruct (agreeOn_lookup _ _ _ _ _ Hframe1 HstS) as (nS1 & HS1 & HframeS1).
  injection HframeS1 as HopS1 HinsS1.
  (* the second loop *)
  assert (agreeOn named acc1.2 (foldl (addInputs params st dict) acc1 (opNodes st)).2)
    as Hnamed2.
  { apply (foldl_invariant (λ acc, agreeOn named acc1.2 acc.2)); [done|].
    intros acc l Hacc. unfold agreeOn. by rewrite addInputs_named. }
  assert (nodes (foldl (addInputs params st dict) acc1 (opNodes st)).1 = nodes acc1.1)
    as Hnodes2.
  { apply (foldl_invariant (λ acc, nodes acc.1 = nodes acc1.1)); [done|].
    intros acc l Hacc. by rewrite addInputs_nodes. }
  pose proof (addInputs_fold_establish params st dict (opNodes st) acc1.1 acc1.2
                pN pS (added st dict nN) nS1 i inp e HopN) as Hedge.
  rewrite <- surjective_pairing in Hedge.
  set (acc2 := foldl (addInputs params st dict) acc1 (opNodes st)) in *.
  split; [|split; [|split]].
  - rewrite added_name, added_op, added_inputs in Hedge.
    unfold nN in Hedge. rewrite OpNodeImpl_name, OpNodeImpl_op, OpNodeImpl_inputs in Hedge.
    rewrite Hem in Hedge. apply Hedge; try done.
    + by rewrite Hinps.
    + by rewrite Hinps.
    + rewrite HinsS1. unfold nS. by rewrite OpNodeImpl_inputs.
  - intros k Hk. rewrite Hnodes2 in Hk.
    destruct (Hnodes1 k pS Hk) as [Hempty|HopS].
    { simpl in Hempty. by rewrite lookup_empty in Hempty. }
    destruct (Hmains pS HopS) as (n & Hn & Hkind).
    rewrite HstS in Hn. injection Hn as <-. unfold rawKind in HkS. unfold nS in Hkind.
    congruence.
  - intros Hstrict. rewrite Hnodes2.
    destruct (nodes acc1.1 !! raw_name S) as [l|] eqn:Hk; [exfalso|done].
    destruct (Hkeys _ _ Hk) as [Hempty|(n & Hl & Hn & Hkey)].
    { simpl in Hempty. by rewrite lookup_empty in Hempty. }
    destruct (Hnames Hstrict l Hl) as (n' & Hn' & Hne1 & Hne2).
    rewrite Hn in Hn'. injection Hn' as <-.
    unfold normalizedName in Hkey.
    destruct (dict !! name n) as [y|] eqn:Hy; [|done].
    apply mapStrictHierarchy_values in Hy as ->.
    by destruct (Str.nonEmpty (getStrictName (name n))).
  - destruct (agreeOn_lookup _ _ _ _ _ Hnamed2 HS1) as (nS2 & HS2 & HnamedS2).
    remember (added st dict nM) as aM eqn:HaM.
    destruct (agreeOn_lookup _ _ _ _ _ Hnamed2 HM1) as (nM2 & HM2 & HnamedM2).
    injection HnamedS2 as _ HopS2 HinsS2 _.
    injection HnamedM2 as HnameM2 HopM2 _ HoutM2.
    assert (agreeOn frame acc2.2 (renameInEmbeddings st dict acc2.2)) as Hframe3.
    { unfold agreeOn, renameInEmbeddings. by rewrite agreeOn_map_alters. }
    destruct (agreeOn_lookup _ _ _ _ _ Hframe3 HS2) as (nS3 & HS3 & HframeS3).
    injection HframeS3 as HopS3 HinsS3.
    exists nS3, nM2. split; [done|]. split; [|split; [|split; [|split; [|split]]]].
    + rewrite HopS3, HopS2, HopS1. apply OpNodeImpl_op.
    + rewrite HinsS3, HinsS2, HinsS1. apply OpNodeImpl_inputs.
    + unfold renameInEmbeddings. rewrite map_alters_other; [done|].
      intros k. by apply (main_not_inEmbedding params st
                            (conj Hnodup (conj Hmains (conj Hins Houts)))
                            (store st) pM nM).
    + rewrite HopM2, HaM, added_op. apply OpNodeImpl_op.
    + rewrite HnameM2, HaM, added_name. unfold nM. by rewrite OpNodeImpl_name.
    + rewrite HoutM2, HaM. rewrite (added_outEmbeddings st dict nM embs); [done|].
      unfold nM. by rewrite OpNodeImpl_name, <- Hem.
Qed.

(** C1, amended: in a graph description with plain names, let [S] be an
    out-embedding among the raw nodes, whose name no other raw node bears
    and which is outside the name space of the library; let [S] read the
    main node [M], let the main node [N] read [S] by its input at index
    [i], and let the final names of [M] and [N] differ. (Under a name that
    is a member of [Object.prototype] the dictionaries of [build] find the
    inherited member, and [build] throws a [TypeError] instead of making
    the edge.) Then the built graph has a direct edge from [M] to [N]
    whose reference flag is the entry of the table [refEdges] for the
    operation of [N] and the index [i]; no key of the node map refers to
    the node object of [S], and the name of [S] is no key of the node map
    when it is not the strict name of a raw node either; and the node
    object of [S] is on the out-embedding list of the node object of
    [M]. *)
Theorem C1_out_embedding_rerouted `{!RegExp}
    (params : BuildParams) (graphDef : GraphDef)
    (pS pM pN : loc) (S M N : NodeDef) (e inp : NormalizedInput) (i : nat) :
  plainNames graphDef = true →
  node graphDef !! pS = Some S →
  node graphDef !! pM = Some M →
  node graphDef !! pN = Some N →
  rawKind params S = OutEmbeddingNode →
  rawKind params M = MainNode →
  rawKind params N = MainNode →
  (∀ q Y, node graphDef !! q = Some Y → raw_name Y = raw_name S → q = pS) →
  Str.startsWith (raw_name S) FUNCTION_LIBRARY_NODE_PREFIX = false →
  e ∈ normalizeInputs (raw_input S) → input_name e = raw_name M →
  normalizeInputs (raw_input N) !! i = Some inp → input_name inp = raw_name S →
  finalName params graphDef (raw_name M) ≠ finalName params graphDef (raw_name N) →
  (∃ edge, edge ∈ edges (build graphDef params).1.1
           ∧ v edge = finalName params graphDef (raw_name M)
           ∧ w edge = finalName params graphDef (raw_name N)
           ∧ isReferenceEdge edge = isRefEdge params (raw_op N) i)
  ∧ (∀ k, nodes (build graphDef params).1.1 !! k ≠ Some pS)
  ∧ ((∀ q Y, node graphDef !! q = Some Y → getStrictName (raw_name Y) ≠ raw_name S) →
     nodes (build graphDef params).1.1 !! raw_name S = None)
  ∧ ∃ nodeS nodeM,
      (build graphDef params).1.2 !! pS = Some nodeS
      ∧ op nodeS = raw_op S
      ∧ inputs nodeS = normalizeInputs (raw_input S)
      ∧ (build graphDef params).1.2 !! pM = Some nodeM
      ∧ op nodeM = raw_op M
      ∧ name nodeM = finalName params graphDef (raw_name M)
      ∧ pS ∈ outEmbeddings nodeM.
Proof.
  intros _ HS HM HN HkS HkM HkN Hunique Hprefix He Hem Hinp Hinps Hne.
  destruct (out_embedding_rerouted params graphDef pS pM pN S M N e inp i)
    as (Hedge & Hobject & Hname & Hlists); try done.
  split; [|by split].
  eexists. split; [exact Hedge|]. by split.
Qed.

Lemma C1_witness :
  (∃ edge, edge ∈ edges (@build defaultRegExp summaryGraph DefaultBuildParams).1.1
           ∧ v edge = @finalName defaultRegExp DefaultBuildParams summaryGraph "M"
           ∧ w edge = @finalName defaultRegExp DefaultBuildParams summaryGraph "N"
           ∧ isReferenceEdge edge = isRefEdge DefaultBuildParams "Add" 0)
  ∧ (∀ k, nodes (@build defaultRegExp summaryGraph DefaultBuildParams).1.1 !! k ≠ Some 1)
  ∧ nodes (@build defaultRegExp summaryGraph DefaultBuildParams).1.1 !! "S" = None
  ∧ ∃ nodeS nodeM,
      (@build defaultRegExp summaryGraph DefaultBuildParams).1.2 !! 1 = Some nodeS
      ∧ op nodeS = "ScalarSummary"
      ∧ inputs nodeS = normalizeInputs (Some ["^M"])
      ∧ (@build defaultRegExp summaryGraph DefaultBuildParams).1.2 !! 0 = Some nodeM
      ∧ op nodeM = "Add"
      ∧ name nodeM = @finalName defaultRegExp DefaultBuildParams summaryGraph "M"
      ∧ 1 ∈ outEmbeddings nodeM.
Proof.
  destruct (@C1_out_embedding_rerouted defaultRegExp DefaultBuildParams summaryGraph
              1 0 2 (rawNode "S" "ScalarSummary" ["^M"]) (rawNode "M" "Add" [])
              (rawNode "N" "Add" ["S:1"])
              {| input_name := "M"; outputTensorKey := "0"; isControlDependency := true |}
              {| input_name := "S"; outputTensorKey := "1"; isControlDependency := false |}
              0)
    as (Hedge & Hobject & Hname & Hlists).
  - reflexivity.
  - reflexivity.
  - reflexivity.
  - reflexivity.
  - reflexivity.
  - reflexivity.
  - reflexivity.
  - intros [|[|[|q]]] Y HY Hname; simpl in HY; [| | |done];
      injection HY as <-; simpl in Hname; [discriminate|reflexivity|discriminate].
  - reflexivity.
  - apply list_elem_of_singleton. reflexivity.
  - reflexivity.
  - reflexivity.
  - reflexivity.
  - vm_compute. discriminate.
  - split; [exact Hedge|]. split; [exact Hobject|]. split; [|exact Hlists].
    apply Hname. intros [|[|[|q]]] Y HY; simpl in HY; [| | |done];
      injection HY as <-; vm_compute; discriminate.
Defined.

(** * Further properties *)

(** ** Strings, in general *)

Lemma cut_Some c s l r :
  Str.cut c s = Some (l, r) → s = l +:+ String c r ∧ Str.includes c l = false.
Proof.
  revert l. induction s as [|a s IH]; intros l; simpl; [done|].
  destruct (Ascii.eqb a c) eqn:Hac.
  - apply Ascii.eqb_eq in Hac as ->. by intros [= <- <-].
  - destruct (Str.cut c s) as [[l' r']|]; [|done]. intros [= <- <-].
    destruct (IH l' eq_refl) as [-> Hl']. split; [done|].
    simpl. by rewrite Hac.
Qed.

Lemma cut_app c l r :
  Str.includes c l = false → Str.cut c (l +:+ String c r) = Some (l, r).
Proof.
  induction l as [|a l IH]; intros Hl.
  - change (Str.cut c (String c r) = Some ("", r)). simpl. by rewrite Ascii.eqb_refl.
  - change (Str.cut c (String a (l +:+ String c r)) = Some (String a l, r)).
    simpl in *. destruct (Ascii.eqb a c); [done|]. by rewrite IH.
Qed.

Lemma includes_app c l r : Str.includes c (l +:+ String c r) = true.
Proof.
  induction l as [|a l IH].
  - change (Str.includes c (String c r) = true). simpl. by rewrite Ascii.eqb_refl.
  - change (Str.includes c (String a (l +:+ String c r)) = true).
    simpl. by destruct (Ascii.eqb a c).
Qed.

Lemma startsWith_cons (p a : ascii) (s : string) :
  Str.startsWith (String a s) (String p "") = if ascii_dec p a then true else false.
Proof.
  unfold Str.startsWith. simpl. destruct (ascii_dec p a); [by destruct s|done].
Qed.

Lemma startsWith_caret s :
  Str.startsWith s "^" = true → s = String "^" (Str.substringFrom 1 s).
Proof.
  destruct s as [|a s]; [done|]. rewrite startsWith_cons.
  destruct (ascii_dec "^" a) as [<-|]; intros; [reflexivity|discriminate].
Qed.

(** X1: the entry a raw input stands for loses nothing of it. The slot
    matches [(\w+:|)\d+], as the default ["0"] does, and the raw input is
    the caret of a control dependency, if the entry is one, followed either
    by the name alone, the slot being ["0"], or by the name, a colon and
    the slot, the name being non-empty and without colon. *)
Theorem parseInput_lossless (s : string) :
  tensorPart (outputTensorKey (parseInput s)) = true
  ∧ ((s = (if isControlDependency (parseInput s) then "^" else "")
            +:+ input_name (parseInput s)
      ∧ outputTensorKey (parseInput s) = "0")
     ∨ (s = (if isControlDependency (parseInput s) then "^" else "")
              +:+ input_name (parseInput s) +:+ ":" +:+ outputTensorKey (parseInput s)
        ∧ Str.nonEmpty (input_name (parseInput s)) = true
        ∧ Str.includes ":" (input_name (parseInput s)) = false)).
Proof.
  unfold parseInput.
  set (body := if Str.startsWith s "^" then Str.substringFrom 1 s else s).
  assert (s = (if Str.startsWith s "^" then "^" else "") +:+ body) as Hs.
  { unfold body. destruct (Str.startsWith s "^") eqn:Hc; [|done].
    by apply startsWith_caret in Hc. }
  destruct (Str.includes ":" body) eqn:Hinc; [|by split; [|left]].
  unfold INPUT_NAME_PART_MATCHER.
  destruct (Str.cut ":" body) as [[name rest]|] eqn:Hcut; [|by split; [|left]].
  destruct (Str.nonEmpty name && tensorPart rest) eqn:Hok; [|by split; [|left]].
  apply andb_prop in Hok as [Hname Hrest]. simpl.
  apply cut_Some in Hcut as [Hbody Hcolon].
  split; [done|]. right. split; [|done].
  rewrite Hs at 1. by rewrite Hbody.
Qed.

(** X2: a name that is not empty, has no colon and no caret in front,
    followed by a colon and a slot that matches [(\w+:|)\d+], is parsed
    back to that name and that slot; with a caret in front it is parsed to
    the same entry as a control dependency. *)
Theorem parseInput_round_trip (name slot : string) :
  Str.nonEmpty name = true →
  Str.includes ":" name = false →
  Str.startsWith name "^" = false →
  tensorPart slot = true →
  parseInput (name +:+ ":" +:+ slot)
  = {| input_name := name; outputTensorKey := slot; isControlDependency := false |}
  ∧ parseInput ("^" +:+ name +:+ ":" +:+ slot)
    = {| input_name := name; outputTensorKey := slot; isControlDependency := true |}.
Proof.
  intros Hname Hcolon Hcaret Hslot.
  assert (INPUT_NAME_PART_MATCHER (name +:+ ":" +:+ slot) = Some (name, slot)) as Hm.
  { unfold INPUT_NAME_PART_MATCHER.
    change (name +:+ ":" +:+ slot) with (name +:+ String ":" slot).
    by rewrite cut_app, Hname, Hslot. }
  split.
  - unfold parseInput.
    assert (Str.startsWith (name +:+ ":" +:+ slot) "^" = false) as ->.
    { destruct name as [|a name]; [done|].
      change (Str.startsWith (String a (name +:+ ":" +:+ slot)) "^" = false).
      by rewrite startsWith_cons in *. }
    change (name +:+ ":" +:+ slot) with (name +:+ String ":" slot) at 1.
    by rewrite includes_app, Hm.
  - unfold parseInput.
    change ("^" +:+ name +:+ ":" +:+ slot) with (String "^" (name +:+ String ":" slot)).
    rewrite startsWith_cons. destruct (ascii_dec "^" "^") as [_|]; [|done].
    change (Str.substringFrom 1 (String "^" (name +:+ String ":" slot)))
      with (name +:+ String ":" slot).
    rewrite includes_app.
    change (name +:+ String ":" slot) with (name +:+ ":" +:+ slot). by rewrite Hm.
Qed.

Lemma parseInput_round_trip_witness :
  parseInput ("scope/x" +:+ ":" +:+ "out:3")
  = {| input_name := "scope/x"; outputTensorKey := "out:3";
       isControlDependency := false |}
  ∧ parseInput ("^" +:+ "scope/x" +:+ ":" +:+ "out:3")
    = {| input_name := "scope/x"; outputTensorKey := "out:3";
         isControlDependency := true |}.
Proof. apply (parseInput_round_trip "scope/x" "out:3"); reflexivity. Defined.

Lemma normalizeInputs_from_keeps last inputs :
  noAdjacentSameSource (parseInput <$> inputs) →
  (∀ x, head inputs = Some x → last ≠ Some (input_name (parseInput x))) →
  normalizeInputs_from last inputs = parseInput <$> inputs.
Proof.
  revert last. induction inputs as [|x inputs IH]; intros last Hadj Hhead; [done|].
  simpl. rewrite decide_False by (by apply Hhead).
  f_equal. apply IH.
  - intros i a b Ha Hb. apply (Hadj (S i) a b); done.
  - intros y Hy. destruct inputs as [|z inputs]; [done|]. injection Hy as ->.
    intros [= Heq]. by apply (Hadj 0 (parseInput x) (parseInput y)).
Qed.

(** X3: [normalizeInputs] keeps an entry for every raw input exactly when
    no two neighbours among the parsed inputs name the same source; a
    source that comes back after another one is kept again. *)
Theorem normalizeInputs_keeps_all_iff (inputs : list string) :
  normalizeInputs (Some inputs) = parseInput <$> inputs
  ↔ noAdjacentSameSource (parseInput <$> inputs).
Proof.
  split.
  - intros <-. apply normalizeInputs_from_noAdjacent.
  - intros Hadj. apply normalizeInputs_from_keeps; [done|]. by intros x _.
Qed.

(** ** Strict names and paths, in general *)

Lemma length_app_string (a b : string) :
  String.length (a +:+ b) = String.length a + String.length b.
Proof.
  induction a as [|x a IH]; [done|].
  change (S (String.length (a +:+ b)) = S (String.length a + String.length b)).
  by rewrite IH.
Qed.

Lemma get_app_length (a : string) (c : ascii) (b : string) :
  String.get (String.length a) (a +:+ String c b) = Some c.
Proof. induction a as [|x a IH]; [done|exact IH]. Qed.

Lemma includes_append c (a b : string) :
  Str.includes c (a +:+ b) = Str.includes c a || Str.includes c b.
Proof.
  induction a as [|x a IH]; [done|].
  change (Str.includes c (String x (a +:+ b))
          = Str.includes c (String x a) || Str.includes c b).
  simpl. by destruct (Ascii.eqb x c).
Qed.

Lemma split_nonempty c s : Str.split c s ≠ [].
Proof.
  destruct s as [|a s]; simpl; [done|].
  destruct (Ascii.eqb a c); [done|]. by destruct (Str.split c s).
Qed.

Lemma split_app c (l r : string) :
  Str.split c (l +:+ String c r) = Str.split c l ++ Str.split c r.
Proof.
  induction l as [|a l IH].
  - change (Str.split c (String c r) = "" :: Str.split c r).
    simpl. by rewrite Ascii.eqb_refl.
  - change (Str.split c (String a (l +:+ String c r))
            = Str.split c (String a l) ++ Str.split c r).
    simpl. rewrite IH. destruct (Ascii.eqb a c); [done|].
    pose proof (split_nonempty c l). by destruct (Str.split c l).
Qed.

Lemma split_no_delim c s : Str.includes c s = false → Str.split c s = [s].
Proof.
  induction s as [|a s IH]; simpl; [done|].
  destruct (Ascii.eqb a c); [done|]. intros Hs. by rewrite IH.
Qed.

Lemma last_app_nonempty {A} (l1 l2 : list A) d :
  l2 ≠ [] → List.last (l1 ++ l2) d = List.last l2 d.
Proof.
  intros Hl2. induction l1 as [|x l1 IH]; [done|].
  simpl. rewrite IH. destruct (l1 ++ l2) eqn:Happ; [|done].
  by apply app_eq_nil in Happ as [_ ->].
Qed.

Lemma last_split_no_delim c s :
  Str.includes c (List.last (Str.split c s) "") = false.
Proof.
  induction s as [|a s IH]; [done|]. simpl.
  destruct (Ascii.eqb a c) eqn:Hac.
  - pose proof (split_nonempty c s). by destruct (Str.split c s).
  - destruct (Str.split c s) as [|p [|q ps]]; simpl in *; by rewrite ?Hac.
Qed.

(** The strict name is the name, a delimiter and the last component in
    brackets. *)
Lemma getStrictName_unfold name :
  getStrictName name
  = name +:+ String DELIM ("(" +:+ List.last (Str.split DELIM name) "" +:+ ")").
Proof. reflexivity. Qed.

Lemma last_split_getStrictName name :
  List.last (Str.split DELIM (getStrictName name)) ""
  = "(" +:+ List.last (Str.split DELIM name) "" +:+ ")".
Proof.
  rewrite getStrictName_unfold, split_app.
  rewrite last_app_nonempty by apply split_nonempty.
  rewrite split_no_delim; [done|].
  change (Str.includes DELIM (String "(" (List.last (Str.split DELIM name) "" +:+ ")"))
          = false).
  simpl. rewrite includes_append, last_split_no_delim. done.
Qed.

(** X4: for every name, the strict name of the strict name is the name
    followed by [/(b)/((b))], where [b] is the last path component of the
    name. It differs from the strict name, which differs from the name:
    [getStrictName] has no fixed point and is idempotent on no name. *)
Theorem getStrictName_never_idempotent (name : string) :
  getStrictName (getStrictName name)
  = name +:+ "/(" +:+ List.last (Str.split DELIM name) "" +:+ ")"
         +:+ "/((" +:+ List.last (Str.split DELIM name) "" +:+ "))"
  ∧ getStrictName (getStrictName name) ≠ getStrictName name
  ∧ getStrictName name ≠ name.
Proof.
  assert (∀ x, getStrictName x ≠ x) as Hne.
  { intros x Hx. apply (f_equal String.length) in Hx.
    rewrite getStrictName_unfold, length_app_string in Hx. simpl in Hx. lia. }
  split; [|by split].
  rewrite (getStrictName_unfold (getStrictName name)), last_split_getStrictName.
  rewrite getStrictName_unfold.
  change (String DELIM ?x) with ("/" +:+ x).
  by rewrite !app_assoc_string.
Qed.

(** X5: a name is one of the parent paths of its strict name, and the
    test of [mapStrictHierarchy] for a child finds the strict name under
    the name: a node renamed to its strict name lies in the namespace its
    old name has become. *)
Theorem getStrictName_child (name : string) :
  name ∈ removelast (getHierarchicalPath (getStrictName name) None)
  ∧ hasChildAfter name [getStrictName name] = true.
Proof.
  split.
  - rewrite removelast_getHierarchicalPath, getStrictName_unfold.
    apply (parentPaths_elem "" name).
  - simpl. rewrite getStrictName_unfold. rewrite startsWith_app.
    unfold Str.charAtIs. rewrite get_app_length, length_app_string. simpl.
    replace (_ <? _) with true; [done|]. symmetry. apply Nat.ltb_lt. lia.
Qed.

(** The converse of [parentPaths_elem]. *)
Lemma parentPaths_inv (pre s p : string) :
  p ∈ parentPaths pre s →
  ∃ E rest, p = pre +:+ E ∧ s = E +:+ String DELIM rest.
Proof.
  revert pre. induction s as [|a s IH]; intros pre Hp; simpl in Hp.
  - by apply elem_of_nil in Hp.
  - apply elem_of_app in Hp as [Hp|Hp].
    + destruct (Ascii.eqb a DELIM) eqn:Ha; [|by apply elem_of_nil in Hp].
      apply Ascii.eqb_eq in Ha as ->. apply list_elem_of_singleton in Hp as ->.
      exists "", s. by rewrite app_nil_r_string.
    + destruct (IH _ Hp) as (E & rest & -> & ->).
      exists (String a E), rest. by rewrite app_assoc_char.
Qed.

(** X6: the hierarchical path of a name holds exactly the proper prefixes
    of the name that end just before a delimiter, the series name of the
    node when [seriesNames] has one that is not empty, and the name
    itself, which comes last. *)
Theorem getHierarchicalPath_elem (name : string)
    (seriesNames : option (gmap string string)) (p : string) :
  (p ∈ getHierarchicalPath name seriesNames
   ↔ (∃ rest, name = p +:+ String DELIM rest)
     ∨ (∃ names, seriesNames = Some names ∧ names !! name = Some p ∧ p ≠ "")
     ∨ p = name)
  ∧ last (getHierarchicalPath name seriesNames) = Some name.
Proof.
  unfold getHierarchicalPath. split; [|by rewrite app_assoc, last_snoc].
  rewrite !elem_of_app, list_elem_of_singleton. split.
  - intros [Hp|[Hp|Hp]]; [left|right; left|right; by right].
    + apply parentPaths_inv in Hp as (E & rest & -> & ->). by exists rest.
    + destruct seriesNames as [names|]; [|by apply elem_of_nil in Hp].
      destruct (names !! name) as [seriesName|] eqn:Hs; [|by apply elem_of_nil in Hp].
      destruct seriesName as [|c seriesName]; [by apply elem_of_nil in Hp|].
      apply list_elem_of_singleton in Hp as ->. by exists names.
  - intros [[rest ->]|[(names & -> & Hs & Hne)|Hp]]; [left|right; left|right; by right].
    + apply (parentPaths_elem "" p).
    + rewrite Hs. destruct p; [done|]. by apply list_elem_of_singleton.
Qed.

(** X7: the name of a series node with a parent that is not empty lies
    under the parent: the parent is one of the parent paths of the series
    name, with or without identifiers. *)
Theorem getSeriesNodeName_under_parent (prefix suffix parent : string)
    (startId endId : option Z) :
  parent ≠ "" →
  parent ∈ removelast
             (getHierarchicalPath
                (getSeriesNodeName prefix suffix (Some parent) startId endId) None).
Proof.
  intros Hparent. rewrite removelast_getHierarchicalPath. unfold getSeriesNodeName.
  destruct parent as [|c parent]; [done|]. cbn [Str.nonEmpty].
  rewrite app_assoc_string. apply (parentPaths_elem "" (String c parent)).
Qed.

Lemma getSeriesNodeName_under_parent_witness :
  "scope"
  ∈ removelast
      (getHierarchicalPath
         (getSeriesNodeName "layer_" "/weights" (Some "scope") (Some 1%Z) (Some 12%Z))
         None).
Proof. apply getSeriesNodeName_under_parent. discriminate. Defined.

(** ** The order of the sorted names *)

Lemma compare_cons x a y b :
  String.compare (String x a) (String y b)
  = match Ascii.compare x y with
    | Eq => String.compare a b
    | Lt => Lt
    | Gt => Gt
    end.
Proof. reflexivity. Qed.

Lemma ascii_compare_refl x : Ascii.compare x x = Eq.
Proof. unfold Ascii.compare. apply N.compare_refl. Qed.

Lemma string_prefix_cons x a y b :
  String.prefix (String x a) (String y b)
  = if ascii_dec x y then String.prefix a b else false.
Proof. reflexivity. Qed.

(** A name between a name and one of its extensions is an extension of
    the name too. *)
Lemma string_prefix_between (a b c : string) :
  String.le a c → String.le c b →
  String.prefix a b = true → String.prefix a c = true.
Proof.
  unfold String.le, String.leb. revert b c.
  induction a as [|x a IH]; intros b c Hac Hcb Hpre; [by destruct c|].
  destruct b as [|y b]; [done|]. rewrite string_prefix_cons in Hpre.
  destruct (ascii_dec x y) as [<-|]; [|done].
  destruct c as [|z c]; [done|].
  rewrite compare_cons in Hac, Hcb. rewrite (Ascii.compare_antisym z x) in Hcb.
  destruct (Ascii.compare x z) eqn:Hxz; simpl in Hcb; [|done..].
  apply Ascii.compare_eq_iff in Hxz as <-.
  rewrite string_prefix_cons. destruct (ascii_dec x x); [|done]. by apply (IH b).
Qed.

Lemma string_le_app (a r : string) : String.le a (a +:+ r).
Proof.
  unfold String.le, String.leb. induction a as [|x a IH]; [by destruct r|].
  change (String x a +:+ r) with (String x (a +:+ r)).
  by rewrite compare_cons, ascii_compare_refl.
Qed.

Lemma string_prefix_inv (a b : string) :
  String.prefix a b = true → ∃ r, b = a +:+ r.
Proof.
  revert b. induction a as [|x a IH]; intros b Hpre; [by exists b|].
  destruct b as [|y b]; [done|]. rewrite string_prefix_cons in Hpre.
  destruct (ascii_dec x y) as [<-|]; [|done].
  destruct (IH b Hpre) as [r ->]. by exists r.
Qed.

Lemma get_app_length_inv (a r : string) (c : ascii) :
  String.get (String.length a) (a +:+ r) = Some c → ∃ rest, r = String c rest.
Proof.
  induction a as [|x a IH]; [|exact IH].
  destruct r as [|y r]; [done|]. simpl. intros [= ->]. by exists r.
Qed.

Lemma childTest_true a b :
  childTest a b = true ↔ ∃ rest, b = a +:+ String DELIM rest.
Proof.
  unfold childTest, Str.charAtIs. split.
  - intros [Hpre [_ Hget]%andb_prop]%andb_prop.
    apply string_prefix_inv in Hpre as [r ->].
    destruct (String.get _ _) as [c|] eqn:Hc; [|done].
    apply Ascii.eqb_eq in Hget as ->. apply get_app_length_inv in Hc as [rest ->].
    by exists rest.
  - intros [rest ->]. rewrite startsWith_app, get_app_length, length_app_string.
    simpl. replace (_ <? _) with true; [done|]. symmetry. apply Nat.ltb_lt. lia.
Qed.

Lemma hasChildAfter_unfold a b later :
  hasChildAfter a (b :: later)
  = if Str.startsWith b a
    then if childTest a b then true else hasChildAfter a later
    else false.
Proof. unfold childTest. simpl. by destruct (Str.startsWith b a). Qed.

Lemma hasChildAfter_sound a later :
  hasChildAfter a later = true →
  ∃ rest, a +:+ String DELIM rest ∈ later.
Proof.
  induction later as [|b later IH]; [done|]. rewrite hasChildAfter_unfold.
  destruct (Str.startsWith b a); [|done].
  destruct (childTest a b) eqn:Hb.
  - intros _. apply childTest_true in Hb as [rest ->]. exists rest. by left.
  - intros [rest Hrest]%IH. exists rest. by right.
Qed.

Lemma hasChildAfter_complete a later rest :
  StronglySorted String.le (a :: later) →
  a +:+ String DELIM rest ∈ later →
  hasChildAfter a later = true.
Proof.
  intros [Hsorted Ha]%StronglySorted_inv. revert Hsorted Ha.
  induction later as [|c later IH]; intros Hsorted Ha Hin; [by apply elem_of_nil in Hin|].
  apply StronglySorted_inv in Hsorted as [Hsorted Hc].
  apply Forall_cons in Ha as [Hac Ha].
  rewrite hasChildAfter_unfold.
  assert (String.le c (a +:+ String DELIM rest)) as Hcb.
  { apply elem_of_cons in Hin as [<-|Hin]; [done|].
    by apply (proj1 (Forall_forall _ _) Hc). }
  assert (Str.startsWith c a = true) as ->.
  { apply (string_prefix_between a (a +:+ String DELIM rest) c); [done..|].
    apply startsWith_app. }
  destruct (childTest a c) eqn:Hchild; [done|].
  apply IH; [done..|].
  apply elem_of_cons in Hin as [<-|Hin]; [|done].
  assert (childTest a (a +:+ String DELIM rest) = true) as Htrue
    by (apply childTest_true; eauto).
  congruence.
Qed.

(** ** The dictionary of the main names *)

Lemma strictLoop_dict_mono names dict set k :
  is_Some (dict !! k) → is_Some ((strictLoop names (dict, set)).1 !! k).
Proof.
  revert dict set. induction names as [|a [|b later] IH]; intros dict set Hk; [done..|].
  rewrite strictLoop_cons. apply IH.
  destruct (hasChildAfter a (b :: later)); [|done].
  rewrite lookup_assignPrimitive. case_decide; [eauto|done].
Qed.

Lemma strictLoop_dict_inv names dict set k :
  is_Some ((strictLoop names (dict, set)).1 !! k) →
  is_Some (dict !! k)
  ∨ (k ≠ "__proto__" ∧ k ∈ names ∧ ∃ rest, k +:+ String DELIM rest ∈ names).
Proof.
  revert dict set. induction names as [|a [|b later] IH]; intros dict set Hk;
    [by left..|].
  rewrite strictLoop_cons in Hk. apply IH in Hk as [Hk|(Hproto & Hk & rest & Hrest)].
  - destruct (hasChildAfter a (b :: later)) eqn:Hchild; [|by left].
    rewrite lookup_assignPrimitive in Hk. case_decide as Ha; [|by left].
    destruct Ha as [-> Hproto]. right. split; [done|]. split; [by left|].
    apply hasChildAfter_sound in Hchild as [rest Hrest]. exists rest. by right.
  - right. split; [done|]. split; [by right|]. exists rest. by right.
Qed.

Lemma strictLoop_namespaces_inv names dict set p :
  hasProperty (strictLoop names (dict, set)).2 p = true →
  hasProperty set p = true ∨ ∃ a, a ∈ names ∧ p ∈ parentPaths "" a.
Proof.
  revert dict set. induction names as [|a [|b later] IH]; intros dict set Hp;
    [by left..|].
  rewrite strictLoop_cons in Hp. apply IH in Hp as [Hp|(a' & Ha' & Hp)].
  - apply namespaces_hasProperty in Hp as [Hp|Hp]; [|by left].
    rewrite removelast_getHierarchicalPath in Hp. right. exists a. split; [by left|done].
  - right. exists a'. split; [by right|done].
Qed.

Lemma child_not_le (a rest : string) : ¬ String.le (a +:+ String DELIM rest) a.
Proof.
  intros Hle. pose proof (string_le_app a (String DELIM rest)) as Hle'.
  pose proof (anti_symm String.le _ _ Hle Hle') as Heq.
  apply (f_equal String.length) in Heq. rewrite length_app_string in Heq.
  simpl in Heq. lia.
Qed.

Lemma strictLoop_complete names dict set a rest :
  StronglySorted String.le names → a ≠ "__proto__" →
  a ∈ names → a +:+ String DELIM rest ∈ names →
  is_Some ((strictLoop names (dict, set)).1 !! a).
Proof.
  revert dict set.
  induction names as [|x [|y later] IH]; intros dict set Hsorted Hproto Ha Hb.
  - by apply elem_of_nil in Ha.
  - apply list_elem_of_singleton in Ha as ->. apply list_elem_of_singleton in Hb.
    apply (f_equal String.length) in Hb. rewrite length_app_string in Hb.
    simpl in Hb. lia.
  - rewrite strictLoop_cons.
    pose proof Hsorted as [Hsorted' Hx]%StronglySorted_inv.
    assert (a +:+ String DELIM rest ≠ x) as Hbx.
    { intros <-. apply elem_of_cons in Ha as [Ha|Ha].
      - apply (f_equal String.length) in Ha. rewrite length_app_string in Ha.
        simpl in Ha. lia.
      - apply (child_not_le a rest). by apply (proj1 (Forall_forall _ _) Hx). }
    apply elem_of_cons in Hb as [Hb|Hb]; [done|].
    apply elem_of_cons in Ha as [->|Ha].
    + rewrite (hasChildAfter_complete x (y :: later) rest) by done.
      apply strictLoop_dict_mono. rewrite lookup_assignPrimitive.
      by rewrite decide_True.
    + by apply IH.
Qed.

(** No assignment makes an entry for [__proto__]. *)
Lemma strictLoop_proto names dict set :
  dict !! "__proto__" = None →
  (strictLoop names (dict, set)).1 !! "__proto__" = None.
Proof.
  revert dict set. induction names as [|a [|b later] IH]; intros dict set Hk; [done..|].
  rewrite strictLoop_cons. apply IH.
  destruct (hasChildAfter a (b :: later)); [|done].
  rewrite lookup_assignPrimitive. rewrite decide_False; [done|]. by intros [-> ?].
Qed.

Lemma mapStrictHierarchy_proto nodeNames embeddingNodeNames :
  mapStrictHierarchy nodeNames embeddingNodeNames !! "__proto__" = None.
Proof.
  unfold mapStrictHierarchy.
  pose proof (strictLoop_proto (merge_sort String.le nodeNames) ∅ ∅) as Hloop.
  destruct (strictLoop _ (∅, ∅)) as [dict set]. simpl in Hloop.
  rewrite renameEmbeddings_lookup. rewrite decide_False; [by apply Hloop|].
  by intros (_ & _ & ?).
Qed.

Lemma merge_sort_elem (l : list string) x : x ∈ merge_sort String.le l ↔ x ∈ l.
Proof. by rewrite merge_sort_Permutation. Qed.

(** X8: a main name that is a strict path prefix of another main name
    (the names [a] and [a/rest] are both main names) is mapped to its
    strict name, whatever the other names and the order of the list;
    unless it is [__proto__], for which the assignment to the dictionary
    makes no entry. *)
Theorem mapStrictHierarchy_namespace_renamed
    (nodeNames embeddingNodeNames : list string) (a rest : string) :
  a ∈ nodeNames → a +:+ String DELIM rest ∈ nodeNames →
  mapStrictHierarchy nodeNames embeddingNodeNames !! a
  = if decide (a = "__proto__") then None else Some (getStrictName a).
Proof.
  intros Ha Hb. destruct (decide (a = "__proto__")) as [->|Hproto].
  { apply mapStrictHierarchy_proto. }
  assert (is_Some (mapStrictHierarchy nodeNames embeddingNodeNames !! a)) as [y Hy].
  { unfold mapStrictHierarchy.
    pose proof (strictLoop_complete (merge_sort String.le nodeNames) ∅ ∅ a rest) as Hloop.
    destruct (strictLoop _ (∅, ∅)) as [dict set]. simpl in Hloop.
    rewrite renameEmbeddings_lookup. case_decide; [done|]. apply Hloop.
    - apply StronglySorted_merge_sort; apply _.
    - done.
    - by apply merge_sort_elem.
    - by apply merge_sort_elem. }
  rewrite Hy. f_equal. by apply mapStrictHierarchy_values in Hy.
Qed.

Lemma mapStrictHierarchy_namespace_renamed_witness :
  mapStrictHierarchy ["train/loss/mean"; "eval"; "train/loss"] ["train"]
    !! "train/loss"
  = Some (getStrictName "train/loss").
Proof.
  apply (mapStrictHierarchy_namespace_renamed _ _ "train/loss" "mean").
  - repeat constructor.
  - repeat constructor.
Defined.

(** The main name [__proto__] has a node under it and is not renamed. *)
Example mapStrictHierarchy_proto_namespace :
  mapStrictHierarchy ["__proto__"; "__proto__/x"] [] = ∅.
Proof. reflexivity. Qed.

(** X9: every entry of the dictionary maps a main name or an embedding
    name other than [__proto__] to its strict name. That name is a strict
    path prefix of a main name, or it is an embedding name that is a member
    of [Object.prototype], which the test [in] finds in the namespace set
    as in every object: apart from these members, a name under which no
    main node lies is not renamed. *)
Theorem mapStrictHierarchy_renames_namespaces_only
    (nodeNames embeddingNodeNames : list string) (k y : string) :
  mapStrictHierarchy nodeNames embeddingNodeNames !! k = Some y →
  y = getStrictName k
  ∧ k ≠ "__proto__"
  ∧ (k ∈ nodeNames ∨ k ∈ embeddingNodeNames)
  ∧ ((∃ rest, k +:+ String DELIM rest ∈ nodeNames)
     ∨ (k ∈ embeddingNodeNames ∧ inherited k = true)).
Proof.
  intros Hk. split; [by apply mapStrictHierarchy_values in Hk|].
  split; [intros ->; by rewrite mapStrictHierarchy_proto in Hk|].
  unfold mapStrictHierarchy in Hk.
  pose proof (strictLoop_dict_inv (merge_sort String.le nodeNames) ∅ ∅ k) as Hdict.
  pose proof (strictLoop_namespaces_inv (merge_sort String.le nodeNames) ∅ ∅ k) as Hset.
  destruct (strictLoop _ (∅, ∅)) as [dict set]. simpl in Hdict, Hset.
  rewrite renameEmbeddings_lookup in Hk. case_decide as Hemb.
  - destruct Hemb as (Hemb & Hns & _). split; [by right|].
    destruct (Hset Hns) as [Hempty|(a & Ha & Hp)].
    { right. split; [done|]. unfold hasProperty in Hempty.
      rewrite lookup_empty in Hempty.
      rewrite bool_decide_eq_false_2 in Hempty; [done|]. by intros [? ?]. }
    left. apply parentPaths_inv in Hp as (E & rest & HE & ->).
    change ("" +:+ E) with E in HE. subst E.
    exists rest. by apply merge_sort_elem.
  - destruct Hdict as [Hempty|(_ & Hin & rest & Hrest)]; [by eexists| |].
    { rewrite lookup_empty in Hempty. by destruct Hempty. }
    split; [left; by apply merge_sort_elem|].
    left. exists rest. by apply merge_sort_elem.
Qed.

Lemma mapStrictHierarchy_renames_namespaces_only_witness :
  "A/(A)" = getStrictName "A"
  ∧ "A" ≠ "__proto__"
  ∧ ("A" ∈ ["A"; "A/B"] ∨ "A" ∈ @nil string)
  ∧ ((∃ rest, "A" +:+ String DELIM rest ∈ ["A"; "A/B"])
     ∨ ("A" ∈ @nil string ∧ inherited "A" = true)).
Proof.
  apply (mapStrictHierarchy_renames_namespaces_only ["A"; "A/B"] [] "A" "A/(A)").
  vm_compute. reflexivity.
Defined.

(** An embedding named as a member of [Object.prototype] is renamed
    although no main node lies under it. *)
Example mapStrictHierarchy_inherited_embedding :
  mapStrictHierarchy ["x"] ["constructor"]
  = {[ "constructor" := "constructor/(constructor)" ]}.
Proof. reflexivity. Qed.

(** X10: the dictionary does not depend on the order of the main names:
    two lists that are permutations of each other give the same
    dictionary. *)
Theorem mapStrictHierarchy_order_irrelevant
    (nodeNames nodeNames' embeddingNodeNames : list string) :
  nodeNames ≡ₚ nodeNames' →
  mapStrictHierarchy nodeNames embeddingNodeNames
  = mapStrictHierarchy nodeNames' embeddingNodeNames.
Proof.
  intros Hperm. unfold mapStrictHierarchy.
  replace (merge_sort String.le nodeNames') with (merge_sort String.le nodeNames);
    [done|].
  apply (Sorted_unique String.le).
  - apply Sorted_merge_sort; apply _.
  - apply Sorted_merge_sort; apply _.
  - by rewrite !merge_sort_Permutation.
Qed.

Lemma mapStrictHierarchy_order_irrelevant_witness :
  mapStrictHierarchy ["A/B"; "A"] ["C"] = mapStrictHierarchy ["A"; "A/B"] ["C"].
Proof.
  apply mapStrictHierarchy_order_irrelevant. apply perm_swap.
Defined.

(** ** Attributes *)

(** [extractXlaCluster] reads from the list [extractOutputShapes] leaves
    what it reads from the list as it was. *)
Lemma extractOutputShapes_from_xla (attr : list Attr) :
  extractXlaCluster_from (extractOutputShapes_from attr).2
  = extractXlaCluster_from attr.
Proof.
  induction attr as [|a attr IH]; [done|]. simpl.
  destruct (decide (key a = OUTPUT_SHAPES_KEY)) as [Ha|Ha].
  - destruct (list_shape (value a)); [|done]. simpl.
    rewrite decide_False; [done|]. by rewrite Ha.
  - destruct (extractOutputShapes_from attr) as [result rest]. simpl in *.
    by rewrite IH.
Qed.

(** X11: [extractOutputShapes] on a list of attributes. When it returns
    [null] the list is left as it is. When it returns shapes, they are
    those of the first attribute with the key [_output_shapes], which has a
    shape list, and that attribute alone is removed, the others staying in
    their order. In both cases [extractXlaCluster] reads from the list
    that is left what it reads from the list as it was. *)
Theorem extractOutputShapes_removes_what_it_reads (attr : list Attr) :
  extractXlaCluster_from (extractOutputShapes_from attr).2
  = extractXlaCluster_from attr
  ∧ match (extractOutputShapes_from attr).1 with
    | None => (extractOutputShapes_from attr).2 = attr
    | Some shapes =>
        ∃ before a after protos,
          attr = before ++ a :: after
          ∧ (extractOutputShapes_from attr).2 = before ++ after
          ∧ Forall (λ b, key b ≠ OUTPUT_SHAPES_KEY) before
          ∧ key a = OUTPUT_SHAPES_KEY
          ∧ list_shape (value a) = Some protos
          ∧ shapes = shapeOf <$> protos
    end.
Proof.
  split; [apply extractOutputShapes_from_xla|].
  induction attr as [|a attr IH]; [done|]. simpl.
  destruct (decide (key a = OUTPUT_SHAPES_KEY)) as [Ha|Ha].
  - destruct (list_shape (value a)) as [protos|] eqn:Hshape; [|done]. simpl.
    by exists [], a, attr, protos.
  - destruct (extractOutputShapes_from attr) as [result rest]. simpl in *.
    destruct result as [shapes|]; [|by rewrite IH].
    destruct IH as (before & a' & after & protos & -> & -> & Hbefore & Ha' & Hs & ->).
    exists (a :: before), a', after, protos. repeat split; try done.
    by apply Forall_cons.
Qed.

(** ** Run-time statistics, in general *)

Lemma foldl_addAlloc (t : Z) allocs :
  foldl addAlloc t allocs
  = (t + foldr Z.add 0 ((λ a, Z.max 0 (default 0 (total_bytes a))) <$> allocs))%Z.
Proof.
  revert t. induction allocs as [|a allocs IH]; intros t; [simpl; lia|].
  rewrite fmap_cons. cbn [foldl foldr]. rewrite IH.
  generalize (foldr Z.add 0%Z
                ((λ a, Z.max 0 (default 0%Z (total_bytes a))) <$> allocs)).
  intros r. unfold addAlloc. destruct (total_bytes a) as [bytes|]; simpl; [|lia].
  destruct (Z.eqb_spec bytes 0); [lia|]. destruct (Z.ltb_spec 0 bytes); lia.
Qed.

Lemma sum_of_positive_take (k : nat) (allocs : list AllocatorMemoryUsed) :
  (0 ≤ foldr Z.add 0 ((λ a, Z.max 0 (default 0 (total_bytes a))) <$> take k allocs)
     ≤ foldr Z.add 0 ((λ a, Z.max 0 (default 0 (total_bytes a))) <$> allocs))%Z.
Proof.
  set (f := λ a : AllocatorMemoryUsed, Z.max 0 (default 0%Z (total_bytes a))).
  assert (∀ l, (0 ≤ foldr Z.add 0 (f <$> l))%Z) as Hpos.
  { induction l as [|a l IH]; [done|]. rewrite fmap_cons. cbn [foldr].
    unfold f at 1. lia. }
  revert k. induction allocs as [|a allocs IH]; intros k.
  - rewrite take_nil. split; [apply Hpos|done].
  - destruct k as [|k].
    + rewrite take_0. split; [apply Hpos|]. apply (Hpos (a :: allocs)).
    + rewrite firstn_cons, !fmap_cons. cbn [foldr]. specialize (IH k).
      assert (0 ≤ f a)%Z as Hfa by (unfold f; lia). lia.
Qed.

(** X12: when the sum of the [total_bytes] of the allocations of a trace
    entry that are positive is a safe integer, the byte count the entry
    passes to [addBytesAllocation] is that sum, and it is not negative:
    the running total is a safe integer after every allocation, so that
    each addition of the code is exact. *)
Theorem totalBytesOf_sum_of_positive (nodeStats : NodeExecStats) :
  (foldr Z.add 0
     ((λ a, Z.max 0 (default 0 (total_bytes a))) <$> default [] (memory nodeStats))
   ≤ MAX_SAFE_INTEGER)%Z →
  totalBytesOf nodeStats
  = foldr Z.add 0%Z
      ((λ a, Z.max 0 (default 0%Z (total_bytes a))) <$> default [] (memory nodeStats))
  ∧ (0 ≤ totalBytesOf nodeStats)%Z
  ∧ ∀ k, (0 ≤ foldl addAlloc 0 (take k (default [] (memory nodeStats)))
            ≤ MAX_SAFE_INTEGER)%Z.
Proof.
  intros Hsafe.
  assert (totalBytesOf nodeStats
          = foldr Z.add 0%Z
              ((λ a, Z.max 0 (default 0%Z (total_bytes a)))
                 <$> default [] (memory nodeStats))) as Heq.
  { unfold totalBytesOf. destruct (memory nodeStats) as [allocs|]; [|done].
    by rewrite foldl_addAlloc. }
  split; [done|]. split.
  - rewrite Heq. pose proof (sum_of_positive_take 0 (default [] (memory nodeStats))).
    lia.
  - intros k. rewrite foldl_addAlloc.
    pose proof (sum_of_positive_take k (default [] (memory nodeStats))). lia.
Qed.

Lemma totalBytesOf_sum_of_positive_witness :
  totalBytesOf {| node_name := "A"; all_start_micros := None;
                  all_end_rel_micros := None;
                  memory := Some [ {| total_bytes := Some 32%Z |};
                                   {| total_bytes := Some (-5)%Z |};
                                   {| total_bytes := Some 8%Z |} ];
                  output := None |}
  = 40%Z.
Proof.
  apply (totalBytesOf_sum_of_positive
           {| node_name := "A"; all_start_micros := None;
              all_end_rel_micros := None;
              memory := Some [ {| total_bytes := Some 32%Z |};
                               {| total_bytes := Some (-5)%Z |};
                               {| total_bytes := Some 8%Z |} ];
              output := None |}).
  vm_compute. discriminate.
Defined.

Lemma structure_alter f (l : loc) (h : list OpNode) :
  (∀ n, structure (f n) = structure n) → structure <$> alter f l h = structure <$> h.
Proof. apply agreeOn_alter. Qed.

Lemma callStats_structure c n : structure (callStats c n) = structure n.
Proof. unfold callStats. by destruct (stats n). Qed.

Lemma ensureStats_structure size n : structure (ensureStats size n) = structure n.
Proof. unfold ensureStats. by destruct (stats n). Qed.

Lemma joinNodeStats_structure device graph h nodeStats :
  structure <$> (joinNodeStats device (graph, h) nodeStats).2 = structure <$> h.
Proof.
  unfold joinNodeStats.
  destruct (nodes graph !! lookupName graph nodeStats) as [l|]; [|done]. simpl.
  destruct (all_end_rel_micros nodeStats) as [rel|];
    [destruct (Z.eqb rel 0); [|destruct (Z.ltb 0 rel)]|];
    rewrite ?(structure_alter (callStats _)) by apply callStats_structure;
    rewrite (structure_alter (ensureStats _)) by apply ensureStats_structure;
    by rewrite structure_alter.
Qed.

Lemma foldl_joinNodeStats_structure device graph h entries :
  structure <$> (foldl (joinNodeStats device) (graph, h) entries).2 = structure <$> h.
Proof.
  revert h. induction entries as [|e entries IH]; intros h; [done|].
  cbn [foldl]. pose proof (joinNodeStats_graph device graph h e) as Hg.
  pose proof (joinNodeStats_structure device graph h e) as Hs.
  destruct (joinNodeStats device (graph, h) e) as [g h']. simpl in Hg, Hs. subst g.
  by rewrite IH.
Qed.

Lemma foldl_joinDevStats_structure devicesForStats graph h devs :
  structure <$> (foldl (joinDevStats devicesForStats) (graph, h) devs).2
  = structure <$> h.
Proof.
  revert h. induction devs as [|d devs IH]; intros h; [done|].
  cbn [foldl]. pose proof (joinDevStats_graph devicesForStats graph h d) as Hg.
  assert (structure <$> (joinDevStats devicesForStats (graph, h) d).2 = structure <$> h)
    as Hs.
  { unfold joinDevStats. destruct (deviceSelected _ _); [|done].
    apply foldl_joinNodeStats_structure. }
  destruct (joinDevStats devicesForStats (graph, h) d) as [g h']. simpl in Hg, Hs.
  subst g. by rewrite IH.
Qed.

Lemma lookupName_key graph e l :
  nodes graph !! lookupName graph e = Some l → l ∈ (map_img (nodes graph) : gset loc).
Proof. intros Hl. apply elem_of_map_img. eauto. Qed.

(** X13: the merge of the statistics returns the graph it is given; of a
    node object it writes [device] and [stats] only; the store keeps its
    length; and a node object the node map does not refer to, such as an
    embedding, is left as it is, statistics included. *)
Theorem joinStatsInfoWithGraph_frame (graph : SlimGraph) (h : list OpNode)
    (stats : StepStats) (devicesForStats : option (gmap string bool)) :
  (joinStatsInfoWithGraph graph h stats devicesForStats).1 = graph
  ∧ structure <$> (joinStatsInfoWithGraph graph h stats devicesForStats).2
    = structure <$> h
  ∧ length (joinStatsInfoWithGraph graph h stats devicesForStats).2 = length h
  ∧ ∀ l, l ∉ (map_img (nodes graph) : gset loc) →
      (joinStatsInfoWithGraph graph h stats devicesForStats).2 !! l = h !! l.
Proof.
  assert (structure <$> (joinStatsInfoWithGraph graph h stats devicesForStats).2
          = structure <$> h) as Hs.
  { unfold joinStatsInfoWithGraph. rewrite foldl_joinDevStats_structure.
    unfold resetStats. by apply agreeOn_map_alters. }
  split; [apply joinStatsInfoWithGraph_graph|]. split; [done|]. split.
  - apply (f_equal length) in Hs. by rewrite !length_fmap in Hs.
  - intros l Hl. unfold joinStatsInfoWithGraph.
    rewrite foldl_joinDevStats_other.
    + rewrite resetStats_lookup. by rewrite decide_False.
    + intros d e _ _ _ He. by apply Hl, (lookupName_key graph e).
Qed.





(** ** Metaedges *)

Lemma count_cons {A} (p : A → bool) x l :
  count p (x :: l) = (if p x then 1 else 0) + count p l.
Proof. unfold count. simpl. by destruct (p x). Qed.

Lemma addBaseEdges_counters edges m h m' h' :
  addBaseEdges edges m h = Some (m', h') →
  baseEdgeList m' = baseEdgeList m ++ edges
  ∧ numControlEdges m' = numControlEdges m + count edge_isControlDependency edges
  ∧ numRegularEdges m'
    = numRegularEdges m + count (λ e, negb (edge_isControlDependency e)) edges
  ∧ numRefEdges m' = numRefEdges m + count isReferenceEdge edges
  ∧ metaedge_v m' = metaedge_v m ∧ metaedge_w m' = metaedge_w m
  ∧ hierarchy_node h' = hierarchy_node h.
Proof.
  revert m h. induction edges as [|e edges IH]; intros m h Hadd; simpl in Hadd.
  - injection Hadd as <- <-. unfold count. simpl. rewrite app_nil_r. repeat split; lia.
  - destruct (addBaseEdge e m h) as [[m1 h1]|] eqn:He; [|done].
    destruct (IH _ _ Hadd) as (Hl & Hc & Hr & Hf & Hv & Hw & Hn).
    unfold addBaseEdge, computeSizeOfEdge in He.
    destruct (hierarchy_node h (v e)) as [opNode|]; [|done].
    rewrite !count_cons.
    destruct (outputShapes opNode); injection He as <- <-; simpl in *;
      rewrite Hl, Hc, Hr, Hf, <- app_assoc;
      (repeat split; try done);
      destruct (edge_isControlDependency e), (isReferenceEdge e); simpl; lia.
Qed.

(** X16: after successive calls of [addBaseEdge] on a new metaedge,
    [baseEdgeList] holds the edges in the order of the calls,
    [numControlEdges], [numRegularEdges] and [numRefEdges] are the numbers
    of control, other and reference edges, the first two add up to the
    number of edges and the third does not exceed it. *)
Theorem metaedge_counters (v w : string) (edges : list BaseEdge)
    (h h' : Hierarchy) (m' : Metaedge) :
  addBaseEdges edges (createMetaedge v w) h = Some (m', h') →
  baseEdgeList m' = edges
  ∧ numControlEdges m' = count edge_isControlDependency edges
  ∧ numRegularEdges m' = count (λ e, negb (edge_isControlDependency e)) edges
  ∧ numRefEdges m' = count isReferenceEdge edges
  ∧ numRegularEdges m' + numControlEdges m' = length edges
  ∧ numRefEdges m' ≤ length edges.
Proof.
  intros Hadd.
  destruct (addBaseEdges_counters _ _ _ _ _ Hadd) as (Hl & Hc & Hr & Hf & _).
  simpl in *. split; [done|]. split; [done|]. split; [done|]. split; [done|].
  rewrite Hc, Hr, Hf. clear. unfold count. split.
  - induction edges as [|e edges IH]; simpl; [done|].
    destruct (edge_isControlDependency e); simpl; lia.
  - induction edges as [|e edges IH]; simpl; [done|].
    destruct (isReferenceEdge e); simpl; lia.
Qed.

Lemma metaedge_counters_witness :
  ∃ m' h',
    addBaseEdges exampleEdges (createMetaedge "X" "N") exampleHierarchy = Some (m', h')
    ∧ baseEdgeList m' = exampleEdges
    ∧ numControlEdges m' = 1 ∧ numRegularEdges m' = 1 ∧ numRefEdges m' = 1
    ∧ numRegularEdges m' + numControlEdges m' = 2.
Proof.
  eexists _, _. split; [reflexivity|].
  destruct (metaedge_counters "X" "N" exampleEdges exampleHierarchy _ _ eq_refl)
    as (Hl & Hc & Hr & Hf & Hsum & _).
  exact (conj Hl (conj Hc (conj Hr (conj Hf Hsum)))).
Defined.





Lemma timesDim_bound (dims : list (option Z)) (actual : list Z) (acc acc' : Z) :
  Forall2 (λ d a, (d = Some (-1)%Z ∧ (1 ≤ a)%Z) ∨ (d = Some a ∧ (0 ≤ a)%Z))
          dims actual →
  (0 ≤ acc ≤ acc')%Z →
  ∃ s, foldl timesDim (Some acc) dims = Some s
       ∧ (0 ≤ s ≤ foldl Z.mul acc' actual)%Z.
Proof.
  intros Hdims. revert acc acc'.
  induction Hdims as [|d a dims actual Hd _ IH]; intros acc acc' Hacc.
  - exists acc. by split.
  - cbn [foldl]. unfold timesDim at 2.
    destruct Hd as [[-> Ha]|[-> Ha]].
    + rewrite decide_True by done. simpl. apply IH. nia.
    + destruct (decide (Some a = Some (-1)%Z)) as [[= ->]|_]; [lia|].
      simpl. apply IH. nia.
Qed.

(** X18: the size computed for a shape is a lower bound. When each
    dimension is [-1], the real size being 1 or more, or is the real size,
    which is not negative, and the running products of the real sizes are
    safe integers, the result is a number between 0 and the product of the
    real sizes; the running product of the code is a safe integer after
    every dimension, so that each multiplication is exact. *)
Theorem sizeOfShape_lower_bound (dims : list (option Z)) (actual : list Z) :
  Forall2 (λ d a, (d = Some (-1)%Z ∧ (1 ≤ a)%Z) ∨ (d = Some a ∧ (0 ≤ a)%Z))
          dims actual →
  (∀ k, (foldl Z.mul 1 (take k actual) ≤ MAX_SAFE_INTEGER)%Z) →
  (∃ s, sizeOfShape (Some dims) = Some s
        ∧ (0 ≤ s ≤ foldl Z.mul 1%Z actual)%Z)
  ∧ ∀ k, ∃ c, foldl timesDim (Some 1%Z) (take k dims) = Some c
              ∧ (0 ≤ c ≤ MAX_SAFE_INTEGER)%Z.
Proof.
  intros Hdims Hsafe. split; [apply timesDim_bound; [done|lia]|].
  intros k.
  destruct (timesDim_bound (take k dims) (take k actual) 1 1) as (c & Hc & Hle).
  { by apply Forall2_take. }
  { lia. }
  exists c. split; [done|]. specialize (Hsafe k). lia.
Qed.

Lemma sizeOfShape_lower_bound_witness :
  ∃ s, sizeOfShape (Some [Some 4%Z; Some (-1)%Z; Some 2%Z]) = Some s
       ∧ (0 ≤ s ≤ foldl Z.mul 1%Z [4; 32; 2]%Z)%Z.
Proof.
  apply (sizeOfShape_lower_bound [Some 4%Z; Some (-1)%Z; Some 2%Z] [4; 32; 2]%Z).
  - constructor; [right; split; [reflexivity|lia]|].
    constructor; [left; split; [reflexivity|lia]|].
    constructor; [right; split; [reflexivity|lia]|]. constructor.
  - intros [|[|[|[|k]]]]; vm_compute; discriminate.
Defined.

(** ** Degree sequences *)

Global Instance byText_trans : Transitive byText.
Proof. intros a b c. unfold byText. apply transitivity. Qed.

Global Instance byText_total : Total byText.
Proof. intros a b. unfold byText. apply total, _. Qed.

Global Instance byText_antisymm : AntiSymm (=) byText.
Proof.
  intros a b Hab Hba. unfold byText in *.
  apply (inj pretty). by apply (anti_symm String.le).
Qed.

Lemma sameDegrees_prefix dg1 dg2 :
  sameDegrees dg1 dg2 = true ↔ dg1 `prefix_of` dg2.
Proof.
  revert dg2. induction dg1 as [|d1 dg1 IH]; intros dg2; simpl.
  - split; [intros _; apply prefix_nil|done].
  - destruct dg2 as [|d2 dg2].
    + split; [done|]. intros Hpre. by apply prefix_nil_inv in Hpre.
    + destruct (decide (d1 = d2)) as [->|Hne].
      * rewrite IH. split; [apply prefix_cons|apply prefix_cons_inv_2].
      * split; [done|]. intros Hpre. by apply prefix_cons_inv_1 in Hpre.
Qed.

(** X19: [hasSimilarDegreeSequence] holds exactly when the sorted degrees
    of the first graph are a prefix of those of the second: the test is
    not symmetric, and a graph without nodes is similar to every graph. *)
Theorem hasSimilarDegreeSequence_prefix (graph1 graph2 : Graph) :
  hasSimilarDegreeSequence graph1 graph2 = true
  ↔ degreeSequence graph1 `prefix_of` degreeSequence graph2.
Proof. apply sameDegrees_prefix. Qed.

(** X20: for two graphs with the same number of nodes,
    [hasSimilarDegreeSequence] holds exactly when the degrees of the nodes
    of the one are a permutation of the degrees of the nodes of the other;
    neither the order in which [nodes()] lists them nor the textual order
    of [sort()] matters then. *)
Theorem hasSimilarDegreeSequence_same_size (graph1 graph2 : Graph) :
  length (graph_nodes graph1) = length (graph_nodes graph2) →
  hasSimilarDegreeSequence graph1 graph2 = true
  ↔ (λ name, length (neighbors graph1 name)) <$> graph_nodes graph1
    ≡ₚ (λ name, length (neighbors graph2 name)) <$> graph_nodes graph2.
Proof.
  intros Hlen. unfold hasSimilarDegreeSequence. rewrite sameDegrees_prefix.
  unfold degreeSequence.
  set (d1 := _ <$> graph_nodes graph1). set (d2 := _ <$> graph_nodes graph2).
  assert (length (merge_sort byText d1) = length (merge_sort byText d2)) as Hlen'.
  { rewrite !merge_sort_Permutation. unfold d1, d2. by rewrite !length_fmap. }
  split.
  - intros Hpre. rewrite <- (merge_sort_Permutation byText d1).
    rewrite <- (merge_sort_Permutation byText d2).
    destruct Hpre as [k Hk]. rewrite Hk in Hlen'. rewrite length_app in Hlen'.
    destruct k; [|simpl in Hlen'; lia]. by rewrite Hk, app_nil_r.
  - intros Hperm.
    replace (merge_sort byText d2) with (merge_sort byText d1); [done|].
    apply (Sorted_unique byText).
    + apply Sorted_merge_sort, _.
    + apply Sorted_merge_sort, _.
    + by rewrite !merge_sort_Permutation.
Qed.

Lemma hasSimilarDegreeSequence_same_size_witness :
  hasSimilarDegreeSequence pathGraph starGraph = true
  ↔ (λ name, length (neighbors pathGraph name)) <$> graph_nodes pathGraph
    ≡ₚ (λ name, length (neighbors starGraph name)) <$> graph_nodes starGraph.
Proof. apply hasSimilarDegreeSequence_same_size. reflexivity. Defined.

(** ** The description [build] leaves *)

Lemma processRawNodes_raw `{!RegExp} params rawNodes st :
  (processRawNodes params rawNodes st).2 = (λ X, (OpNodeImpl X).2) <$> rawNodes.
Proof.
  revert st. induction rawNodes as [|r rawNodes IH]; intros st; [done|]. simpl.
  pose proof (processRawNode_rawNode params r st) as Hraw.
  destruct (processRawNode params r st) as [[st1 r'] l]. simpl in Hraw.
  specialize (IH st1). destruct (processRawNodes params rawNodes st1) as [st2 rest'].
  simpl in *. by rewrite Hraw, IH.
Qed.

Lemma processBodyNodes_raw `{!RegExp} params func outputArgNames rawNodes st :
  (processBodyNodes params (FUNCTION_LIBRARY_NODE_PREFIX +:+ signature_name func)
     outputArgNames rawNodes st).2
  = (λ rawNode, (OpNodeImpl (renamedBodyNode func rawNode)).2) <$> rawNodes.
Proof.
  revert st. induction rawNodes as [|r rawNodes IH]; intros st; [done|]. simpl.
  unfold processBodyNode at 1.
  pose proof (processRawNode_rawNode params (renamedBodyNode func r) st) as Hraw.
  unfold renamedBodyNode in Hraw at 1.
  destruct (processRawNode params _ st) as [[st1 r'] l]. simpl in Hraw.
  match goal with |- context [processBodyNodes _ _ _ rawNodes ?s] => specialize (IH s) end.
  destruct (processBodyNodes _ _ _ rawNodes _) as [st2 rest']. simpl in *.
  by rewrite Hraw, IH.
Qed.

Lemma processFunctions_raw `{!RegExp} params funcs st :
  (processFunctions params funcs st).2 = leftFunction <$> funcs.
Proof.
  revert st. induction funcs as [|func funcs IH]; intros st; [done|]. simpl.
  unfold processFunction at 1.
  destruct (processRawNode params _ st) as [[st1 r'] l].
  match goal with
  | |- context [processBodyNodes _ _ ?o _ ?s] =>
      pose proof (processBodyNodes_raw params func o (node_def func) s) as Hbody
  end.
  destruct (processBodyNodes _ _ _ (node_def func) _) as [st3 body]. simpl in Hbody.
  specialize (IH st3). destruct (processFunctions params funcs st3) as [st4 rest'].
  simpl in *. rewrite IH. unfold leftFunction at 2. by rewrite Hbody.
Qed.

(** The graph description of the embedding as [build] leaves it. *)
Lemma build_description `{!RegExp} (graphDef : GraphDef) (params : BuildParams) :
  (build graphDef params).2
  = {| node := fmap (M := list) (λ X, (OpNodeImpl X).2) (node graphDef);
       library := fmap (M := option) (fmap (M := list) leftFunction)
                    (library graphDef) |}.
Proof.
  unfold build, normalizeNames.
  pose proof (processRawNodes_raw params (node graphDef) emptyBuilder) as Hraw.
  destruct (processRawNodes params (node graphDef) emptyBuilder) as [st1 rawNodes].
  simpl in Hraw. subst rawNodes.
  destruct (library graphDef) as [funcs|]; [|done].
  pose proof (processFunctions_raw params funcs st1) as Hlib.
  destruct (processFunctions params funcs st1) as [st2 funcs']. simpl in *.
  by subst funcs'.
Qed.

(** X21: the graph description as [build] leaves it. Every raw node is
    as the constructor of its node object leaves it, that is without the
    [_output_shapes] attribute that was read. The library has the same
    functions with the same signatures and as many body nodes; a body node
    bears its name prefixed by the name of the function node, has the
    operation and the device it had, and the attributes the constructor
    leaves. *)
Theorem build_leaves_description `{!RegExp} (graphDef : GraphDef)
    (params : BuildParams) :
  node (build graphDef params).2
  = (λ X, (OpNodeImpl X).2) <$> node graphDef
  ∧ match library graphDef, library (build graphDef params).2 with
    | None, None => True
    | Some funcs, Some funcs' =>
        Forall2
          (λ func func',
             signature_name func' = signature_name func
             ∧ input_arg func' = input_arg func
             ∧ output_arg func' = output_arg func
             ∧ Forall2
                 (λ X X',
                    raw_name X'
                    = (FUNCTION_LIBRARY_NODE_PREFIX +:+ signature_name func)
                        +:+ "/" +:+ raw_name X
                    ∧ raw_op X' = raw_op X
                    ∧ raw_device X' = raw_device X
                    ∧ raw_attr X' = (extractOutputShapes (raw_attr X)).2)
                 (node_def func) (node_def func'))
          funcs funcs'
    | _, _ => False
    end.
Proof.
  rewrite build_description. simpl. split; [done|].
  destruct (library graphDef) as [funcs|]; [|done]. simpl.
  apply Forall2_fmap_r, Forall_Forall2_diag, Forall_forall. intros func _.
  repeat split. simpl.
  apply Forall2_fmap_r, Forall_Forall2_diag, Forall_forall. intros X _.
  unfold OpNodeImpl, renamedBodyNode. simpl.
  by destruct (extractOutputShapes (raw_attr X)).
Qed.

(** ** What the second task keeps *)

Lemma foldl_invariant_elem {A B} (P : A → Prop) (f : A → B → A) (l : list B) (a : A) :
  P a → (∀ a b, b ∈ l → P a → P (f a b)) → P (foldl f a l).
Proof.
  revert a. induction l as [|b l IH]; intros a Ha Hstep; [done|].
  simpl. apply IH.
  - apply Hstep; [by left|done].
  - intros a' b' Hb'. apply Hstep. by right.
Qed.

Section Kept.
Context `{!RegExp} (params : BuildParams) (st : Builder) (dict : gmap string string).

Lemma addNode_content acc l :
  content <$> (addNode st dict acc l).2 = content <$> acc.2.
Proof.
  destruct acc as [graph h]. unfold addNode. destruct (h !! l) as [opNode|]; [|done].
  simpl. rewrite agreeOn_alter by done.
  destruct (outEmbeddingsOf st !! name opNode) as [embs|]; [|done].
  rewrite (agreeOn_alters content (renameNode dict)) by done.
  by rewrite agreeOn_alter.
Qed.

Lemma addInput_content l acc indexed :
  content <$> (addInput params st dict l acc indexed).2 = content <$> acc.2.
Proof.
  destruct acc as [graph h], indexed as [i input]. simpl. unfold addInput.
  destruct (inEmbedding st !! input_name input) as [le|].
  - destruct (alter _ l h !! l) as [opNode|];
      [destruct (alter _ l h !! le) as [inEmbedNode|]|];
      simpl; by rewrite agreeOn_alter.
  - destruct (h !! l) as [opNode|]; [|done].
    destruct (outEmbedding st !! input_name input) as [lo|]; [|done].
    by destruct (h !! lo).
Qed.

Lemma addInputs_content acc l :
  content <$> (addInputs params st dict acc l).2 = content <$> acc.2.
Proof.
  unfold addInputs. destruct (acc.2 !! l) as [opNode|]; [|done].
  apply (foldl_invariant (λ acc', content <$> acc'.2 = content <$> acc.2)); [done|].
  intros a b Ha. by rewrite addInput_content.
Qed.

Lemma addNode_nodes_mono acc l k :
  is_Some (nodes acc.1 !! k) → is_Some (nodes (addNode st dict acc l).1 !! k).
Proof.
  destruct acc as [graph h]. unfold addNode. destruct (h !! l) as [opNode|]; [|done].
  simpl. intros Hk.
  destruct (decide (normalizedName dict (name opNode) = k)) as [<-|Hne];
    [by rewrite lookup_insert_eq|by rewrite lookup_insert_ne].
Qed.

Lemma addEdgeToGraph_inv graph inputName outputNode input index e :
  e ∈ edges (addEdgeToGraph graph inputName outputNode input params index) →
  e ∈ edges graph
  ∨ (w e = name outputNode
     ∧ isReferenceEdge e = isRefEdge params (op outputNode) index).
Proof.
  unfold addEdgeToGraph. case_decide; [by left|]. simpl.
  intros [He| ->%list_elem_of_singleton]%elem_of_app; [by left|by right].
Qed.

Lemma addEdges_inv graph (source : NormalizedInput → string)
    (flags : NormalizedInput → NormalizedInput) outputNode index ins e :
  e ∈ edges (foldl (λ g embedInput,
                      addEdgeToGraph g (source embedInput) outputNode
                        (flags embedInput) params index) graph ins) →
  e ∈ edges graph
  ∨ (w e = name outputNode
     ∧ isReferenceEdge e = isRefEdge params (op outputNode) index).
Proof.
  revert graph. induction ins as [|x ins IH]; intros graph He; [by left|].
  simpl in He. apply IH in He as [He|He]; [|by right].
  by apply addEdgeToGraph_inv in He.
Qed.

(** An edge the loop over the inputs makes ends in the node the loop is
    at, and has the reference flag of the operation of that node and of the
    index of the input. *)
Lemma addInput_targets l acc i input e :
  e ∈ edges (addInput params st dict l acc (i, input)).1 →
  e ∈ edges acc.1
  ∨ ∃ n, acc.2 !! l = Some n ∧ w e = name n
         ∧ isReferenceEdge e = isRefEdge params (op n) i.
Proof.
  destruct acc as [graph h]. simpl. unfold addInput.
  destruct (inEmbedding st !! input_name input) as [le|].
  - rewrite list_lookup_alter_eq. destruct (h !! l) as [n|]; [|by left]. simpl.
    destruct (alter _ l h !! le) as [inEmbedNode|]; [|by left]. simpl.
    intros He. apply (addEdges_inv _ _ (λ x, x)) in He as [He|He]; [by left|].
    right. by exists n.
  - destruct (h !! l) as [opNode|]; [|by left].
    destruct (outEmbedding st !! input_name input) as [lo|].
    + destruct (h !! lo) as [outEmbedNode|]; [|by left]. simpl.
      intros He. apply (addEdges_inv _ _ (λ _, input)) in He as [He|He]; [by left|].
      right. by exists opNode.
    + simpl. intros He. apply addEdgeToGraph_inv in He as [He|He]; [by left|].
      right. by exists opNode.
Qed.

Lemma addInputs_targets acc l e :
  e ∈ edges (addInputs params st dict acc l).1 →
  e ∈ edges acc.1
  ∨ ∃ n i input, acc.2 !! l = Some n ∧ inputs n !! i = Some input
                 ∧ w e = name n
                 ∧ isReferenceEdge e = isRefEdge params (op n) i.
Proof.
  unfold addInputs. destruct (acc.2 !! l) as [opNode|] eqn:Hl; [|by left].
  apply (foldl_invariant_elem
           (λ acc', agreeOn named acc.2 acc'.2
                    ∧ (e ∈ edges acc'.1 →
                       e ∈ edges acc.1
                       ∨ ∃ n i input, Some opNode = Some n ∧ inputs n !! i = Some input
                                      ∧ w e = name n
                                      ∧ isReferenceEdge e = isRefEdge params (op n) i))).
  - split; [done|]. by left.
  - intros acc' [i input] Hb [Hnamed Hacc']. split.
    + unfold agreeOn. by rewrite addInput_named.
    + intros He. apply addInput_targets in He as [He|(n & Hn & Hw & Href)];
        [by apply Hacc'|].
      right. exists opNode, i, input. split; [done|].
      apply elem_of_lookup_imap in Hb as (i' & input' & [= <- <-] & Hinput).
      destruct (agreeOn_lookup _ _ _ _ _ Hnamed Hl) as (n' & Hn' & Hnamed').
      rewrite Hn in Hn'. injection Hn' as <-. injection Hnamed' as Hname Hop _ _.
      by rewrite <- Hname, <- Hop.
Qed.

Hypothesis Hclassified : classified params st.

(** The names of the listed node objects are keys of the node map after
    the first loop. *)
Lemma addNode_fold_dom (ls : list loc) g (h : list OpNode) :
  NoDup ls →
  agreeOn frame (store st) h →
  (∀ l, l ∈ ls → ∃ n, h !! l = Some n ∧ kindOf params n = MainNode) →
  ∀ l n, l ∈ ls → h !! l = Some n →
    is_Some (nodes (foldl (addNode st dict) (g, h) ls).1
               !! normalizedName dict (name n)).
Proof.
  revert g h. induction ls as [|l0 ls IH]; intros g h Hnodup Hagree Hmains l n Hl Hn.
  - by apply elem_of_nil in Hl.
  - apply NoDup_cons in Hnodup as [Hl0 Hnodup].
    destruct (Hmains l0) as (n0 & Hn0 & Hmain0); [by left|].
    destruct (addNode_step params st dict Hclassified g h l0 n0 Hagree Hn0 Hmain0)
      as (h1 & Hstep & Hagree1 & Hl1 & Hother1).
    cbn [foldl]. rewrite Hstep.
    assert (∀ l', l' ∈ ls → ∃ n', h1 !! l' = Some n' ∧ kindOf params n' = MainNode)
      as Hmains1.
    { intros l' Hl'. destruct (Hmains l') as (n' & Hn' & Hmain'); [by right|].
      exists n'. split; [|done]. apply Hother1; [|done..]. by intros ->. }
    apply elem_of_cons in Hl as [->|Hl].
    + rewrite Hn in Hn0. injection Hn0 as <-.
      apply (foldl_invariant
               (λ acc, is_Some (nodes acc.1 !! normalizedName dict (name n)))).
      * simpl. by rewrite lookup_insert_eq.
      * intros acc b. apply addNode_nodes_mono.
    + apply (IH _ h1 Hnodup Hagree1 Hmains1 l n Hl).
      destruct (Hmains l) as (n' & Hn' & Hmain'); [by right|].
      rewrite Hn in Hn'. injection Hn' as <-.
      apply Hother1; [|done..]. by intros ->.
Qed.
End Kept.

Section Built.
Context `{!RegExp} (params : BuildParams) (st : Builder).
Hypothesis Hclassified : classified params st.

Local Abbreviation dict := (mapStrictHierarchy (nodeNames st) (embeddingNodeNames st)).

Lemma buildSlimGraph_content :
  content <$> (buildSlimGraph params st).2 = content <$> store st.
Proof.
  unfold buildSlimGraph. simpl. unfold renameInEmbeddings.
  rewrite agreeOn_map_alters by done.
  transitivity (content <$> (foldl (addNode st dict)
                               ({| nodes := ∅; edges := [] |}, store st)
                               (opNodes st)).2).
  - apply (foldl_invariant (λ acc, content <$> acc.2 = _)); [done|].
    intros acc l Hacc. by rewrite addInputs_content.
  - apply (foldl_invariant (λ acc, content <$> acc.2 = _)); [done|].
    intros acc l Hacc. by rewrite addNode_content.
Qed.

(** A main node object bears its new name in the end. *)
Lemma buildSlimGraph_main (l : loc) n0 :
  l ∈ opNodes st → store st !! l = Some n0 →
  ∃ n, (buildSlimGraph params st).2 !! l = Some n
       ∧ name n = normalizedName dict (name n0)
       ∧ op n = op n0.
Proof.
  intros Hl Hn0. pose proof Hclassified as (Hnodup & Hmains & Hins & Houts).
  destruct (addNode_fold params st dict Hclassified
              (opNodes st) {| nodes := ∅; edges := [] |} (store st) Hnodup)
    as (Hframe1 & Hedges1 & Hnodes1 & Hadded & _); [done|done|].
  unfold buildSlimGraph. simpl.
  set (acc1 := foldl (addNode st dict) _ (opNodes st)) in *.
  assert (agreeOn named acc1.2 (foldl (addInputs params st dict) acc1 (opNodes st)).2)
    as Hnamed2.
  { apply (foldl_invariant (λ acc, agreeOn named acc1.2 acc.2)); [done|].
    intros acc l' Hacc. unfold agreeOn. by rewrite addInputs_named. }
  destruct (agreeOn_lookup _ _ _ _ _ Hnamed2 (Hadded l n0 Hl Hn0))
    as (n2 & Hn2 & Hnamed).
  remember (added st dict n0) as a0 eqn:Ha0.
  injection Hnamed as Hname Hop _ _.
  exists n2. split; [|split].
  - unfold renameInEmbeddings. rewrite map_alters_other; [done|].
    intros k. destruct (Hmains l Hl) as (n' & Hn' & Hkind).
    by apply (main_not_inEmbedding params st Hclassified (store st) l n').
  - by rewrite Hname, Ha0.
  - by rewrite Hop, Ha0, added_op.
Qed.

Lemma buildSlimGraph_nodes :
  nodes (buildSlimGraph params st).1
  = nodes (foldl (addNode st dict) ({| nodes := ∅; edges := [] |}, store st)
             (opNodes st)).1.
Proof.
  unfold buildSlimGraph. simpl.
  apply (foldl_invariant (λ acc, nodes acc.1 = _)); [done|].
  intros acc l Hacc. by rewrite addInputs_nodes.
Qed.

(** A key of the node map is the new name of a main node object, which
    the key refers to. *)
Lemma buildSlimGraph_node_map k (l : loc) :
  nodes (buildSlimGraph params st).1 !! k = Some l →
  ∃ n0 n, l ∈ opNodes st
          ∧ store st !! l = Some n0
          ∧ kindOf params n0 = MainNode
          ∧ k = normalizedName dict (name n0)
          ∧ (buildSlimGraph params st).2 !! l = Some n
          ∧ name n = k ∧ op n = op n0.
Proof.
  intros Hk. rewrite buildSlimGraph_nodes in Hk.
  pose proof Hclassified as (Hnodup & Hmains & Hins & Houts).
  destruct (addNode_fold_keys params st dict Hclassified
              (opNodes st) {| nodes := ∅; edges := [] |} (store st) Hnodup
              (eq_refl _) Hmains k l Hk) as [Hempty|(n0 & Hl & Hn0 & Hkey)].
  { simpl in Hempty. by rewrite lookup_empty in Hempty. }
  destruct (buildSlimGraph_main l n0 Hl Hn0) as (n & Hn & Hname & Hop).
  destruct (Hmains l Hl) as (n' & Hn' & Hkind).
  rewrite Hn0 in Hn'. injection Hn' as <-.
  exists n0, n. repeat split; try done. by rewrite Hname.
Qed.

(** An edge ends in a main node object and has the reference flag of
    one of the inputs of that node; the name of the node is a key of the
    node map. *)
Lemma buildSlimGraph_edge_target e :
  e ∈ edges (buildSlimGraph params st).1 →
  is_Some (nodes (buildSlimGraph params st).1 !! w e)
  ∧ ∃ (l : loc) n0 i input,
      l ∈ opNodes st ∧ store st !! l = Some n0
      ∧ inputs n0 !! i = Some input
      ∧ w e = normalizedName dict (name n0)
      ∧ isReferenceEdge e = isRefEdge params (op n0) i.
Proof.
  rewrite buildSlimGraph_nodes.
  pose proof Hclassified as (Hnodup & Hmains & Hins & Houts).
  destruct (addNode_fold params st dict Hclassified
              (opNodes st) {| nodes := ∅; edges := [] |} (store st) Hnodup)
    as (Hframe1 & Hedges1 & Hnodes1 & Hadded & _); [done|done|].
  pose proof (addNode_fold_dom params st dict Hclassified
                (opNodes st) {| nodes := ∅; edges := [] |} (store st) Hnodup
                (eq_refl _) Hmains) as Hdom.
  unfold buildSlimGraph. simpl.
  set (acc1 := foldl (addNode st dict) _ (opNodes st)) in *.
  intros He. revert e He.
  apply (foldl_invariant_elem
           (λ acc, agreeOn named acc1.2 acc.2
                   ∧ ∀ e, e ∈ edges acc.1 →
                       is_Some (nodes acc1.1 !! w e)
                       ∧ ∃ (l : loc) n0 i input,
                           l ∈ opNodes st ∧ store st !! l = Some n0
                           ∧ inputs n0 !! i = Some input
                           ∧ w e = normalizedName dict (name n0)
                           ∧ isReferenceEdge e = isRefEdge params (op n0) i)).
  - split; [done|]. intros e He. rewrite Hedges1 in He. by apply elem_of_nil in He.
  - intros acc l Hl [Hnamed Hacc]. split.
    + unfold agreeOn. by rewrite addInputs_named.
    + intros e He.
      apply addInputs_targets in He as [He|(n & i & input & Hn & Hi & Hw & Href)];
        [by apply Hacc|].
      destruct (Hmains l Hl) as (n0 & Hn0 & _).
      destruct (agreeOn_lookup _ _ _ _ _ Hnamed (Hadded l n0 Hl Hn0))
        as (n' & Hn' & Hnamed').
      rewrite Hn in Hn'. injection Hn' as <-.
      remember (added st dict n0) as a0 eqn:Ha0.
      injection Hnamed' as Hname Hop Hinputs _.
      rewrite Ha0, added_name in Hname. rewrite Ha0, added_op in Hop.
      rewrite Ha0, added_inputs in Hinputs.
      rewrite Hw, Hname. split; [by apply (Hdom l n0)|].
      exists l, n0, i, input. rewrite <- Hinputs, <- Hop. by repeat split.
Qed.
End Built.

(** X22: every key of the node map of the built graph is the name of the
    node object it refers to, and that node object is a main node: no
    embedding is in the node map. *)
Theorem build_node_map_names_main_nodes `{!RegExp} (graphDef : GraphDef)
    (params : BuildParams) (k : string) (l : loc) :
  nodes (build graphDef params).1.1 !! k = Some l →
  ∃ n, (build graphDef params).1.2 !! l = Some n
       ∧ name n = k
       ∧ kindOf params n = MainNode.
Proof.
  unfold build. pose proof (normalizeNames_classified params graphDef) as Hclass.
  destruct (normalizeNames params graphDef) as [st graphDef']. simpl in *.
  intros Hk.
  destruct (buildSlimGraph_node_map params st Hclass k l Hk)
    as (n0 & n & _ & _ & Hkind & _ & Hn & Hname & Hop).
  exists n. split; [done|]. split; [done|].
  rewrite <- Hkind. by apply kindOf_op.
Qed.

(** X23: the destination of every edge of the built graph is a key of the
    node map, and the node object under that key is a main node of that
    name. *)
Theorem build_edges_end_in_node_map `{!RegExp} (graphDef : GraphDef)
    (params : BuildParams) (e : BaseEdge) :
  e ∈ edges (build graphDef params).1.1 →
  ∃ l n, nodes (build graphDef params).1.1 !! w e = Some l
         ∧ (build graphDef params).1.2 !! l = Some n
         ∧ name n = w e
         ∧ kindOf params n = MainNode.
Proof.
  unfold build. pose proof (normalizeNames_classified params graphDef) as Hclass.
  destruct (normalizeNames params graphDef) as [st graphDef']. simpl in *.
  intros He.
  destruct (buildSlimGraph_edge_target params st Hclass e He) as [[l Hl] _].
  destruct (buildSlimGraph_node_map params st Hclass _ l Hl)
    as (n0 & n & _ & _ & Hkind & _ & Hn & Hname & Hop).
  exists l, n. split; [done|]. split; [done|]. split; [done|].
  rewrite <- Hkind. by apply kindOf_op.
Qed.

(** ** The loop over the inputs, by the kind of the source *)

Section Inputs.
Context `{!RegExp} (params : BuildParams) (st : Builder) (dict : gmap string string).

(** The input names no embedding: one edge, from the source it names. *)
Lemma addInput_direct g (h : list OpNode) (pN : loc) nN i inp :
  h !! pN = Some nN →
  inEmbedding st !! input_name inp = None →
  outEmbedding st !! input_name inp = None →
  normalizedName dict (input_name inp) ≠ name nN →
  {| v := normalizedName dict (input_name inp); w := name nN;
     edge_outputTensorKey := outputTensorKey inp;
     edge_isControlDependency := isControlDependency inp;
     isReferenceEdge := isRefEdge params (op nN) i |}
  ∈ edges (addInput params st dict pN (g, h) (i, inp)).1.
Proof.
  intros HN Hin Hout Hne. unfold addInput. rewrite Hin, HN, Hout. simpl.
  by apply addEdgeToGraph_adds.
Qed.




Lemma addInputs_direct g (h : list OpNode) (pN : loc) nN i inp :
  h !! pN = Some nN →
  inputs nN !! i = Some inp →
  inEmbedding st !! input_name inp = None →
  outEmbedding st !! input_name inp = None →
  normalizedName dict (input_name inp) ≠ name nN →
  {| v := normalizedName dict (input_name inp); w := name nN;
     edge_outputTensorKey := outputTensorKey inp;
     edge_isControlDependency := isControlDependency inp;
     isReferenceEdge := isRefEdge params (op nN) i |}
  ∈ edges (addInputs params st dict (g, h) pN).1.
Proof.
  intros HN Hi Hin Hout Hne. unfold addInputs. simpl. rewrite HN.
  apply (foldl_establish (λ acc, agreeOn named h acc.2) (λ acc, _ ∈ edges acc.1))
    with (x := (i, inp)).
  - apply elem_of_lookup_imap. eauto.
  - done.
  - intros acc b Hacc. unfold agreeOn. by rewrite addInput_named.
  - intros [g' h'] Hacc. simpl in Hacc.
    destruct (agreeOn_lookup _ _ _ _ _ Hacc HN) as (nN' & HN' & HnamedN).
    injection HnamedN as HnameN HopN HinsN HoutN.
    rewrite <- HnameN, <- HopN. apply addInput_direct; try done. by rewrite HnameN.
  - intros acc b Hacc. by apply addInput_mono.
Qed.


Lemma addInputs_fold_direct (ls : list loc) g (h : list OpNode) (pN : loc) nN i inp :
  pN ∈ ls →
  h !! pN = Some nN →
  inputs nN !! i = Some inp →
  inEmbedding st !! input_name inp = None →
  outEmbedding st !! input_name inp = None →
  normalizedName dict (input_name inp) ≠ name nN →
  {| v := normalizedName dict (input_name inp); w := name nN;
     edge_outputTensorKey := outputTensorKey inp;
     edge_isControlDependency := isControlDependency inp;
     isReferenceEdge := isRefEdge params (op nN) i |}
  ∈ edges (foldl (addInputs params st dict) (g, h) ls).1.
Proof.
  intros HpN HN Hi Hin Hout Hne.
  apply (foldl_establish (λ acc, agreeOn named h acc.2) (λ acc, _ ∈ edges acc.1))
    with (x := pN); [done|done| | |].
  - intros acc b Hacc. unfold agreeOn. by rewrite addInputs_named.
  - intros [g' h'] Hacc. simpl in Hacc.
    destruct (agreeOn_lookup _ _ _ _ _ Hacc HN) as (nN' & HN' & HnamedN).
    injection HnamedN as HnameN HopN HinsN HoutN.
    rewrite <- HnameN, <- HopN.
    apply addInputs_direct; try done; [by rewrite HinsN|by rewrite HnameN].
  - intros acc b Hacc. by apply addInputs_mono.
Qed.

End Inputs.

(** ** The names the first task files the embeddings under *)

Section Filed.
Context `{!RegExp} (params : BuildParams).




End Filed.



Section Embedded.
Context `{!RegExp} (params : BuildParams) (st : Builder).
Hypothesis Hclassified : classified params st.

Local Abbreviation dict := (mapStrictHierarchy (nodeNames st) (embeddingNodeNames st)).





End Embedded.

Section Sources.
Context `{!RegExp} (params : BuildParams).

(** No embedding is filed under a name that only main nodes bear. *)
Lemma processRawNodes_no_embedding x rawNodes st :
  Forall (λ r, raw_name r = x → rawKind params r = MainNode) rawNodes →
  inEmbedding st !! x = None → outEmbedding st !! x = None →
  inEmbedding (processRawNodes params rawNodes st).1 !! x = None
  ∧ outEmbedding (processRawNodes params rawNodes st).1 !! x = None.
Proof.
  revert st. induction rawNodes as [|r rawNodes IH]; intros st Hmain Hin Hout;
    [done|].
  apply Forall_cons in Hmain as [Hr Hmain].
  rewrite processRawNodes_cons. apply IH; [done|..];
    rewrite rawStep_unfold; cbv zeta; unfold rawKind in Hr;
    destruct (kindOf params (OpNodeImpl r).1) eqn:Hkind; simpl; try done;
    rewrite lookup_insert_ne; try done;
    rewrite OpNodeImpl_name; intros Hx; by specialize (Hr Hx).
Qed.

Lemma normalizeNames_no_embedding graphDef x :
  (∀ q Y, node graphDef !! q = Some Y → raw_name Y = x →
     rawKind params Y = MainNode) →
  Str.startsWith x FUNCTION_LIBRARY_NODE_PREFIX = false →
  inEmbedding (normalizeNames params graphDef).1 !! x = None
  ∧ outEmbedding (normalizeNames params graphDef).1 !! x = None.
Proof.
  intros Hmain Hprefix.
  assert (reach params (λ k, k ≠ x)
            (processRawNodes params (node graphDef) emptyBuilder).1
            (normalizeNames params graphDef).1) as Hreach.
  { apply normalizeNames_reach. intros y Hy.
    by rewrite <- Hy, startsWith_app in Hprefix. }
  assert (¬ (x ≠ x)) as Hx by (intros Hx; by apply Hx).
  rewrite (reach_inEmbedding params _ _ _ _ Hreach Hx).
  rewrite (reach_outEmbedding params _ _ _ _ Hreach Hx).
  apply processRawNodes_no_embedding; [|done..].
  apply Forall_lookup. intros q Y HY. by apply (Hmain q Y).
Qed.
End Sources.

(** X25: in a graph description with plain names, an input of a main
    node that names no embedding: every raw node of that name, if there is
    one, is a main node, and the name is outside the name space of the
    library. (Under the name of a member of [Object.prototype] the test
    [inputName in inEmbedding] holds by inheritance, and [build] throws a
    [TypeError].) Unless the source and the node have the same final name,
    the built graph has an edge from the final name of the source to the
    final name of the node, with the slot and the control flag of the input
    and the reference flag of the operation of the node at the index of
    the input; the source need not exist. *)
Theorem build_direct_edge `{!RegExp} (graphDef : GraphDef) (params : BuildParams)
    (pN : nat) (N : NodeDef) (inp : NormalizedInput) (i : nat) :
  plainNames graphDef = true →
  node graphDef !! pN = Some N →
  rawKind params N = MainNode →
  normalizeInputs (raw_input N) !! i = Some inp →
  (∀ q Y, node graphDef !! q = Some Y → raw_name Y = input_name inp →
     rawKind params Y = MainNode) →
  Str.startsWith (input_name inp) FUNCTION_LIBRARY_NODE_PREFIX = false →
  finalName params graphDef (input_name inp)
  ≠ finalName params graphDef (raw_name N) →
  {| v := finalName params graphDef (input_name inp);
     w := finalName params graphDef (raw_name N);
     edge_outputTensorKey := outputTensorKey inp;
     edge_isControlDependency := isControlDependency inp;
     isReferenceEdge := isRefEdge params (raw_op N) i |}
  ∈ edges (build graphDef params).1.1.
Proof.
  intros _ HN HkN Hinp Hmain Hprefix Hne.
  unfold finalName, nameDictionary in *. unfold build.
  pose proof (normalizeNames_classified params graphDef) as Hclass.
  pose proof (normalizeNames_store params graphDef pN N HN) as HstN.
  pose proof (normalizeNames_opNodes params graphDef pN N HN HkN) as HopN.
  destruct (normalizeNames_no_embedding params graphDef (input_name inp) Hmain Hprefix)
    as [Hin Hout].
  destruct (normalizeNames params graphDef) as [st graphDef']. simpl in *.
  set (dict := mapStrictHierarchy (nodeNames st) (embeddingNodeNames st)) in *.
  unfold buildSlimGraph. fold dict. simpl.
  pose proof Hclass as (Hnodup & Hmains & Hins & Houts).
  destruct (addNode_fold params st dict Hclass
              (opNodes st) {| nodes := ∅; edges := [] |} (store st) Hnodup)
    as (_ & _ & _ & Hadded & _); [done|done|].
  set (acc1 := foldl (addNode st dict) _ (opNodes st)) in *.
  pose proof (addInputs_fold_direct params st dict (opNodes st) acc1.1 acc1.2
                pN (added st dict (OpNodeImpl N).1) i inp HopN
                (Hadded pN _ HopN HstN)) as Hedge.
  rewrite <- surjective_pairing in Hedge.
  rewrite added_name, added_op, added_inputs in Hedge.
  rewrite OpNodeImpl_name, OpNodeImpl_op, OpNodeImpl_inputs in Hedge.
  by apply Hedge.
Qed.

Lemma build_direct_edge_witness :
  {| v := @finalName defaultRegExp DefaultBuildParams chainGraph "ghost";
     w := @finalName defaultRegExp DefaultBuildParams chainGraph "N";
     edge_outputTensorKey := "0"; edge_isControlDependency := true;
     isReferenceEdge := isRefEdge DefaultBuildParams "Assign" 1 |}
  ∈ edges (@build defaultRegExp chainGraph DefaultBuildParams).1.1.
Proof.
  apply (@build_direct_edge defaultRegExp chainGraph DefaultBuildParams 1
           (rawNode "N" "Assign" ["M:1"; "^ghost"])
           {| input_name := "ghost"; outputTensorKey := "0";
              isControlDependency := true |} 1).
  - reflexivity.
  - reflexivity.
  - reflexivity.
  - reflexivity.
  - intros [|[|q]] Y HY Hname; simpl in HY; [| |done];
      injection HY as <-; simpl in Hname; discriminate.
  - reflexivity.
  - vm_compute. discriminate.
Defined.



Lemma buildSlimGraph_main_key `{!RegExp} params st (l : loc) n0 :
  classified params st →
  l ∈ opNodes st → store st !! l = Some n0 →
  is_Some (nodes (buildSlimGraph params st).1
             !! normalizedName (mapStrictHierarchy (nodeNames st) (embeddingNodeNames st))
                  (name n0)).
Proof.
  intros Hclass Hl Hn0. rewrite buildSlimGraph_nodes.
  pose proof Hclass as (Hnodup & Hmains & Hins & Houts).
  by apply (addNode_fold_dom params st _ Hclass (opNodes st) _ (store st) Hnodup
              (eq_refl _) Hmains l n0).
Qed.

Lemma OpNodeImpl_content rawNode :
  content (OpNodeImpl rawNode).1
  = (raw_op rawNode, raw_device rawNode, (extractOutputShapes (raw_attr rawNode)).2,
     normalizeInputs (raw_input rawNode), (extractOutputShapes (raw_attr rawNode)).1,
     extractXlaCluster (raw_attr rawNode), None, None, None).
Proof.
  unfold OpNodeImpl, content, extractOutputShapes.
  destruct (raw_attr rawNode) as [attr|]; [|done].
  pose proof (extractOutputShapes_from_xla attr) as Hxla.
  destruct (extractOutputShapes_from attr) as [shapes attr']. simpl in *.
  by rewrite Hxla.
Qed.

(** X24: the node object of the raw node at index [p] of the description
    is at location [p] of the store, and after [build] its operation,
    device, inputs, output shapes, attributes and XLA cluster are those
    the constructor gave it, and its function indices and statistics are
    null: the second task writes names and embedding lists only. *)
Theorem build_node_objects `{!RegExp} (graphDef : GraphDef)
    (params : BuildParams) (p : nat) (X : NodeDef) :
  node graphDef !! p = Some X →
  ∃ n, (build graphDef params).1.2 !! p = Some n
       ∧ op n = raw_op X
       ∧ device n = raw_device X
       ∧ inputs n = normalizeInputs (raw_input X)
       ∧ outputShapes n = (extractOutputShapes (raw_attr X)).1
       ∧ attr n = (extractOutputShapes (raw_attr X)).2
       ∧ xlaCluster n = extractXlaCluster (raw_attr X)
       ∧ functionInputIndex n = None
       ∧ functionOutputIndex n = None
       ∧ stats n = None.
Proof.
  intros HX. unfold build.
  pose proof (normalizeNames_classified params graphDef) as Hclass.
  pose proof (normalizeNames_store params graphDef p X HX) as HstX.
  destruct (normalizeNames params graphDef) as [st graphDef']. simpl in *.
  pose proof (buildSlimGraph_content params st) as Hcontent.
  destruct (agreeOn_lookup content (store st) (buildSlimGraph params st).2 p _
              (eq_sym Hcontent) HstX) as (n & Hn & Heq).
  rewrite OpNodeImpl_content in Heq. injection Heq as ? ? ? ? ? ? ? ? ?.
  exists n. by repeat split.
Qed.

Lemma build_node_objects_witness :
  ∃ n, (@build defaultRegExp constGraph DefaultBuildParams).1.2 !! 1 = Some n
       ∧ op n = "Const"
       ∧ device n = ""
       ∧ inputs n = normalizeInputs (Some ["^X"])
       ∧ outputShapes n = None
       ∧ attr n = None
       ∧ xlaCluster n = None
       ∧ functionInputIndex n = None
       ∧ functionOutputIndex n = None
       ∧ stats n = None.
Proof.
  apply (@build_node_objects defaultRegExp constGraph DefaultBuildParams 1
           (rawNode "C" "Const" ["^X"])).
  reflexivity.
Defined.



(** X28: every edge of the built graph ends in a main node object, and
    its reference flag is the entry of [refEdges] for the operation of
    that node and the index of one of its inputs. *)
Theorem build_edge_reference_flag `{!RegExp} (graphDef : GraphDef)
    (params : BuildParams) (e : BaseEdge) :
  e ∈ edges (build graphDef params).1.1 →
  ∃ (l : loc) n i input,
    (build graphDef params).1.2 !! l = Some n
    ∧ kindOf params n = MainNode
    ∧ name n = w e
    ∧ inputs n !! i = Some input
    ∧ isReferenceEdge e = isRefEdge params (op n) i.
Proof.
  unfold build. pose proof (normalizeNames_classified params graphDef) as Hclass.
  destruct (normalizeNames params graphDef) as [st graphDef']. simpl in *.
  intros He.
  destruct (buildSlimGraph_edge_target params st Hclass e He)
    as [_ (l & n0 & i & input & Hl & Hn0 & Hi & Hw & Href)].
  destruct (buildSlimGraph_main params st Hclass l n0 Hl Hn0) as (n & Hn & Hname & Hop).
  pose proof (buildSlimGraph_content params st) as Hcontent.
  destruct (agreeOn_lookup content (store st) (buildSlimGraph params st).2 l _
              (eq_sym Hcontent) Hn0) as (n' & Hn' & Heq).
  rewrite Hn in Hn'. injection Hn' as <-.
  injection Heq as _ _ _ Hinputs _ _ _ _ _.
  pose proof Hclass as (_ & Hmains & _).
  destruct (Hmains l Hl) as (n0' & Hn0' & Hkind).
  rewrite Hn0 in Hn0'. injection Hn0' as <-.
  exists l, n, i, input. split; [done|]. split; [|split; [|split]].
  - rewrite <- Hkind. by apply kindOf_op.
  - by rewrite Hname.
  - by rewrite Hinputs.
  - by rewrite Hop.
Qed.

(** ** Without embedding types *)

Section Plain.
Context `{!RegExp} (params : BuildParams).
Hypothesis HinTypes : inEmbeddingTypes params = [].
Hypothesis HoutTypes : outEmbeddingTypes params = [].

Lemma kindOf_plain n : kindOf params n = MainNode.
Proof.
  unfold kindOf, isInEmbeddedPred, isOutEmbeddedPred, getEmbedPredicate.
  by rewrite HinTypes, HoutTypes.
Qed.

Lemma reach_noEmbedding fresh st st' :
  reach params fresh st st' → noEmbedding st → noEmbedding st'.
Proof.
  induction 1 as [|st' r f _ IH _ _ _]; [done|]. intros Hst.
  rewrite rawStep_unfold. cbv zeta. rewrite kindOf_plain. by apply IH.
Qed.

Lemma normalizeNames_noEmbedding graphDef :
  noEmbedding (normalizeNames params graphDef).1.
Proof.
  apply (reach_noEmbedding (λ _, True) emptyBuilder); [|done].
  eapply reach_trans; [|by apply normalizeNames_reach].
  apply processRawNodes_reach. by apply Forall_true.
Qed.

Lemma addInput_plain st dict l acc indexed :
  inEmbedding st = ∅ →
  (addInput params st dict l acc indexed).2 = acc.2.
Proof.
  destruct acc as [graph h], indexed as [i input]. simpl. intros Hempty.
  unfold addInput. rewrite Hempty, lookup_empty.
  destruct (h !! l) as [opNode|]; [|done].
  destruct (outEmbedding st !! input_name input) as [lo|]; [|done].
  by destruct (h !! lo).
Qed.

Lemma addInputs_plain st dict acc l :
  inEmbedding st = ∅ →
  (addInputs params st dict acc l).2 = acc.2.
Proof.
  intros Hempty. unfold addInputs. destruct (acc.2 !! l) as [opNode|]; [|done].
  apply (foldl_invariant (λ acc', acc'.2 = acc.2)); [done|].
  intros a b Ha. by rewrite addInput_plain.
Qed.
End Plain.

(** X29: with no in-embedding type and no out-embedding type every raw
    node is a main node. In a graph description with plain names, its node
    object is the one the constructor made, under its final name; its final
    name is a key of the node map; and each of its inputs gives an edge
    from the final name of the source to its final name, with the slot and
    the control flag of the input, unless the two names are the same.
    (The dictionaries of [build] are empty then, but under the name of a
    member of [Object.prototype] they still hold the inherited member.) *)
Theorem build_without_embedding_types `{!RegExp} (graphDef : GraphDef)
    (params : BuildParams) (p : nat) (X : NodeDef) :
  plainNames graphDef = true →
  inEmbeddingTypes params = [] →
  outEmbeddingTypes params = [] →
  node graphDef !! p = Some X →
  (build graphDef params).1.2 !! p
  = Some (set_name (finalName params graphDef (raw_name X)) (OpNodeImpl X).1)
  ∧ is_Some (nodes (build graphDef params).1.1
               !! finalName params graphDef (raw_name X))
  ∧ ∀ i inp,
      normalizeInputs (raw_input X) !! i = Some inp →
      finalName params graphDef (input_name inp)
      ≠ finalName params graphDef (raw_name X) →
      {| v := finalName params graphDef (input_name inp);
         w := finalName params graphDef (raw_name X);
         edge_outputTensorKey := outputTensorKey inp;
         edge_isControlDependency := isControlDependency inp;
         isReferenceEdge := isRefEdge params (raw_op X) i |}
      ∈ edges (build graphDef params).1.1.
Proof.
  intros _ HinTypes HoutTypes HX.
  unfold finalName, nameDictionary, build.
  pose proof (normalizeNames_classified params graphDef) as Hclass.
  pose proof (normalizeNames_noEmbedding params HinTypes HoutTypes graphDef)
    as (Hin & Hout & Houts).
  pose proof (normalizeNames_store params graphDef p X HX) as HstX.
  pose proof (normalizeNames_opNodes params graphDef p X HX
                (kindOf_plain params HinTypes HoutTypes _)) as HopX.
  destruct (normalizeNames params graphDef) as [st graphDef']. simpl in *.
  set (dict := mapStrictHierarchy (nodeNames st) (embeddingNodeNames st)) in *.
  pose proof Hclass as (Hnodup & Hmains & _).
  destruct (addNode_fold params st dict Hclass
              (opNodes st) {| nodes := ∅; edges := [] |} (store st) Hnodup)
    as (_ & _ & _ & Hadded & _); [done|done|].
  assert (added st dict (OpNodeImpl X).1
          = set_name (normalizedName dict (raw_name X)) (OpNodeImpl X).1) as Hadd.
  { unfold added. by rewrite Houts, lookup_empty, OpNodeImpl_name. }
  split; [|split].
  - unfold buildSlimGraph. fold dict. simpl.
    unfold renameInEmbeddings. rewrite Hin, map_fold_empty.
    set (acc1 := foldl (addNode st dict) _ (opNodes st)) in *.
    assert ((foldl (addInputs params st dict) acc1 (opNodes st)).2 = acc1.2) as ->.
    { apply (foldl_invariant (λ acc, acc.2 = acc1.2)); [done|].
      intros acc l Hacc. by rewrite addInputs_plain. }
    by rewrite (Hadded p _ HopX HstX), Hadd.
  - pose proof (buildSlimGraph_main_key params st p _ Hclass HopX HstX) as Hkey.
    by rewrite OpNodeImpl_name in Hkey.
  - intros i inp Hinp Hne. unfold buildSlimGraph. fold dict. simpl.
    set (acc1 := foldl (addNode st dict) _ (opNodes st)) in *.
    pose proof (addInputs_fold_direct params st dict (opNodes st) acc1.1 acc1.2
                  p (added st dict (OpNodeImpl X).1) i inp HopX
                  (Hadded p _ HopX HstX)) as Hedge.
    rewrite <- surjective_pairing in Hedge.
    rewrite added_name, added_op, added_inputs in Hedge.
    rewrite OpNodeImpl_name, OpNodeImpl_op, OpNodeImpl_inputs in Hedge.
    apply Hedge; [done| | |done].
    + by rewrite Hin, lookup_empty.
    + by rewrite Hout, lookup_empty.
Qed.

Lemma build_node_map_names_main_nodes_witness :
  ∃ n, (@build defaultRegExp constGraph DefaultBuildParams).1.2 !! 2 = Some n
       ∧ name n = "N"
       ∧ @kindOf defaultRegExp DefaultBuildParams n = MainNode.
Proof.
  apply (@build_node_map_names_main_nodes defaultRegExp constGraph DefaultBuildParams
           "N" 2).
  reflexivity.
Defined.

Lemma build_edges_end_in_node_map_witness :
  ∃ l n, nodes (@build defaultRegExp constGraph DefaultBuildParams).1.1 !! "N" = Some l
         ∧ (@build defaultRegExp constGraph DefaultBuildParams).1.2 !! l = Some n
         ∧ name n = "N"
         ∧ @kindOf defaultRegExp DefaultBuildParams n = MainNode.
Proof.
  apply (@build_edges_end_in_node_map defaultRegExp constGraph DefaultBuildParams
           {| v := "X"; w := "N"; edge_outputTensorKey := "0";
              edge_isControlDependency := true; isReferenceEdge := false |}).
  rewrite build_constGraph. apply list_elem_of_singleton. reflexivity.
Defined.

Lemma build_edge_reference_flag_witness :
  ∃ (l : loc) n i input,
    (@build defaultRegExp constGraph DefaultBuildParams).1.2 !! l = Some n
    ∧ @kindOf defaultRegExp DefaultBuildParams n = MainNode
    ∧ name n = "N"
    ∧ inputs n !! i = Some input
    ∧ false = isRefEdge DefaultBuildParams (op n) i.
Proof.
  apply (@build_edge_reference_flag defaultRegExp constGraph DefaultBuildParams
           {| v := "X"; w := "N"; edge_outputTensorKey := "0";
              edge_isControlDependency := true; isReferenceEdge := false |}).
  rewrite build_constGraph. apply list_elem_of_singleton. reflexivity.
Defined.

Lemma build_without_embedding_types_witness :
  (@build defaultRegExp constGraph plainParams).1.2 !! 1
  = Some (set_name (@finalName defaultRegExp plainParams constGraph "C")
            (OpNodeImpl (rawNode "C" "Const" ["^X"])).1)
  ∧ is_Some (nodes (@build defaultRegExp constGraph plainParams).1.1
               !! @finalName defaultRegExp plainParams constGraph "C")
  ∧ ∀ i inp,
      normalizeInputs (Some ["^X"]) !! i = Some inp →
      @finalName defaultRegExp plainParams constGraph (input_name inp)
      ≠ @finalName defaultRegExp plainParams constGraph "C" →
      {| v := @finalName defaultRegExp plainParams constGraph (input_name inp);
         w := @finalName defaultRegExp plainParams constGraph "C";
         edge_outputTensorKey := outputTensorKey inp;
         edge_isControlDependency := isControlDependency inp;
         isReferenceEdge := isRefEdge plainParams "Const" i |}
      ∈ edges (@build defaultRegExp constGraph plainParams).1.1.
Proof.
  apply (@build_without_embedding_types defaultRegExp constGraph plainParams 1
           (rawNode "C" "Const" ["^X"])); reflexivity.
Defined.

(** ** The store of the first task *)

Section Allocated.
Context `{!RegExp} (params : BuildParams).

Lemma processRawNodes_store rawNodes st :
  store (processRawNodes params rawNodes st).1
  = store st ++ ((λ X, (OpNodeImpl X).1) <$> rawNodes).
Proof.
  revert st. induction rawNodes as [|r rawNodes IH]; intros st.
  - simpl. by rewrite app_nil_r.
  - rewrite processRawNodes_cons, IH, rawStep_store, fmap_cons. simpl.
    by rewrite <- app_assoc.
Qed.

Lemma processInput_rawStep func st index arg :
  processInput params (FUNCTION_LIBRARY_NODE_PREFIX +:+ signature_name func)
    (st, index) arg
  = (rawStep params (inputArgRawNode func arg)
       (set_functionInputIndex (Some index)) st, S index).
Proof.
  unfold processInput, rawStep. fold (inputArgRawNode func arg).
  by destruct (processRawNode params (inputArgRawNode func arg) st) as [[st1 r'] l].
Qed.

Lemma processInputs_store func args st index :
  store (foldl (processInput params
                  (FUNCTION_LIBRARY_NODE_PREFIX +:+ signature_name func))
               (st, index) args).1
  = store st
    ++ imap (λ k arg,
               set_functionInputIndex (Some (index + k))
                 (OpNodeImpl (inputArgRawNode func arg)).1) args.
Proof.
  revert st index. induction args as [|arg args IH]; intros st index.
  - simpl. by rewrite app_nil_r.
  - cbn [foldl]. rewrite processInput_rawStep, IH, rawStep_store.
    rewrite imap_cons, <- app_assoc, Nat.add_0_r. f_equal. cbn [app]. f_equal.
    apply imap_ext. intros k x _. unfold compose.
    by replace (S index + k) with (index + S k) by lia.
Qed.

Lemma processBodyNode_rawStep func rawNode st :
  (processBodyNode params (FUNCTION_LIBRARY_NODE_PREFIX +:+ signature_name func)
     (outputArgNamesOf func) rawNode st).1
  = rawStep params (renamedBodyNode func rawNode)
      (λ n,
         let n' :=
           match outputArgNamesOf func !! raw_name (renamedBodyNode func rawNode) with
           | Some index => set_functionOutputIndex (Some index) n
           | None => n
           end in
         set_inputs
           (prefixInput (FUNCTION_LIBRARY_NODE_PREFIX +:+ signature_name func)
              <$> inputs n') n')
      st.
Proof.
  unfold processBodyNode, rawStep. fold (renamedBodyNode func rawNode).
  destruct (processRawNode params (renamedBodyNode func rawNode) st) as [[st1 r'] l].
  destruct (outputArgNamesOf func !! raw_name (renamedBodyNode func rawNode));
    simpl; [by rewrite update_update|done].
Qed.

Lemma processBodyNodes_store func rawNodes st :
  store (processBodyNodes params
           (FUNCTION_LIBRARY_NODE_PREFIX +:+ signature_name func)
           (outputArgNamesOf func) rawNodes st).1
  = store st ++ (bodyNodeObject func <$> rawNodes).
Proof.
  revert st. induction rawNodes as [|r rawNodes IH]; intros st.
  - simpl. by rewrite app_nil_r.
  - simpl. pose proof (processBodyNode_rawStep func r st) as Hstep.
    destruct (processBodyNode _ _ _ r st) as [st1 r']. simpl in Hstep.
    specialize (IH st1). destruct (processBodyNodes _ _ _ rawNodes st1) as [st2 rest'].
    cbn [fst] in *. rewrite IH, Hstep, rawStep_store, <- app_assoc.
    reflexivity.
Qed.

Lemma processFunction_store func st :
  store (processFunction params func st).1 = store st ++ functionNodeObjects func.
Proof.
  unfold processFunction. fold (functionRawNode func). fold (outputArgNamesOf func).
  pose proof (processRawNode_rawStep params (functionRawNode func) st) as Hfn.
  destruct (processRawNode params (functionRawNode func) st) as [[st1 r'] l].
  simpl in Hfn.
  pose proof (processBodyNodes_store func (node_def func)
                (foldl (processInput params
                          (FUNCTION_LIBRARY_NODE_PREFIX +:+ signature_name func))
                       (st1, 0) (argsOf (input_arg func))).1) as Hbody.
  destruct (processBodyNodes _ _ _ (node_def func) _) as [st3 body]. simpl in *.
  rewrite Hbody, processInputs_store, Hfn, rawStep_store.
  unfold functionNodeObjects. by rewrite <- !app_assoc.
Qed.

Lemma processFunctions_store funcs st :
  store (processFunctions params funcs st).1
  = store st ++ concat (functionNodeObjects <$> funcs).
Proof.
  revert st. induction funcs as [|func funcs IH]; intros st.
  - simpl. by rewrite app_nil_r.
  - simpl. pose proof (processFunction_store func st) as Hf.
    destruct (processFunction params func st) as [st1 func']. simpl in Hf.
    specialize (IH st1). destruct (processFunctions params funcs st1) as [st2 rest'].
    simpl in *. by rewrite IH, Hf, <- app_assoc.
Qed.

Lemma normalizeNames_store_all graphDef :
  store (normalizeNames params graphDef).1
  = ((λ X, (OpNodeImpl X).1) <$> node graphDef)
    ++ concat (functionNodeObjects <$> default [] (library graphDef)).
Proof.
  unfold normalizeNames.
  pose proof (processRawNodes_store (node graphDef) emptyBuilder) as Hraw.
  destruct (processRawNodes params (node graphDef) emptyBuilder) as [st1 rawNodes].
  simpl in Hraw.
  destruct (library graphDef) as [funcs|]; simpl.
  - pose proof (processFunctions_store funcs st1) as Hlib.
    destruct (processFunctions params funcs st1) as [st2 funcs']. simpl in *.
    by rewrite Hlib, Hraw.
  - by rewrite Hraw, app_nil_r.
Qed.
End Allocated.

(** X30: the node objects [build] makes, in the order it makes them:
    those of the raw nodes of the description, then, for each library
    function, the function node, the nodes of the input arguments with
    their indices counted from 0, and the body nodes, each with prefixed
    inputs and with the index of the output argument that bears its new
    name, if there is one. In the built graph they hold, apart from their
    names and embedding lists, what they held when they were made. *)
Theorem build_allocates_node_objects `{!RegExp} (graphDef : GraphDef)
    (params : BuildParams) :
  content <$> (build graphDef params).1.2
  = content <$> (((λ X, (OpNodeImpl X).1) <$> node graphDef)
                   ++ concat (functionNodeObjects <$> default [] (library graphDef))).
Proof.
  unfold build.
  pose proof (normalizeNames_classified params graphDef) as Hclass.
  pose proof (normalizeNames_store_all params graphDef) as Hstore.
  destruct (normalizeNames params graphDef) as [st graphDef']. cbn [fst] in *.
  by rewrite buildSlimGraph_content, Hstore.
Qed.

(** ** Two builds of one graph description, in general *)

Lemma skeleton_withoutShapes (n : OpNode) : skeleton (withoutShapes n) = skeleton n.
Proof. reflexivity. Qed.







Section TwoBuilds.
Context `{!RegExp} (params : BuildParams).









Lemma addEdges_withoutShapes dict (n : OpNode) (fixed : option NormalizedInput)
    (i : nat) (g : SlimGraph) (embedInputs : list NormalizedInput) :
  foldl (λ g embedInput,
           addEdgeToGraph g (normalizedName dict (input_name embedInput))
             (withoutShapes n) (default embedInput fixed) params i)
        g embedInputs
  = foldl (λ g embedInput,
             addEdgeToGraph g (normalizedName dict (input_name embedInput))
               n (default embedInput fixed) params i)
          g embedInputs.
Proof. reflexivity. Qed.




End TwoBuilds.




